(** * Customer segmentation pipeline ([src/utils/clustering.ts])

    A shallow embedding of the analytical core of the repository: min-max
    normalisation, the silhouette score, one clustering run with its
    per-cluster summaries, and the scan for the best cluster count; and
    of what its callers, the dashboard and the scatter plot
    ([src/components]), compute from a dataset and an analysis.

    JavaScript numbers are IEEE-754 binary64 values; they are modelled by
    Rocq's primitive [float], whose operations are the processor's binary64
    operations, so every evaluation below is bit-exact.  Thrown exceptions
    are modelled by the [result] type.  What the module takes from outside
    the repository, the [ml-kmeans] package, the runtime's
    string-to-number conversion and the number of arguments the engine
    accepts in one call, are the fields of the [Host] class.

    The file has four parts: the program; the vocabulary in which its
    properties are stated; the facts about binary64 arithmetic they rest
    on, derived from the bit-level specification of the operations; and
    the properties of the program and of its callers. *)

From Stdlib Require Import List ZArith Bool String Lia Floats FinFun.
From Stdlib Require Uint63.
Import ListNotations.

(** ** Exceptions *)

(** What the code can throw.  The module only ever throws plain [Error]
    objects that differ in their message, so the constructors name the
    throwing site. *)
Inductive exn : Type :=
| TypeError                      (* the runtime: [Object.keys(undefined)] *)
| RangeError                     (* the runtime: a call spread over too many arguments *)
| VectorsLengthError             (* euclidean: 'Vectors must have the same length' *)
| NotEnoughDataPoints (k : Z)    (* performClustering: 'Not enough data points for k clusters...' *)
| LibraryError (msg : string).   (* anything thrown inside ml-kmeans *)

Inductive result (A : Type) : Type :=
| Ok (a : A)
| Throw (e : exn).

Arguments Ok {A} a.
Arguments Throw {A} e.

Definition bind {A B : Type} (c : result A) (k : A -> result B) : result B :=
  match c with
  | Ok a => k a
  | Throw e => Throw e
  end.

Notation "x <- c ;; k" := (bind c (fun x => k))
  (at level 61, c at next level, right associativity).

(** [try { body } catch (error) { handler }] *)
Definition try_catch {A : Type} (body : result A) (handler : exn -> result A) : result A :=
  match body with
  | Ok a => Ok a
  | Throw e => handler e
  end.

(** Left fold whose step may throw: the shape of every accumulating loop
    in the module. *)
Fixpoint foldM {A B : Type} (f : B -> A -> result B) (l : list A) (acc : B) : result B :=
  match l with
  | [] => Ok acc
  | x :: rest => acc' <- f acc x ;; foldM f rest acc'
  end.

(** [l.map((x, i) => f x i)] with a callback that may throw: the
    elements are visited in order and the first throw ends the map. *)
Fixpoint mapiM_from {A B : Type} (f : A -> nat -> result B) (i : nat) (l : list A)
  : result (list B) :=
  match l with
  | [] => Ok []
  | x :: rest => y <- f x i ;; ys <- mapiM_from f (S i) rest ;; Ok (y :: ys)
  end.

Definition mapiM {A B : Type} (f : A -> nat -> result B) (l : list A) : result (list B) :=
  mapiM_from f 0 l.

(** ** The JavaScript runtime *)

Module JS.

Local Open Scope float_scope.

(** [Math.min(a, b)] and [Math.max(a, b)]: NaN is contagious and
    [-0] is below [+0]. *)
Definition is_neg_zero (x : float) : bool :=
  (x =? 0) && (1 / x <? 0).

Definition min2 (a b : float) : float :=
  if is_nan a || is_nan b then nan
  else if a <? b then a
  else if b <? a then b
  else if is_neg_zero a then a else b.

Definition max2 (a b : float) : float :=
  if is_nan a || is_nan b then nan
  else if b <? a then a
  else if a <? b then b
  else if is_neg_zero a then b else a.

(** [Math.min(x1, ..., xn)] and [Math.max(x1, ..., xn)], the value of the
    call on the arguments [xs]: no argument gives [Infinity],
    respectively [-Infinity]. *)
Definition Math_min (xs : list float) : float := fold_left min2 xs infinity.
Definition Math_max (xs : list float) : float := fold_left max2 xs neg_infinity.

(** [f(...xs)]: the elements of [xs] become the arguments of one call.
    An engine accepts only so many arguments, [limit], and throws a
    RangeError when the array holds more; otherwise the call is made. *)
Definition spread {A : Type} (limit : Z) (f : list float -> A) (xs : list float) : result A :=
  if (limit <? Z.of_nat (List.length xs))%Z then Throw RangeError else Ok (f xs).

(** [x || 0] on a number: NaN and both zeros are falsy. *)
Definition or_zero (x : float) : float :=
  if is_nan x || (x =? 0) then 0 else x.

(** An array length (below [2^32]) as a number. *)
Definition of_length (n : nat) : float := of_uint63 (Uint63.of_Z (Z.of_nat n)).

(** [xs[i]] read in a numeric context: a missing element is [undefined],
    which arithmetic turns into NaN. *)
Definition idx (xs : list float) (i : nat) : float := nth i xs nan.

(** [xs.map((x, i) => f x i)] and [xs.filter((x, i) => p x i)]. *)
Fixpoint mapi_from {A B : Type} (f : A -> nat -> B) (i : nat) (l : list A) : list B :=
  match l with
  | [] => []
  | x :: rest => f x i :: mapi_from f (S i) rest
  end.

Definition mapi {A B : Type} (f : A -> nat -> B) (l : list A) : list B :=
  mapi_from f 0 l.

Fixpoint filteri_from {A : Type} (p : A -> nat -> bool) (i : nat) (l : list A) : list A :=
  match l with
  | [] => []
  | x :: rest =>
      if p x i then x :: filteri_from p (S i) rest else filteri_from p (S i) rest
  end.

Definition filteri {A : Type} (p : A -> nat -> bool) (l : list A) : list A :=
  filteri_from p 0 l.

(** [[...new Set(xs)]]: the distinct elements in order of first
    occurrence. *)
Fixpoint set_of (seen : list Z) (xs : list Z) : list Z :=
  match xs with
  | [] => []
  | x :: rest =>
      if existsb (Z.eqb x) seen then set_of seen rest
      else x :: set_of (x :: seen) rest
  end.

Definition Set_spread (xs : list Z) : list Z := set_of [] xs.

(** [x === y] on array elements that may be [undefined]. *)
Definition strict_eq (x y : option Z) : bool :=
  match x, y with
  | Some a, Some b => Z.eqb a b
  | None, None => true
  | _, _ => false
  end.

End JS.

(** ** Records *)

(** A field of a [CustomerRecord] is a string or a number
    ([[key: string]: string | number]). *)
Inductive value : Type :=
| VNumber (x : float)
| VString (s : string).

(** A record is its own enumerable properties in enumeration order; a
    JavaScript object holds a key once. *)
Definition CustomerRecord : Type := list (string * value).

Definition Object_keys (r : CustomerRecord) : list string := map fst r.

(** [record[key]]; [None] is [undefined]. *)
Fixpoint get (r : CustomerRecord) (key : string) : option value :=
  match r with
  | [] => None
  | (k, v) :: rest => if String.eqb k key then Some v else get rest key
  end.

(** [typeof v === 'number'] *)
Definition is_number (v : option value) : bool :=
  match v with
  | Some (VNumber _) => true
  | _ => false
  end.

(** [excludeColumns.includes(key)] *)
Definition includes (l : list string) (key : string) : bool :=
  existsb (String.eqb key) l.

(** ** Result types ([src/types]) *)

Record Normalized : Type := {
  normalized : list (list float);
  features : list string
}.

(** The part of [KMeansResult] the module reads. *)
Record KMeansResult : Type := {
  km_clusters : list Z;
  km_centroids : list (list float)
}.

Record ClusterResult : Type := {
  cluster : option Z;               (* [result.clusters[index]] *)
  data : CustomerRecord;
  centroid : option (list float)    (* [result.centroids[cluster]] *)
}.

Record ClusterSummary : Type := {
  clusterId : Z;
  count : nat;
  characteristics : list (string * float);
  color : option string;
  name : option string
}.

Record ClusterAnalysis : Type := {
  clusters : list ClusterResult;
  centroids : list (list float);
  silhouetteScore : float;
  clusterSummaries : list ClusterSummary
}.

Record ScoreEntry : Type := {
  sc_k : Z;
  sc_score : float
}.

Record OptimalClusters : Type := {
  opt_k : Z;
  opt_scores : list ScoreEntry
}.

(** ** What the module imports *)

(** [kmeans data K {maxIterations}] is the entry point of the [ml-kmeans]
    package, [StringToNumber] the runtime's conversion behind
    [Number(s)] on a string, and [max_arguments] the greatest number of
    arguments the engine accepts in the calls [Math.min(...column)] and
    [Math.max(...column)].  None is code of the repository; the
    development is parametric in the three.  One run of the pipeline asks
    [kmeans] about a given matrix and cluster count at most once, so a
    function is enough to describe a run. *)
Class Host : Type := {
  StringToNumber : string -> float;
  max_arguments : Z;
  kmeans : list (list float) -> Z -> Z -> result KMeansResult
}.

(** ** The catalogs *)

Definition CLUSTER_COLORS : list string :=
  [ "#3b82f6"; "#10b981"; "#f59e0b"; "#ef4444";
    "#8b5cf6"; "#06b6d4"; "#f97316"; "#84cc16" ]%string.

Definition CLUSTER_NAMES : list string :=
  [ "High-Value Customers"; "Budget-Conscious"; "Frequent Buyers";
    "Occasional Shoppers"; "Premium Seekers"; "Deal Hunters";
    "Loyal Customers"; "New Customers" ]%string.

(** [catalog[i % catalog.length]] for an integer [i]; JavaScript's [%]
    truncates, hence [Z.rem]; a negative or missing index reads
    [undefined]. *)
Definition catalog_at (catalog : list string) (i : Z) : option string :=
  let j := Z.rem i (Z.of_nat (List.length catalog)) in
  if (j <? 0)%Z then None else nth_error catalog (Z.to_nat j).

(** ** The functions of [clustering.ts] *)

Section Clustering.

Context {host : Host}.

Local Open Scope float_scope.

(** [Number(record[feature]) || 0] *)
Definition Number (v : option value) : float :=
  match v with
  | Some (VNumber x) => x
  | Some (VString s) => StringToNumber s
  | None => nan
  end.

Definition coerce (record : CustomerRecord) (feature : string) : float :=
  JS.or_zero (Number (get record feature)).

Definition euclidean (a b : list float) : result float :=
  if negb (Nat.eqb (List.length a) (List.length b)) then Throw VectorsLengthError
  else
    let sum :=
      fold_left (fun sum i => let diff := JS.idx a i - JS.idx b i in sum + diff * diff)
                (seq 0 (List.length a)) 0 in
    Ok (PrimFloat.sqrt sum).

(** The stages of [normalizeData]: the filter that gives [features], the
    map that gives [values], one column of [values], and the arrow
    function that normalises a cell. *)
Definition select_features (first : CustomerRecord) (excludeColumns : list string)
  : list string :=
  filter (fun key => negb (includes excludeColumns key) && is_number (get first key))
         (Object_keys first).

Definition raw_values (data : list CustomerRecord) (features : list string)
  : list (list float) :=
  map (fun record => map (fun feature => coerce record feature) features) data.

Definition column (values : list (list float)) (i : nat) : list float :=
  map (fun row => JS.idx row i) values.

Definition scale (mins maxs : list float) (val : float) (i : nat) : float :=
  let range := JS.idx maxs i - JS.idx mins i in
  if range =? 0 then 0 else (val - JS.idx mins i) / range.

(** Each feature's minimum, then each feature's maximum, is taken by
    spreading the whole column into one call, which throws when the
    column is longer than the engine allows. *)
Definition normalizeData (data : list CustomerRecord) (excludeColumns : list string)
  : result Normalized :=
  match data with
  | [] => Throw TypeError
  | first :: _ =>
      let features := select_features first excludeColumns in
      let values := raw_values data features in
      mins <- mapiM (fun _ i => JS.spread max_arguments JS.Math_min (column values i))
                    features ;;
      maxs <- mapiM (fun _ i => JS.spread max_arguments JS.Math_max (column values i))
                    features ;;
      let normalized := map (fun row => JS.mapi (scale mins maxs) row) values in
      Ok {| normalized := normalized; features := features |}
  end.

(** [points.reduce((sum, point) => sum + euclidean(p, point), 0)] *)
Definition sum_distances (p : list float) (points : list (list float)) : result float :=
  foldM (fun sum point => d <- euclidean p point ;; Ok (sum + d)) points 0.

(** [a(i)]: the mean distance to the other points of the same cluster. *)
Definition intra_distance (data : list (list float)) (clusters : list Z) (i : nat)
  : result float :=
  let currentCluster := nth_error clusters i in
  let sameClusterPoints :=
    JS.filteri (fun _ idx => JS.strict_eq (nth_error clusters idx) currentCluster
                             && negb (Nat.eqb idx i)) data in
  if (0 <? List.length sameClusterPoints)%nat
  then total <- sum_distances (nth i data []) sameClusterPoints ;;
       Ok (total / JS.of_length (List.length sameClusterPoints))
  else Ok 0.

(** [b(i)]: the least mean distance to the points of another cluster,
    [Infinity] when there is none. *)
Definition nearest_distance (data : list (list float)) (clusters : list Z) (i : nat)
  : result float :=
  let currentCluster := nth_error clusters i in
  let otherClusters :=
    filter (fun c => negb (JS.strict_eq (Some c) currentCluster)) (JS.Set_spread clusters) in
  foldM (fun bI cluster =>
           let otherClusterPoints :=
             JS.filteri (fun _ idx => JS.strict_eq (nth_error clusters idx) (Some cluster))
                        data in
           if (0 <? List.length otherClusterPoints)%nat
           then total <- sum_distances (nth i data []) otherClusterPoints ;;
                Ok (JS.min2 bI (total / JS.of_length (List.length otherClusterPoints)))
           else Ok bI)
        otherClusters infinity.

(** The silhouette coefficient of point [i]. *)
Definition silhouette (data : list (list float)) (clusters : list Z) (i : nat)
  : result float :=
  aI <- intra_distance data clusters i ;;
  bI <- nearest_distance data clusters i ;;
  Ok (if bI =? infinity then 0 else (bI - aI) / JS.max2 aI bI).

Definition calculateSilhouetteScore (data : list (list float)) (clusters : list Z)
  : result float :=
  let n := List.length data in
  totalScore <- foldM (fun totalScore i =>
                         s <- silhouette data clusters i ;; Ok (totalScore + s))
                      (seq 0 n) 0 ;;
  Ok (totalScore / JS.of_length n).

(** [result.centroids[c]] for a cluster id that may be [undefined]. *)
Definition centroid_of (cs : list (list float)) (c : option Z) : option (list float) :=
  match c with
  | Some c => if (c <? 0)%Z then None else nth_error cs (Z.to_nat c)
  | None => None
  end.

(** The mean of one feature over the members of a cluster:
    [values.reduce((sum, val) => sum + val, 0) / values.length]. *)
Definition feature_mean (clusterData : list ClusterResult) (feature : string) : float :=
  let values := map (fun r => coerce (data r) feature) clusterData in
  fold_left (fun sum val => sum + val) values 0 / JS.of_length (List.length values).

(** One turn of the summary loop. *)
Definition summarize (clusterResults : list ClusterResult) (features : list string) (i : Z)
  : ClusterSummary :=
  let clusterData := filter (fun r => JS.strict_eq (cluster r) (Some i)) clusterResults in
  {| clusterId := i;
     count := List.length clusterData;
     characteristics := map (fun feature => (feature, feature_mean clusterData feature))
                            features;
     color := catalog_at CLUSTER_COLORS i;
     name := catalog_at CLUSTER_NAMES i |}.

(** [for (let i = 0; i < k; i++)].  The cluster count is an integer
    throughout (it comes from a slider and from the loop of
    [findOptimalClusters]), and so is [maxK]. *)
Definition upto (k : Z) : list Z := map Z.of_nat (seq 0 (Z.to_nat k)).

(** [data.map((record, index) => ({cluster, data, centroid}))] *)
Definition label_records (result : KMeansResult) (data : list CustomerRecord)
  : list ClusterResult :=
  JS.mapi (fun record index =>
             {| cluster := nth_error (km_clusters result) index;
                data := record;
                centroid := centroid_of (km_centroids result)
                                        (nth_error (km_clusters result) index) |})
          data.

Definition performClustering (data : list CustomerRecord) (k : Z) : result ClusterAnalysis :=
  nf <- normalizeData data ["id"%string] ;;
  if (Z.of_nat (List.length (normalized nf)) <? k)%Z then Throw (NotEnoughDataPoints k)
  else
    result <- kmeans (normalized nf) k 100 ;;
    let clusterResults := label_records result data in
    silhouetteScore <- calculateSilhouetteScore (normalized nf) (km_clusters result) ;;
    let clusterSummaries := map (summarize clusterResults (features nf)) (upto k) in
    Ok {| clusters := clusterResults;
          centroids := km_centroids result;
          silhouetteScore := silhouetteScore;
          clusterSummaries := clusterSummaries |}.

(** The loop of [findOptimalClusters].  [candidates] are the values [k]
    takes, in order; one turn pushes a score, or ends the loop when the
    [try] block throws ([break]). *)
Definition candidates (maxK : Z) (n : nat) : list Z :=
  map (fun i => (2 + Z.of_nat i)%Z) (seq 0 (Z.to_nat (Z.min maxK (Z.of_nat n) - 1))).

Fixpoint scan (data : list CustomerRecord) (ks : list Z) (scores : list ScoreEntry)
  : result (list ScoreEntry) :=
  match ks with
  | [] => Ok scores
  | k :: rest =>
      step <- try_catch
                (analysis <- performClustering data k ;;
                 Ok (Some (scores ++ [{| sc_k := k; sc_score := silhouetteScore analysis |}])))
                (fun _ => Ok None) ;;
      match step with
      | Some scores' => scan data rest scores'
      | None => Ok scores
      end
  end.

(** [scores.reduce((best, current) => current.score > best.score ? current : best)]
    on a non-empty array. *)
Definition best_of (first : ScoreEntry) (rest : list ScoreEntry) : ScoreEntry :=
  fold_left (fun best current => if sc_score best <? sc_score current then current else best)
            rest first.

Definition findOptimalClusters (data : list CustomerRecord) (maxK : Z)
  : result OptimalClusters :=
  scores <- scan data (candidates maxK (List.length data)) [] ;;
  match scores with
  | [] => Ok {| opt_k := 2; opt_scores := [] |}
  | first :: rest =>
      Ok {| opt_k := sc_k (best_of first rest); opt_scores := scores |}
  end.

End Clustering.

Arguments normalizeData {host} data excludeColumns.
Arguments performClustering {host} data k.
Arguments findOptimalClusters {host} data maxK.

(** ** The callers ([src/components]) *)

(** What the dashboard and the scatter plot compute from the dataset and
    from an analysis before they render. *)

(** [summaries[c]] for a label that may be [undefined]: a missing or
    negative index reads [undefined]. *)
Definition summary_at (summaries : list ClusterSummary) (c : option Z)
  : option ClusterSummary :=
  match c with
  | Some c => if (c <? 0)%Z then None else nth_error summaries (Z.to_nat c)
  | None => None
  end.

(** [s || fallback] on a string that may be [undefined]; the empty
    string is falsy too. *)
Definition or_else (s : option string) (fallback : string) : string :=
  match s with
  | Some s => if String.eqb s "" then fallback else s
  | None => fallback
  end.

(** A point of the scatter plot. *)
Record ChartPoint : Type := {
  pt_x : float;
  pt_y : float;
  pt_cluster : option Z;
  pt_id : option value;
  pt_color : string
}.

Module Dashboard.

Section Component.

Context {host : Host}.

(** The runtime's conversion of a label inside a template literal. *)
Variable ToString : option Z -> string.

(** The features offered for the two axes. *)
Definition numericFeatures (data : list CustomerRecord) : result (list string) :=
  match data with
  | [] => Throw TypeError
  | first :: _ =>
      Ok (filter (fun key => negb (String.eqb key "id") && is_number (get first key))
                 (Object_keys first))
  end.

(** [try { return performClustering(data, clusterCount) } catch { return null }];
    the handler also logs the error. *)
Definition analysis (data : list CustomerRecord) (clusterCount : Z) : option ClusterAnalysis :=
  match performClustering data clusterCount with
  | Ok a => Some a
  | Throw _ => None
  end.

(** The cluster count the component starts with: [useState(4)]. *)
Definition initialClusterCount : Z := 4.

(** [findOptimalClusters(data)], with the default [maxK]. *)
Definition optimalAnalysis (data : list CustomerRecord) : result OptimalClusters :=
  findOptimalClusters data 8.

(** The records behind the figures when a cluster is selected;
    [records] is the component's [data]. *)
Definition filteredData (records : list CustomerRecord) (analysis : option ClusterAnalysis)
           (selectedCluster : option Z) : list CustomerRecord :=
  match analysis, selectedCluster with
  | Some a, Some c =>
      map (fun result => data result)
          (filter (fun result => JS.strict_eq (cluster result) (Some c)) (clusters a))
  | _, _ => records
  end.

(** The cluster counts of the selector:
    [Array.from({ length: Math.min(8, data.length - 1) }, (_, i) => i + 2)];
    a length that is not positive gives the empty array. *)
Definition clusterOptions (data : list CustomerRecord) : list Z :=
  map (fun i => (Z.of_nat i + 2)%Z)
      (seq 0 (Z.to_nat (Z.min 8 (Z.of_nat (List.length data) - 1)))).

(** The [clusterName] column of an exported row, also the last line of
    the plot's tooltip. *)
Definition clusterName (analysis : ClusterAnalysis) (c : option Z) : string :=
  or_else (match summary_at (clusterSummaries analysis) c with
           | Some s => name s
           | None => None
           end)
          ("Cluster " ++ ToString c).

End Component.

End Dashboard.

Module ClusterVisualization.

Section Component.

Context {host : Host}.

(** The points handed to the chart, one per clustered record. *)
Definition data (analysis : ClusterAnalysis) (xFeature yFeature : string) : list ChartPoint :=
  map (fun result =>
         {| pt_x := coerce (data result) xFeature;
            pt_y := coerce (data result) yFeature;
            pt_cluster := cluster result;
            pt_id := get (data result) "id";
            pt_color := or_else (match summary_at (clusterSummaries analysis) (cluster result) with
                                 | Some s => color s
                                 | None => None
                                 end)
                                "#666" |})
      (clusters analysis).

End Component.

End ClusterVisualization.

(** ** Concrete datasets *)

Module Samples.

Local Open Scope string_scope.
Local Open Scope float_scope.

(** A host that answers from a table.  Like the library, it first turns
    down a cluster count that is not positive or exceeds the number of
    rows, with the library's message; [partitions] then lists, per
    cluster count, the partition [kmeans] returns.  A count the table
    does not list stands for no run of the library: the samples are only
    asked about the counts they list.  All sample records are numeric,
    so the string conversion is never consulted, and the engine takes
    calls of 100000 arguments. *)
Definition table_host (partitions : list (Z * KMeansResult)) : Host :=
  {| StringToNumber := fun _ => nan;
     max_arguments := 100000;
     kmeans := fun data k _ =>
       if ((k <=? 0) || (Z.of_nat (List.length data) <? k))%Z
       then Throw (LibraryError "K should be a positive integer smaller than the number of points")
       else match find (fun p => Z.eqb (fst p) k) partitions with
            | Some p => Ok (snd p)
            | None => Throw (LibraryError "no partition listed for this cluster count")
            end |}.

(** Three distinct customers.  With two clusters k-means converges to
    {a, b} and {c}; with three clusters every customer is alone. *)
Definition three_customers : list CustomerRecord :=
  [ [("id", VString "a"); ("spend", VNumber 1); ("visits", VNumber 1)];
    [("id", VString "b"); ("spend", VNumber 2); ("visits", VNumber 2)];
    [("id", VString "c"); ("spend", VNumber 10); ("visits", VNumber 10)] ].

Definition three_customers_host : Host :=
  table_host
    [ (2%Z, {| km_clusters := [0; 0; 1]%Z;
               km_centroids := [[0x1.c71c71c71c71cp-5; 0x1.c71c71c71c71cp-5]; [1; 1]] |});
      (3%Z, {| km_clusters := [0; 1; 2]%Z;
               km_centroids := [[0; 0]; [0x1.c71c71c71c71cp-4; 0x1.c71c71c71c71cp-4]; [1; 1]] |}) ].

(** Three customers with the same figures: every row of the matrix is
    the origin, all rows go to the first centroid and the second cluster
    stays empty. *)
Definition three_twins : list CustomerRecord :=
  [ [("id", VString "a"); ("spend", VNumber 5); ("visits", VNumber 3)];
    [("id", VString "b"); ("spend", VNumber 5); ("visits", VNumber 3)];
    [("id", VString "c"); ("spend", VNumber 5); ("visits", VNumber 3)] ].

Definition three_twins_host : Host :=
  table_host
    [ (2%Z, {| km_clusters := [0; 0; 0]%Z; km_centroids := [[0; 0]; [0; 0]] |}) ].

(** A dataset with a single numeric column. *)
Definition one_feature : list CustomerRecord :=
  [ [("id", VString "a"); ("spend", VNumber 1); ("city", VString "Pune")];
    [("id", VString "b"); ("spend", VNumber 3); ("city", VString "Agra")] ].

(** Two finite values whose difference is not: the largest power of two
    and its opposite. *)
Definition far_apart : list CustomerRecord :=
  [ [("id", VString "a"); ("balance", VNumber 0x1p+1023); ("visits", VNumber 1)];
    [("id", VString "b"); ("balance", VNumber (-0x1p+1023)); ("visits", VNumber 2)] ].

(** A column that holds [Infinity] in every record. *)
Definition unbounded : list CustomerRecord :=
  [ [("id", VString "a"); ("balance", VNumber infinity); ("visits", VNumber 1)];
    [("id", VString "b"); ("balance", VNumber infinity); ("visits", VNumber 2)] ].

End Samples.

(** * Vocabulary of the specification *)

(** ** The engine's limit on a call *)

Section CallVocabulary.

Context {host : Host}.

(** The spreads of [normalizeData] go through: the first record has no
    eligible feature, so that no call is made, or the dataset holds no
    more records than the engine accepts arguments. *)
Definition within_call_limit (data : list CustomerRecord) (excludeColumns : list string)
  : bool :=
  match data with
  | [] => true
  | first :: _ =>
      match select_features first excludeColumns with
      | [] => true
      | _ :: _ => (Z.of_nat (List.length data) <=? max_arguments)%Z
      end
  end.

End CallVocabulary.

(** ** Scores and their choice *)

Section ScoreVocabulary.

Context {host : Host}.

(** A recorded score is the silhouette score of a run that returned. *)
Definition recorded (data : list CustomerRecord) (s : ScoreEntry) : Prop :=
  exists a, performClustering data (sc_k s) = Ok a /\ sc_score s = silhouetteScore a.

(** The first candidate left untried, if there is one, is one that threw. *)
Definition stopped_by_throw (data : list CustomerRecord) (untried : list Z) : Prop :=
  match untried with
  | [] => True
  | j :: _ => exists e, performClustering data j = Throw e
  end.

End ScoreVocabulary.

(** [best] is a first maximum of [pre ++ best :: post]: no score is
    strictly greater, and no earlier score is equal. *)
Definition first_maximum (pre : list ScoreEntry) (best : ScoreEntry) (post : list ScoreEntry)
  : Prop :=
  (forall e, In e (pre ++ best :: post) -> (sc_score best <? sc_score e)%float = false)
  /\ (forall e, In e pre -> (sc_score e =? sc_score best)%float = false).

(** ** Binary64 values *)

(** Every finite binary64 number is an integer multiple of [2^-1074].
    [SFval] reads a float as an extended integer in that unit; the
    comparisons of the processor are the comparisons of these values. *)

Inductive xval : Type :=
| XNaN
| XNInf
| XFin (z : Z)
| XPInf.

Definition SFval (x : spec_float) : xval :=
  match x with
  | S754_nan => XNaN
  | S754_infinity s => if s then XNInf else XPInf
  | S754_zero _ => XFin 0
  | S754_finite s m e => XFin (cond_Zopp s (Zpos m * 2 ^ (e + 1074)))
  end.

Definition fval (x : float) : xval := SFval (Prim2SF x).

Definition xcompare (a b : xval) : option comparison :=
  match a, b with
  | XNaN, _ | _, XNaN => None
  | XNInf, XNInf => Some Eq
  | XNInf, _ => Some Lt
  | _, XNInf => Some Gt
  | XPInf, XPInf => Some Eq
  | XPInf, _ => Some Gt
  | _, XPInf => Some Lt
  | XFin a, XFin b => Some (Z.compare a b)
  end.

(** The order of extended values. *)
Definition xlt (a b : xval) : Prop :=
  match a, b with
  | XNaN, _ | _, XNaN => False
  | XNInf, XNInf => False
  | XNInf, _ => True
  | _, XNInf => False
  | XPInf, _ => False
  | _, XPInf => True
  | XFin a, XFin b => (a < b)%Z
  end.

Definition xeq (a b : xval) : Prop :=
  match a, b with
  | XNInf, XNInf | XPInf, XPInf => True
  | XFin a, XFin b => a = b
  | _, _ => False
  end.

Definition xle (a b : xval) : Prop := xlt a b \/ xeq a b.

(** ** Rounding to nearest even, on integers *)

(** The exact result of an operation on finite floats, counted in units
    of [2^-1074], is an integer [n]; the float result is [rnd n]: [n] is
    cut to 53 significant bits, to nearest with ties to even, and becomes
    [Infinity] from [2^1024] on. *)

Definition rne (q r step : Z) : Z :=
  if (2 * r <? step)%Z then q
  else if (step <? 2 * r)%Z then (q + 1)%Z
  else if Z.even q then q else (q + 1)%Z.

Definition round_at (s n : Z) : Z := (2 ^ s * rne (n / 2 ^ s) (n mod 2 ^ s) (2 ^ s))%Z.

Definition scale_of (n : Z) : Z := Z.max (Z.log2 n + 1 - 53) 0.

Definition rnd (n : Z) : xval :=
  let w := round_at (scale_of n) n in
  if (w <? 2 ^ 2098)%Z then XFin w else XPInf.

(** The record after [j] one-bit shifts of a non-negative integer [N]:
    the quotient, the last bit shifted out, and whether a lower bit was
    set. *)
Definition shifted (N j : Z) : shr_record :=
  {| shr_m := (N / 2 ^ j)%Z;
     shr_r := (0 <? j)%Z && Z.testbit N (j - 1);
     shr_s := (0 <? j)%Z && negb (N mod 2 ^ (j - 1) =? 0)%Z |}.

(** * Binary64 arithmetic *)

(** ** Values and order *)

Section Values.

Local Open Scope Z_scope.

(** [digits2_pos m] is the number of binary digits of [m]. *)
Lemma digits2_pos_bounds (m : positive) :
  2 ^ (Zpos (digits2_pos m) - 1) <= Zpos m < 2 ^ Zpos (digits2_pos m).
Proof.
  induction m as [m IH|m IH|]; cbn [digits2_pos].
  - rewrite Pos2Z.inj_succ, Pos2Z.inj_xI.
    replace (Z.succ (Zpos (digits2_pos m)) - 1) with (Z.succ (Zpos (digits2_pos m) - 1)) by lia.
    rewrite !Z.pow_succ_r by lia. lia.
  - rewrite Pos2Z.inj_succ. change (Zpos m~0) with (2 * Zpos m).
    replace (Z.succ (Zpos (digits2_pos m)) - 1) with (Z.succ (Zpos (digits2_pos m) - 1)) by lia.
    rewrite !Z.pow_succ_r by lia. lia.
  - cbn. lia.
Qed.

(** A valid finite float is in canonical form: at most 53 digits, an
    exponent no lower than -1074, and exactly 53 digits above it. *)
Lemma bounded_canonical (m : positive) (e : Z) :
  bounded prec emax m e = true ->
  -1074 <= e <= 971
  /\ Zpos (digits2_pos m) <= 53
  /\ (e = -1074 \/ Zpos (digits2_pos m) = 53).
Proof.
  unfold bounded, canonical_mantissa, fexp, SpecFloat.emin, prec, emax.
  intros H; apply andb_prop in H as (Hc & He).
  apply Z.eqb_eq in Hc. apply Z.leb_le in He. lia.
Qed.

(** On canonical floats of the same sign the order of the pairs
    (exponent, mantissa) is the order of the values. *)
Lemma canonical_order (m1 m2 : positive) (e1 e2 : Z) :
  bounded prec emax m1 e1 = true -> bounded prec emax m2 e2 = true ->
  e1 < e2 -> Zpos m1 * 2 ^ (e1 + 1074) < Zpos m2 * 2 ^ (e2 + 1074).
Proof.
  intros H1 H2 He.
  apply bounded_canonical in H1 as (Hr1 & Hd1 & _), H2 as (Hr2 & _ & [->|Hd2]); [lia|].
  pose proof (digits2_pos_bounds m1) as (_ & Hm1).
  pose proof (digits2_pos_bounds m2) as (Hm2 & _).
  rewrite Hd2 in Hm2.
  assert (Hm1' : Zpos m1 < 2 ^ 53).
  { eapply Z.lt_le_trans; [exact Hm1|]. apply Z.pow_le_mono_r; lia. }
  assert (Hp : 2 * 2 ^ (e1 + 1074) <= 2 ^ (e2 + 1074)).
  { rewrite <- Z.pow_succ_r by lia. apply Z.pow_le_mono_r; lia. }
  assert (Hpos : 0 < 2 ^ (e1 + 1074)) by (apply Z.pow_pos_nonneg; lia).
  change (2 ^ (53 - 1)) with 4503599627370496 in Hm2.
  change (2 ^ 53) with 9007199254740992 in Hm1'.
  nia.
Qed.

Lemma canonical_compare (m1 m2 : positive) (e1 e2 : Z) :
  bounded prec emax m1 e1 = true -> bounded prec emax m2 e2 = true ->
  match e1 ?= e2 with
  | Lt => Lt
  | Gt => Gt
  | Eq => Pos.compare_cont Eq m1 m2
  end = (Zpos m1 * 2 ^ (e1 + 1074) ?= Zpos m2 * 2 ^ (e2 + 1074)).
Proof.
  intros H1 H2; symmetry.
  destruct (Z.compare_spec e1 e2) as [->|He|He].
  - pose proof (proj1 (bounded_canonical _ _ H2)) as Hr.
    assert (Hpos : 0 < 2 ^ (e2 + 1074)) by (apply Z.pow_pos_nonneg; lia).
    change (Pos.compare_cont Eq m1 m2) with (Zpos m1 ?= Zpos m2).
    destruct (Z.compare_spec (Zpos m1) (Zpos m2)) as [->|Hm|Hm].
    + apply Z.compare_refl.
    + apply Z.compare_lt_iff. nia.
    + apply Z.compare_gt_iff. nia.
  - apply Z.compare_lt_iff. now apply canonical_order.
  - apply Z.compare_gt_iff. now apply canonical_order.
Qed.

Lemma finite_value_positive (m : positive) (e : Z) :
  -1074 <= e -> 0 < Zpos m * 2 ^ (e + 1074).
Proof.
  intros He. apply Z.mul_pos_pos; [lia|]. apply Z.pow_pos_nonneg; lia.
Qed.

(** The comparison of two valid floats is the comparison of their values. *)
Lemma SFcompare_value (x y : spec_float) :
  valid_binary x = true -> valid_binary y = true ->
  SFcompare x y = xcompare (SFval x) (SFval y).
Proof.
  destruct x as [sx|sx| |sx mx ex], y as [sy|sy| |sy my ey]; cbn [valid_binary SFval];
    intros Hx Hy; try reflexivity;
    try (destruct sx; reflexivity); try (destruct sy; reflexivity);
    try (destruct sx, sy; reflexivity).
  - pose proof (finite_value_positive my ey (proj1 (proj1 (bounded_canonical _ _ Hy)))) as Hp.
    destruct sy; cbn [SFcompare xcompare cond_Zopp]; f_equal; symmetry;
      [apply Z.compare_gt_iff|apply Z.compare_lt_iff]; lia.
  - pose proof (finite_value_positive mx ex (proj1 (proj1 (bounded_canonical _ _ Hx)))) as Hp.
    destruct sx; cbn [SFcompare xcompare cond_Zopp]; f_equal; symmetry;
      [apply Z.compare_lt_iff|apply Z.compare_gt_iff]; lia.
  - pose proof (finite_value_positive mx ex (proj1 (proj1 (bounded_canonical _ _ Hx)))) as Hpx.
    pose proof (finite_value_positive my ey (proj1 (proj1 (bounded_canonical _ _ Hy)))) as Hpy.
    pose proof (canonical_compare mx my ex ey Hx Hy) as Hc.
    destruct sx, sy; cbn [SFcompare xcompare cond_Zopp]; f_equal.
    + rewrite Z.compare_opp, (Z.compare_antisym (Zpos mx * 2 ^ (ex + 1074))), <- Hc.
      now destruct (ex ?= ey).
    + symmetry; apply Z.compare_lt_iff; lia.
    + symmetry; apply Z.compare_gt_iff; lia.
    + exact Hc.
Qed.

End Values.

(** Decides a statement about the order of extended values. *)
Ltac xorder :=
  unfold xle in *;
  repeat match goal with
    | v : xval |- _ => destruct v
    end;
  cbn [xlt xeq] in *;
  try solve [ intuition (try discriminate; try congruence; try lia) ].

Lemma xcompare_Lt (a b : xval) : xcompare a b = Some Lt <-> xlt a b.
Proof.
  destruct a, b; cbn; try (split; [discriminate|tauto]); try tauto.
  split; [intros [= H]; now apply Z.compare_lt_iff|intros H; f_equal; now apply Z.compare_lt_iff].
Qed.

Lemma xcompare_Eq (a b : xval) : xcompare a b = Some Eq <-> xeq a b.
Proof.
  destruct a, b; cbn; try (split; [discriminate|tauto]); try tauto.
  split; [intros [= H]; now apply Z.compare_eq_iff|intros H; f_equal; now apply Z.compare_eq_iff].
Qed.

(** The comparisons of primitive floats, read on values. *)

Section Comparisons.

Local Open Scope float_scope.

Lemma compare_value (x y : float) :
  SFcompare (Prim2SF x) (Prim2SF y) = xcompare (fval x) (fval y).
Proof. apply SFcompare_value; apply Prim2SF_valid. Qed.

Lemma ltb_value (x y : float) : (x <? y) = true <-> xlt (fval x) (fval y).
Proof.
  rewrite ltb_spec, <- xcompare_Lt; unfold SFltb. rewrite compare_value.
  destruct (xcompare (fval x) (fval y)) as [[]|]; split; congruence.
Qed.

Lemma leb_value (x y : float) : (x <=? y) = true <-> xle (fval x) (fval y).
Proof.
  rewrite leb_spec; unfold SFleb, xle. rewrite <- xcompare_Lt, <- xcompare_Eq, compare_value.
  destruct (xcompare (fval x) (fval y)) as [[]|]; split; try tauto; try congruence;
    intros [H|H]; congruence.
Qed.

Lemma eqb_value (x y : float) : (x =? y) = true <-> xeq (fval x) (fval y).
Proof.
  rewrite eqb_spec, <- xcompare_Eq; unfold SFeqb. rewrite compare_value.
  destruct (xcompare (fval x) (fval y)) as [[]|]; split; congruence.
Qed.

Lemma is_nan_value (x : float) : is_nan x = true <-> fval x = XNaN.
Proof.
  unfold is_nan. rewrite negb_true_iff, <- not_true_iff_false, eqb_value.
  destruct (fval x); cbn; split; try congruence; try tauto.
Qed.

Lemma is_nan_false_value (x : float) : is_nan x = false <-> fval x <> XNaN.
Proof. rewrite <- is_nan_value. destruct (is_nan x); split; congruence. Qed.

End Comparisons.

(** Turns the float comparisons of a goal into integer comparisons. *)
Ltac float_values :=
  repeat match goal with
    | H : (_ <? _)%float = true |- _ => apply ltb_value in H
    | H : (_ <=? _)%float = true |- _ => apply leb_value in H
    | H : (_ =? _)%float = true |- _ => apply eqb_value in H
    | H : (_ <? _)%float = false |- _ => apply not_true_iff_false in H; rewrite ltb_value in H
    | H : (_ <=? _)%float = false |- _ => apply not_true_iff_false in H; rewrite leb_value in H
    | H : (_ =? _)%float = false |- _ => apply not_true_iff_false in H; rewrite eqb_value in H
    | H : is_nan _ = true |- _ => apply is_nan_value in H
    | H : is_nan _ = false |- _ => apply is_nan_false_value in H
    | |- (_ <? _)%float = true => apply ltb_value
    | |- (_ <=? _)%float = true => apply leb_value
    | |- (_ =? _)%float = true => apply eqb_value
    | |- (_ <? _)%float = false => apply not_true_iff_false; rewrite ltb_value
    | |- (_ <=? _)%float = false => apply not_true_iff_false; rewrite leb_value
    | |- (_ =? _)%float = false => apply not_true_iff_false; rewrite eqb_value
    | |- is_nan _ = true => apply is_nan_value
    | |- is_nan _ = false => apply is_nan_false_value
    end.

(** The order facts the choice of the best score needs. *)

Section FloatOrder.

Local Open Scope float_scope.

Lemma ltb_irrefl (x : float) : (x <? x) = false.
Proof.
  float_values. generalize (fval x); intros v H. xorder.
Qed.

Lemma ltb_trans (x y z : float) :
  (x <? y) = true -> (y <? z) = true -> (x <? z) = true.
Proof.
  intros H1 H2. float_values. revert H1 H2.
  generalize (fval x) (fval y) (fval z); intros a b c H1 H2. xorder.
Qed.

Lemma ltb_eqb_r (x y z : float) :
  (x <? z) = true -> (y =? z) = true -> (x <? y) = true.
Proof.
  intros H1 H2. float_values. revert H1 H2.
  generalize (fval x) (fval y) (fval z); intros a b c H1 H2. xorder.
Qed.

Lemma not_ltb_leb (x y : float) :
  (x <? y) = false -> is_nan x = false -> is_nan y = false -> (y <=? x) = true.
Proof.
  intros H1 H2 H3. float_values. revert H1 H2 H3.
  generalize (fval x) (fval y); intros a b H1 H2 H3. xorder.
Qed.

End FloatOrder.

(** ** Rounding is monotone *)

Section RoundInteger.

Local Open Scope Z_scope.

(** [rne q r step] rounds [q + r / step] to an integer. *)
Lemma rne_bounds (q r step : Z) : q <= rne q r step <= q + 1.
Proof.
  unfold rne.
  destruct (2 * r <? step), (step <? 2 * r), (Z.even q); lia.
Qed.

Lemma rne_exact (q step : Z) : 0 < step -> rne q 0 step = q.
Proof.
  intros H; unfold rne.
  destruct (Z.ltb_spec (2 * 0) step); [reflexivity|lia].
Qed.

(** At a fixed quotient the choice grows with the remainder. *)
Lemma rne_mono_r (q r1 r2 step : Z) :
  r1 <= r2 -> rne q r1 step <= rne q r2 step.
Proof.
  intros H; unfold rne.
  destruct (Z.ltb_spec (2 * r1) step), (Z.ltb_spec (2 * r2) step),
           (Z.ltb_spec step (2 * r1)), (Z.ltb_spec step (2 * r2)), (Z.even q); lia.
Qed.

Lemma round_at_bounds (s n : Z) :
  0 <= s -> 2 ^ s * (n / 2 ^ s) <= round_at s n <= 2 ^ s * (n / 2 ^ s + 1).
Proof.
  intros Hs; unfold round_at.
  assert (Hp : 0 < 2 ^ s) by (apply Z.pow_pos_nonneg; lia).
  pose proof (rne_bounds (n / 2 ^ s) (n mod 2 ^ s) (2 ^ s)). nia.
Qed.

Lemma round_at_exact (s n : Z) :
  0 <= s -> n mod 2 ^ s = 0 -> round_at s n = n.
Proof.
  intros Hs Hr; unfold round_at.
  assert (Hp : 0 < 2 ^ s) by (apply Z.pow_pos_nonneg; lia).
  rewrite Hr, rne_exact by assumption.
  pose proof (Z.div_mod n (2 ^ s)). lia.
Qed.

(** At a fixed scale rounding is monotone. *)
Lemma round_at_mono (s n1 n2 : Z) :
  0 <= s -> n1 <= n2 -> round_at s n1 <= round_at s n2.
Proof.
  intros Hs Hn; unfold round_at.
  assert (Hp : 0 < 2 ^ s) by (apply Z.pow_pos_nonneg; lia).
  apply Z.mul_le_mono_nonneg_l; [lia|].
  pose proof (Z.div_le_mono n1 n2 (2 ^ s) Hp Hn) as Hq.
  destruct (Z.eq_dec (n1 / 2 ^ s) (n2 / 2 ^ s)) as [Heq|Hne].
  - rewrite Heq. apply rne_mono_r.
    pose proof (Z.div_mod n1 (2 ^ s)). pose proof (Z.div_mod n2 (2 ^ s)). nia.
  - pose proof (rne_bounds (n1 / 2 ^ s) (n1 mod 2 ^ s) (2 ^ s)).
    pose proof (rne_bounds (n2 / 2 ^ s) (n2 mod 2 ^ s) (2 ^ s)). lia.
Qed.

Lemma scale_of_nonneg (n : Z) : 0 <= scale_of n.
Proof. unfold scale_of; lia. Qed.

(** A number rounds to something between the powers of two around it. *)
Lemma round_at_scale_upper (n : Z) :
  0 < n -> round_at (scale_of n) n <= 2 ^ (Z.log2 n + 1).
Proof.
  intros Hn.
  pose proof (scale_of_nonneg n) as Hs.
  pose proof (Z.log2_nonneg n) as Hl.
  destruct (Z.log2_spec n Hn) as (_ & Hup).
  rewrite <- Z.add_1_r in Hup.
  assert (Hsd : scale_of n <= Z.log2 n + 1) by (unfold scale_of; lia).
  assert (Hp : 0 < 2 ^ scale_of n) by (apply Z.pow_pos_nonneg; lia).
  assert (Hsplit : 2 ^ (Z.log2 n + 1) = 2 ^ scale_of n * 2 ^ (Z.log2 n + 1 - scale_of n)).
  { rewrite <- Z.pow_add_r by lia. f_equal; lia. }
  pose proof (round_at_bounds (scale_of n) n Hs) as (_ & Hb).
  eapply Z.le_trans; [exact Hb|]. rewrite Hsplit.
  apply Z.mul_le_mono_nonneg_l; [lia|].
  assert (Hq : n / 2 ^ scale_of n < 2 ^ (Z.log2 n + 1 - scale_of n)).
  { apply Z.div_lt_upper_bound; [assumption|]. now rewrite <- Hsplit. }
  lia.
Qed.

Lemma round_at_scale_lower (n : Z) :
  0 < n -> 2 ^ Z.log2 n <= round_at (scale_of n) n.
Proof.
  intros Hn.
  pose proof (scale_of_nonneg n) as Hs.
  pose proof (Z.log2_nonneg n) as Hl.
  destruct (Z.log2_spec n Hn) as (Hlow & _).
  assert (Hsd : scale_of n <= Z.log2 n) by (unfold scale_of; lia).
  assert (Hp : 0 < 2 ^ scale_of n) by (apply Z.pow_pos_nonneg; lia).
  assert (Hsplit : 2 ^ Z.log2 n = 2 ^ scale_of n * 2 ^ (Z.log2 n - scale_of n)).
  { rewrite <- Z.pow_add_r by lia. f_equal; lia. }
  pose proof (round_at_bounds (scale_of n) n Hs) as (Hb & _).
  eapply Z.le_trans; [|exact Hb]. rewrite Hsplit.
  apply Z.mul_le_mono_nonneg_l; [lia|].
  apply Z.div_le_lower_bound; [assumption|]. now rewrite <- Hsplit.
Qed.

(** Rounding each number at its own scale is monotone too: a number
    with fewer digits rounds to at most the next power of two. *)
Lemma round_at_scale_mono (n1 n2 : Z) :
  0 <= n1 <= n2 -> round_at (scale_of n1) n1 <= round_at (scale_of n2) n2.
Proof.
  intros (H1 & H12).
  destruct (Z.eq_dec n1 0) as [->|Hne].
  - change (scale_of 0) with 0. rewrite round_at_exact by (try lia; apply Z.mod_1_r).
    pose proof (round_at_bounds (scale_of n2) n2 (scale_of_nonneg n2)) as (Hb & _).
    assert (0 < 2 ^ scale_of n2) by (apply Z.pow_pos_nonneg; [lia|apply scale_of_nonneg]).
    assert (0 <= n2 / 2 ^ scale_of n2) by (apply Z.div_pos; lia).
    nia.
  - destruct (Z.eq_dec (scale_of n1) (scale_of n2)) as [Hs|Hs].
    + rewrite Hs. apply round_at_mono; [apply scale_of_nonneg|lia].
    + assert (Hlog : Z.log2 n1 + 1 <= Z.log2 n2).
      { pose proof (Z.log2_le_mono n1 n2 H12). unfold scale_of in Hs. lia. }
      eapply Z.le_trans; [apply round_at_scale_upper; lia|].
      eapply Z.le_trans; [|apply round_at_scale_lower; lia].
      apply Z.pow_le_mono_r; lia.
Qed.

Lemma rnd_zero : rnd 0 = XFin 0.
Proof. reflexivity. Qed.

Lemma rnd_mono (n1 n2 : Z) : 0 <= n1 <= n2 -> xle (rnd n1) (rnd n2).
Proof.
  intros H; unfold rnd; cbv zeta.
  pose proof (round_at_scale_mono n1 n2 H) as Hm.
  destruct (Z.ltb_spec (round_at (scale_of n1) n1) (2 ^ 2098)),
           (Z.ltb_spec (round_at (scale_of n2) n2) (2 ^ 2098));
    unfold xle; cbn [xlt xeq]; lia.
Qed.

Lemma rnd_nonneg (n : Z) : 0 <= n -> xle (XFin 0) (rnd n).
Proof. intros H. rewrite <- rnd_zero. apply rnd_mono; lia. Qed.

End RoundInteger.

(** ** The right shift of the rounding procedure *)

Section ShiftRight.

Local Open Scope Z_scope.

(** One shift halves the mantissa, keeps the bit shifted out, and
    remembers whether an earlier one was set. *)
Lemma shr_1_nonneg (m : Z) (r s : bool) :
  0 <= m ->
  shr_1 {| shr_m := m; shr_r := r; shr_s := s |}
  = {| shr_m := m / 2; shr_r := Z.odd m; shr_s := r || s |}.
Proof.
  intros Hm. rewrite <- Z.div2_div.
  destruct m as [|[p|p|]|p]; try lia; reflexivity.
Qed.

Lemma mod_pow2_succ (N j : Z) :
  0 <= j -> N mod 2 ^ (j + 1) = N mod 2 ^ j + 2 ^ j * Z.b2z (Z.testbit N j).
Proof.
  intros Hj.
  assert (Hp : 0 < 2 ^ j) by (apply Z.pow_pos_nonneg; lia).
  rewrite Z.pow_add_r, Z.pow_1_r by lia.
  rewrite Z.rem_mul_r by lia.
  now rewrite Z.testbit_spec' by lia.
Qed.

Lemma shr_1_shifted (N j : Z) :
  0 <= N -> 0 <= j -> shr_1 (shifted N j) = shifted N (j + 1).
Proof.
  intros HN Hj; unfold shifted.
  assert (Hp : 0 < 2 ^ j) by (apply Z.pow_pos_nonneg; lia).
  rewrite shr_1_nonneg by (apply Z.div_pos; lia).
  f_equal.
  - rewrite Z.pow_add_r, Z.pow_1_r by lia. now rewrite Z.div_div by lia.
  - destruct (Z.ltb_spec 0 (j + 1)); [|lia]. cbn [andb].
    replace (j + 1 - 1) with j by lia.
    now rewrite Z.testbit_odd, Z.shiftr_div_pow2 by lia.
  - destruct (Z.ltb_spec 0 (j + 1)); [|lia]. cbn [andb].
    replace (j + 1 - 1) with j by lia.
    destruct (Z.ltb_spec 0 j) as [Hj'|Hj']; cbn [andb orb].
    + replace j with (j - 1 + 1) at 3 by lia.
      rewrite mod_pow2_succ by lia.
      assert (Hp' : 0 < 2 ^ (j - 1)) by (apply Z.pow_pos_nonneg; lia).
      pose proof (Z.mod_pos_bound N (2 ^ (j - 1)) Hp') as Hlow.
      destruct (Z.testbit N (j - 1)); cbn [Z.b2z orb].
      * symmetry. apply negb_true_iff, Z.eqb_neq. lia.
      * now rewrite Z.mul_0_r, Z.add_0_r.
    + assert (j = 0) as -> by lia. now rewrite Z.pow_0_r, Z.mod_1_r.
Qed.

Lemma iter_pos_shifted (N : Z) (p : positive) (j : Z) :
  0 <= N -> 0 <= j -> iter_pos shr_1 p (shifted N j) = shifted N (j + Zpos p).
Proof.
  intros HN; revert j; induction p as [p IH|p IH|]; intros j Hj; cbn [iter_pos].
  - rewrite shr_1_shifted, !IH by lia. f_equal; lia.
  - rewrite !IH by lia. f_equal; lia.
  - now apply shr_1_shifted.
Qed.

Lemma shifted_zero (N : Z) : shifted N 0 = shr_record_of_loc N loc_Exact.
Proof. unfold shifted; cbn. now rewrite Z.div_1_r. Qed.

(** Shifting an exact integer right by [k] bits. *)
Lemma shr_exact (N e k : Z) :
  0 <= N -> 0 <= k ->
  shr (shr_record_of_loc N loc_Exact) e k = (shifted N k, e + k).
Proof.
  intros HN Hk; unfold shr. rewrite <- shifted_zero.
  destruct k as [|p|p]; [|now rewrite iter_pos_shifted by lia|lia].
  now rewrite Z.add_0_r.
Qed.

(** The mantissa after a shift does not depend on the location bits. *)
Lemma iter_pos_shr_m (p : positive) (st : shr_record) :
  0 <= shr_m st -> shr_m (iter_pos shr_1 p st) = shr_m st / 2 ^ Zpos p.
Proof.
  assert (H1 : forall st, 0 <= shr_m st -> shr_m (shr_1 st) = shr_m st / 2).
  { intros [m r s] Hm; cbn [shr_m] in *. now rewrite shr_1_nonneg. }
  revert st; induction p as [p IH|p IH|]; intros st Hm; cbn [iter_pos].
  - assert (Hp : 0 < 2 ^ Zpos p) by (apply Z.pow_pos_nonneg; lia).
    rewrite IH; rewrite IH; rewrite ?H1; try assumption;
      repeat (apply Z.div_pos; [|lia]); try assumption.
    replace (Zpos p~1) with (1 + (Zpos p + Zpos p)) by lia.
    rewrite !Z.pow_add_r, Z.pow_1_r by lia.
    rewrite !Z.div_div by lia. reflexivity.
  - assert (Hp : 0 < 2 ^ Zpos p) by (apply Z.pow_pos_nonneg; lia).
    rewrite IH; rewrite IH; try assumption; try (apply Z.div_pos; [assumption|lia]).
    replace (Zpos p~0) with (Zpos p + Zpos p) by lia.
    rewrite !Z.pow_add_r by lia.
    rewrite !Z.div_div by lia. reflexivity.
  - rewrite H1 by assumption. reflexivity.
Qed.

(** Rounding after the shift is [rne] on quotient and remainder. *)
Lemma round_shifted (N k : Z) :
  0 <= N -> 0 <= k ->
  round_nearest_even (shr_m (shifted N k)) (loc_of_shr_record (shifted N k))
  = rne (N / 2 ^ k) (N mod 2 ^ k) (2 ^ k).
Proof.
  intros HN Hk; unfold shifted, rne; cbn [shr_m].
  destruct (Z.ltb_spec 0 k) as [Hk'|Hk']; cbn [andb loc_of_shr_record].
  - assert (Hp : 0 < 2 ^ (k - 1)) by (apply Z.pow_pos_nonneg; lia).
    pose proof (Z.mod_pos_bound N (2 ^ (k - 1)) Hp) as Hlow.
    assert (Hk2 : 2 ^ k = 2 * 2 ^ (k - 1)).
    { replace k with (k - 1 + 1) at 1 by lia. rewrite Z.pow_add_r, Z.pow_1_r by lia. lia. }
    assert (Hr : N mod 2 ^ k = N mod 2 ^ (k - 1) + 2 ^ (k - 1) * Z.b2z (Z.testbit N (k - 1))).
    { replace k with (k - 1 + 1) at 1 by lia. apply mod_pow2_succ; lia. }
    rewrite Hr, Hk2.
    destruct (Z.testbit N (k - 1)); cbn [Z.b2z];
      destruct (Z.eqb_spec (N mod 2 ^ (k - 1)) 0) as [H0|H0]; cbn [negb round_nearest_even];
      repeat match goal with
        | |- context [(?a <? ?b)] => destruct (Z.ltb_spec a b); try lia
        end; reflexivity.
  - assert (k = 0) as -> by lia.
    rewrite Z.pow_0_r, Z.mod_1_r. reflexivity.
Qed.

End ShiftRight.

(** ** The rounding procedure computes [rnd] *)

Section RoundProcedure.

Local Open Scope Z_scope.

Lemma fexp64 (x : Z) : fexp prec emax x = Z.max (x - 53) (-1074).
Proof. reflexivity. Qed.

Lemma digits_log2 (m : positive) : Zpos (digits2_pos m) = Z.log2 (Zpos m) + 1.
Proof.
  pose proof (digits2_pos_bounds m) as H.
  rewrite (Z.log2_unique (Zpos m) (Zpos (digits2_pos m) - 1)); [lia|lia|].
  now replace (Z.succ (Zpos (digits2_pos m) - 1)) with (Zpos (digits2_pos m)) by lia.
Qed.

Lemma digits_small (m : positive) (d : Z) :
  Zpos m < 2 ^ d -> Zpos (digits2_pos m) <= d.
Proof.
  intros H. pose proof (digits2_pos_bounds m) as (Hlow & _).
  destruct (Z.le_gt_cases (Zpos (digits2_pos m)) d) as [|Hgt]; [assumption|exfalso].
  destruct (Z.le_gt_cases 0 d) as [Hd|Hd].
  - assert (2 ^ d <= 2 ^ (Zpos (digits2_pos m) - 1)) by (apply Z.pow_le_mono_r; lia). lia.
  - rewrite Z.pow_neg_r in H by lia. lia.
Qed.

Lemma digits_large (m : positive) (d : Z) :
  2 ^ (d - 1) <= Zpos m -> d <= Zpos (digits2_pos m).
Proof.
  intros H. pose proof (digits2_pos_bounds m) as (_ & Hup).
  destruct (Z.le_gt_cases d (Zpos (digits2_pos m))) as [|Hgt]; [assumption|exfalso].
  assert (2 ^ Zpos (digits2_pos m) <= 2 ^ (d - 1)) by (apply Z.pow_le_mono_r; lia). lia.
Qed.

Lemma shr_fexp_exact (N e : Z) :
  0 <= N ->
  0 <= fexp prec emax (Zdigits2 N + e) - e ->
  shr_fexp prec emax N e loc_Exact
  = (shifted N (fexp prec emax (Zdigits2 N + e) - e), fexp prec emax (Zdigits2 N + e)).
Proof.
  intros HN Hk; unfold shr_fexp.
  rewrite shr_exact by assumption. f_equal; lia.
Qed.

(** The last step of the procedure: a mantissa that is canonical at its
    exponent, or has just carried into a 54th bit, is packed, and the
    overflow test is a test on the value. *)
Lemma pack_value (m : positive) (e : Z) :
  -1074 <= e ->
  (Zpos (digits2_pos m) <= 53 /\ (e = -1074 \/ Zpos (digits2_pos m) = 53))
  \/ Zpos m = 2 ^ 53 ->
  SFval (let '(mrs, e') := shr_fexp prec emax (Zpos m) e loc_Exact in
         match shr_m mrs with
         | Z0 => S754_zero false
         | Zpos m' => if e' <=? emax - prec then S754_finite false m' e' else S754_infinity false
         | Zneg _ => S754_nan
         end)
  = if Zpos m * 2 ^ (e + 1074) <? 2 ^ 2098 then XFin (Zpos m * 2 ^ (e + 1074)) else XPInf.
Proof.
  intros He [(Hd & Hcanon)|Hcarry].
  - assert (Hf : fexp prec emax (Zdigits2 (Zpos m) + e) = e) by (rewrite fexp64; cbn [Zdigits2]; lia).
    rewrite shr_fexp_exact by lia. rewrite Hf, Z.sub_diag.
    unfold shifted; cbn [shr_m]. rewrite Z.pow_0_r, Z.div_1_r.
    change (emax - prec) with 971.
    pose proof (digits2_pos_bounds m) as (Hlow & Hup).
    assert (Hm53 : Zpos m < 2 ^ 53).
    { eapply Z.lt_le_trans; [exact Hup|]. apply Z.pow_le_mono_r; lia. }
    destruct (Z.leb_spec e 971) as [He'|He'].
    + assert (Hlt : Zpos m * 2 ^ (e + 1074) < 2 ^ 2098).
      { replace 2098 with (53 + 2045) by lia. rewrite (Z.pow_add_r 2 53 2045) by lia.
        assert (0 < 2 ^ (e + 1074) <= 2 ^ 2045)
          by (split; [apply Z.pow_pos_nonneg; lia|apply Z.pow_le_mono_r; lia]).
        nia. }
      apply Z.ltb_lt in Hlt as ->. reflexivity.
    + destruct Hcanon as [->|Hd53]; [lia|].
      rewrite Hd53 in Hlow.
      assert (Hge : 2 ^ 2098 <= Zpos m * 2 ^ (e + 1074)).
      { replace 2098 with (52 + 2046) by lia. rewrite (Z.pow_add_r 2 52 2046) by lia.
        assert (0 < 2 ^ 2046 <= 2 ^ (e + 1074))
          by (split; [apply Z.pow_pos_nonneg; lia|apply Z.pow_le_mono_r; lia]).
        change (53 - 1) with 52 in Hlow.
        assert (0 < 2 ^ 52) by (apply Z.pow_pos_nonneg; lia).
        nia. }
      apply Z.ltb_ge in Hge as ->. reflexivity.
  - assert (Hd : Zpos (digits2_pos m) = 54).
    { apply Z.le_antisymm.
      - apply digits_small. rewrite Hcarry. apply Z.pow_lt_mono_r; lia.
      - apply digits_large. rewrite Hcarry. apply Z.pow_le_mono_r; lia. }
    assert (Hf : fexp prec emax (Zdigits2 (Zpos m) + e) = e + 1)
      by (rewrite fexp64; cbn [Zdigits2]; lia).
    rewrite shr_fexp_exact by lia. rewrite Hf.
    replace (e + 1 - e) with 1 by lia.
    unfold shifted; cbn [shr_m]. rewrite Hcarry.
    change (2 ^ 53 / 2 ^ 1) with (Zpos (2 ^ 52)).
    change (emax - prec) with 971.
    assert (Hval : 2 ^ 53 * 2 ^ (e + 1074) = Zpos (2 ^ 52) * 2 ^ (e + 1 + 1074)).
    { replace (e + 1 + 1074) with (1 + (e + 1074)) by lia.
      rewrite (Z.pow_add_r 2 1 (e + 1074)) by lia.
      change (Zpos (2 ^ 52)) with (2 ^ 52). change (2 ^ 53) with (2 ^ 52 * 2 ^ 1). ring. }
    destruct (Z.leb_spec (e + 1) 971) as [He'|He'].
    + assert (Hlt : 2 ^ 53 * 2 ^ (e + 1074) < 2 ^ 2098).
      { rewrite <- Z.pow_add_r by lia. apply Z.pow_lt_mono_r; lia. }
      apply Z.ltb_lt in Hlt as ->. cbn [SFval cond_Zopp]. now rewrite Hval.
    + assert (Hge : 2 ^ 2098 <= 2 ^ 53 * 2 ^ (e + 1074)).
      { rewrite <- Z.pow_add_r by lia. apply Z.pow_le_mono_r; lia. }
      apply Z.ltb_ge in Hge as ->. reflexivity.
Qed.

End RoundProcedure.

(** The whole procedure, on an exact mantissa. *)

Section RoundValue.

Local Open Scope Z_scope.

Lemma rne_scale (q r step c : Z) : 0 < c -> rne q (r * c) (step * c) = rne q r step.
Proof.
  intros Hc; unfold rne.
  destruct (Z.ltb_spec (2 * (r * c)) (step * c)), (Z.ltb_spec (2 * r) step),
           (Z.ltb_spec (step * c) (2 * (r * c))), (Z.ltb_spec step (2 * r));
    try reflexivity; exfalso; nia.
Qed.

(** Rounding the integer [m * 2^E] at scale [k + E] is rounding [m] at
    scale [k]. *)
Lemma round_at_shift (m k E : Z) :
  0 <= k -> 0 <= E ->
  round_at (k + E) (m * 2 ^ E) = rne (m / 2 ^ k) (m mod 2 ^ k) (2 ^ k) * 2 ^ (k + E).
Proof.
  intros Hk HE; unfold round_at.
  assert (Hpk : 0 < 2 ^ k) by (apply Z.pow_pos_nonneg; lia).
  assert (HpE : 0 < 2 ^ E) by (apply Z.pow_pos_nonneg; lia).
  rewrite (Z.pow_add_r 2 k E) by lia.
  rewrite Z.div_mul_cancel_r, Z.mul_mod_distr_r by lia.
  rewrite rne_scale by assumption. ring.
Qed.

Lemma scale_of_shift (m : positive) (E : Z) :
  0 <= E ->
  scale_of (Zpos m * 2 ^ E) = Z.max (Zpos (digits2_pos m) + E - 53) 0.
Proof.
  intros HE; unfold scale_of.
  rewrite Z.log2_mul_pow2, digits_log2 by lia. lia.
Qed.

(** An exact mantissa at or below its canonical exponent. *)
Lemma round_aux_value (m : positive) (e : Z) :
  -1074 <= e ->
  e <= fexp prec emax (Zpos (digits2_pos m) + e) ->
  SFval (binary_round_aux prec emax false (Zpos m) e loc_Exact)
  = rnd (Zpos m * 2 ^ (e + 1074)).
Proof.
  intros He Hcanon.
  set (d := Zpos (digits2_pos m)) in *.
  set (e' := fexp prec emax (d + e)) in *.
  set (k := e' - e).
  assert (He' : e' = Z.max (d + e - 53) (-1074)) by (unfold e'; now rewrite fexp64).
  assert (Hk : 0 <= k) by (unfold k; lia).
  pose proof (digits2_pos_bounds m) as (Hlow & Hup). fold d in Hlow, Hup.
  assert (Hpk : 0 < 2 ^ k) by (apply Z.pow_pos_nonneg; lia).
  (* the rounded mantissa *)
  set (m2 := rne (Zpos m / 2 ^ k) (Zpos m mod 2 ^ k) (2 ^ k)).
  assert (Hm2 : (k = 0 /\ m2 = Zpos m /\ d <= 53 /\ (e = -1074 \/ d = 53))
                \/ (0 < k /\ 2 ^ 52 <= m2 <= 2 ^ 53 /\ -1074 < e')).
  { destruct (Z.eq_dec k 0) as [Hk0|Hk0]; [left|right].
    - split; [assumption|]. unfold m2. rewrite Hk0, Z.pow_0_r, Z.div_1_r, Z.mod_1_r.
      split; [reflexivity|]. unfold k in Hk0. lia.
    - assert (Hkd : k = d - 53) by (unfold k; lia).
      split; [lia|]. split; [|unfold k in *; lia].
      pose proof (rne_bounds (Zpos m / 2 ^ k) (Zpos m mod 2 ^ k) (2 ^ k)) as Hb. fold m2 in Hb.
      assert (Hsplit : 2 ^ d = 2 ^ 53 * 2 ^ k)
        by (rewrite <- Z.pow_add_r by lia; f_equal; lia).
      assert (Hsplit' : 2 ^ (d - 1) = 2 ^ 52 * 2 ^ k)
        by (rewrite <- Z.pow_add_r by lia; f_equal; lia).
      assert (Hq1 : 2 ^ 52 <= Zpos m / 2 ^ k)
        by (apply Z.div_le_lower_bound; [assumption|rewrite Z.mul_comm, <- Hsplit'; lia]).
      assert (Hq2 : Zpos m / 2 ^ k < 2 ^ 53)
        by (apply Z.div_lt_upper_bound; [assumption|rewrite Z.mul_comm, <- Hsplit; lia]).
      lia. }
  assert (Hm2pos : 0 < m2) by (destruct Hm2 as [(_ & -> & _)|(_ & H & _)]; lia).
  (* the procedure *)
  unfold binary_round_aux.
  rewrite shr_fexp_exact by (cbn [Zdigits2]; fold d e'; lia).
  cbn [Zdigits2]. fold d e' k.
  rewrite round_shifted by lia. fold m2.
  destruct m2 as [|m2'|] eqn:Em2; try lia.
  rewrite pack_value.
  - (* the value *)
    unfold rnd; cbv zeta.
    rewrite scale_of_shift by lia. fold d.
    replace (Z.max (d + (e + 1074) - 53) 0) with (k + (e + 1074)) by (unfold k; lia).
    rewrite round_at_shift by lia. fold m2. rewrite Em2.
    replace (k + (e + 1074)) with (e' + 1074) by (unfold k; lia).
    reflexivity.
  - lia.
  - destruct Hm2 as [(Hk0 & Hm & Hd & Hc)|(Hk0 & Hb & Hgt)].
    + left. injection Hm as ->. fold d. unfold k in Hk0. lia.
    + destruct (Z.eq_dec (Zpos m2') (2 ^ 53)) as [|Hne]; [now right|left].
      assert (Zpos (digits2_pos m2') = 53).
      { apply Z.le_antisymm; [apply digits_small|apply digits_large]; lia. }
      lia.
Qed.

End RoundValue.

(** ** Subtraction of finite floats *)

Section Subtraction.

Local Open Scope Z_scope.

Lemma shl_align_value (m : positive) (e e' : Z) :
  e' <= e ->
  Zpos (fst (shl_align m e e')) = Zpos m * 2 ^ (e - e')
  /\ snd (shl_align m e e') = e'.
Proof.
  intros He; unfold shl_align.
  destruct (e' - e) as [|p|p] eqn:Hd; cbn [fst snd]; try lia.
  - assert (e' = e) as -> by lia. rewrite Z.sub_diag, Z.pow_0_r. lia.
  - change (Pos.iter xO m p) with (shift_pos p m).
    rewrite shift_pos_correct, Z.pow_pos_fold.
    replace (e - e') with (Zpos p) by lia. lia.
Qed.

Lemma shl_align_high (m : positive) (e e' : Z) :
  e <= e' -> shl_align m e e' = (m, e).
Proof.
  intros He; unfold shl_align.
  destruct (e' - e) as [|p|p] eqn:Hd; try reflexivity; lia.
Qed.

Lemma binary_round_value (m : positive) (e : Z) :
  -1074 <= e ->
  SFval (binary_round prec emax false m e) = rnd (Zpos m * 2 ^ (e + 1074)).
Proof.
  intros He; unfold binary_round.
  set (e' := fexp prec emax (Zpos (digits2_pos m) + e)).
  assert (He' : e' = Z.max (Zpos (digits2_pos m) + e - 53) (-1074))
    by (unfold e'; now rewrite fexp64).
  destruct (Z.le_gt_cases e e') as [Hle|Hgt].
  - rewrite shl_align_high by assumption. now apply round_aux_value.
  - destruct (shl_align_value m e e') as (Hm & Hs); [lia|].
    destruct (shl_align m e e') as (mz, ez); cbn [fst snd] in Hm, Hs; subst ez.
    assert (Hdz : Zpos (digits2_pos mz) = Zpos (digits2_pos m) + (e - e')).
    { rewrite !digits_log2, Hm, Z.log2_mul_pow2 by lia. lia. }
    rewrite round_aux_value.
    + rewrite Hm, <- Z.mul_assoc, <- Z.pow_add_r by lia.
      now replace (e - e' + (e' + 1074)) with (e + 1074) by lia.
    + lia.
    + rewrite Hdz, fexp64. lia.
Qed.

Lemma binary_normalize_value (M e : Z) :
  0 <= M -> -1074 <= e ->
  SFval (binary_normalize prec emax M e false) = rnd (M * 2 ^ (e + 1074)).
Proof.
  intros HM He; destruct M as [|m|m]; [reflexivity| |lia].
  now apply binary_round_value.
Qed.

(** A representable value rounds to itself. *)
Lemma rnd_representable (m : positive) (e : Z) :
  bounded prec emax m e = true ->
  rnd (Zpos m * 2 ^ (e + 1074)) = XFin (Zpos m * 2 ^ (e + 1074)).
Proof.
  intros Hb. apply bounded_canonical in Hb as (Hr & Hd & Hc).
  unfold rnd; cbv zeta.
  rewrite scale_of_shift by lia.
  replace (Z.max (Zpos (digits2_pos m) + (e + 1074) - 53) 0) with (e + 1074) by lia.
  rewrite round_at_exact by (try lia; apply Z.mod_mul; apply Z.pow_nonzero; lia).
  pose proof (digits2_pos_bounds m) as (_ & Hup).
  assert (Hm53 : Zpos m < 2 ^ 53).
  { eapply Z.lt_le_trans; [exact Hup|]. apply Z.pow_le_mono_r; lia. }
  assert (Hlt : Zpos m * 2 ^ (e + 1074) < 2 ^ 2098).
  { replace 2098 with (53 + 2045) by lia. rewrite (Z.pow_add_r 2 53 2045) by lia.
    assert (0 < 2 ^ (e + 1074) <= 2 ^ 2045)
      by (split; [apply Z.pow_pos_nonneg; lia|apply Z.pow_le_mono_r; lia]).
    nia. }
  now apply Z.ltb_lt in Hlt as ->.
Qed.

Lemma XFin_inj (a b : Z) : XFin a = XFin b -> a = b.
Proof. congruence. Qed.

(** The difference of two finite floats, when it is not negative. *)
Lemma SFsub_value (x y : spec_float) (a b : Z) :
  valid_binary x = true -> valid_binary y = true ->
  SFval x = XFin a -> SFval y = XFin b -> b <= a ->
  SFval (SFsub prec emax x y) = rnd (a - b).
Proof.
  intros Hx Hy Ha Hb Hab.
  destruct x as [sx|sx| |sx mx ex], y as [sy|sy| |sy my ey]; cbn [SFval] in Ha, Hb;
    try discriminate; try (destruct sx; discriminate); try (destruct sy; discriminate);
    apply XFin_inj in Ha, Hb; subst a b; cbn [valid_binary] in Hx, Hy.
  - destruct sx, sy; reflexivity.
  - pose proof (finite_value_positive my ey (proj1 (proj1 (bounded_canonical _ _ Hy)))) as Hp.
    destruct sy; cbn [cond_Zopp] in Hab |- *; [|lia].
    replace (0 - - (Zpos my * 2 ^ (ey + 1074))) with (Zpos my * 2 ^ (ey + 1074)) by lia.
    rewrite rnd_representable by assumption. destruct sx; reflexivity.
  - pose proof (finite_value_positive mx ex (proj1 (proj1 (bounded_canonical _ _ Hx)))) as Hp.
    destruct sx; cbn [cond_Zopp] in Hab |- *; [lia|].
    rewrite Z.sub_0_r, rnd_representable by assumption. destruct sy; reflexivity.
  - pose proof (proj1 (proj1 (bounded_canonical _ _ Hx))) as Hex.
    pose proof (proj1 (proj1 (bounded_canonical _ _ Hy))) as Hey.
    cbn [SFsub].
    set (ez := Z.min ex ey).
    destruct (shl_align_value mx ex ez) as (Hmx & _); [unfold ez; lia|].
    destruct (shl_align_value my ey ez) as (Hmy & _); [unfold ez; lia|].
    rewrite Hmx, Hmy.
    assert (Hval : forall s m e, ez <= e ->
               cond_Zopp s (Zpos m * 2 ^ (e - ez)) * 2 ^ (ez + 1074)
               = cond_Zopp s (Zpos m * 2 ^ (e + 1074))).
    { intros s m e He.
      replace (e + 1074) with (e - ez + (ez + 1074)) by lia.
      rewrite (Z.pow_add_r 2 (e - ez)) by (unfold ez in *; lia).
      destruct s; cbn [cond_Zopp]; ring. }
    assert (Heq : (cond_Zopp sx (Zpos mx * 2 ^ (ex - ez)) - cond_Zopp sy (Zpos my * 2 ^ (ey - ez)))
                  * 2 ^ (ez + 1074)
                  = cond_Zopp sx (Zpos mx * 2 ^ (ex + 1074))
                    - cond_Zopp sy (Zpos my * 2 ^ (ey + 1074))).
    { rewrite Z.mul_sub_distr_r, !Hval by (unfold ez; lia). reflexivity. }
    rewrite <- Heq. apply binary_normalize_value; [|unfold ez; lia].
    assert (Hpos : 0 < 2 ^ (ez + 1074)) by (apply Z.pow_pos_nonneg; unfold ez; lia).
    nia.
Qed.

End Subtraction.

(** ** A quotient of two finite floats that does not exceed one *)

Section Division.

Local Open Scope Z_scope.

Lemma loc_of_record_of_loc (m : Z) (l : location) :
  loc_of_shr_record (shr_record_of_loc m l) = l /\ shr_m (shr_record_of_loc m l) = m.
Proof. destruct l as [|[]]; split; reflexivity. Qed.

Lemma round_nearest_even_bounds (m : Z) (l : location) :
  m <= round_nearest_even m l <= m + 1 /\ (l = loc_Exact -> round_nearest_even m l = m).
Proof.
  destruct l as [|[]]; cbn [round_nearest_even]; try destruct (Z.even m);
    (split; [lia|]); try discriminate; reflexivity.
Qed.

(** A right shift of any record: the exponent, the mantissa, and the
    location when nothing is lost. *)
Lemma shr_general (q : Z) (l : location) (e k : Z) :
  0 <= q ->
  let K := Z.max k 0 in
  snd (shr (shr_record_of_loc q l) e k) = e + K
  /\ shr_m (fst (shr (shr_record_of_loc q l) e k)) = q / 2 ^ K
  /\ (l = loc_Exact -> q mod 2 ^ K = 0 ->
      loc_of_shr_record (fst (shr (shr_record_of_loc q l) e k)) = loc_Exact).
Proof.
  intros Hq K.
  destruct (loc_of_record_of_loc q l) as (Hl & Hm).
  destruct k as [|p|p]; unfold shr; cbn [fst snd]; subst K.
  - cbn [Z.max]. rewrite Z.add_0_r, Z.pow_0_r, Z.div_1_r. repeat split; auto. congruence.
  - replace (Z.max (Zpos p) 0) with (Zpos p) by lia.
    split; [reflexivity|]; split.
    + rewrite iter_pos_shr_m; rewrite Hm; auto.
    + intros -> Hdiv. rewrite <- shifted_zero, iter_pos_shifted by lia.
      rewrite Z.add_0_l. unfold shifted; cbn [loc_of_shr_record].
      destruct (Z.ltb_spec 0 (Zpos p)); [|lia]. cbn [andb].
      assert (Hp : 0 < 2 ^ Zpos p) by (apply Z.pow_pos_nonneg; lia).
      assert (Hq2 : q = q / 2 ^ Zpos p * 2 ^ Zpos p).
      { pose proof (Z.div_mod q (2 ^ Zpos p)). lia. }
      assert (Hbit : Z.testbit q (Zpos p - 1) = false).
      { rewrite Hq2. apply Z.mul_pow2_bits_low. lia. }
      assert (Hlow : q mod 2 ^ (Zpos p - 1) = 0).
      { rewrite Hq2. replace (Zpos p) with (1 + (Zpos p - 1)) at 2 by lia.
        rewrite Z.pow_add_r, Z.mul_assoc by lia. apply Z.mod_mul.
        apply Z.pow_nonzero; lia. }
      rewrite Hbit, Hlow. reflexivity.
  - replace (Z.max (Zneg p) 0) with 0 by lia.
    rewrite Z.add_0_r, Z.pow_0_r, Z.div_1_r. repeat split; auto. congruence.
Qed.

Lemma Zdigits2_small (q d : Z) : 0 <= q < 2 ^ d -> 0 <= d -> Zdigits2 q <= d.
Proof.
  intros (Hq & Hlt) Hd. destruct q as [|p|p]; cbn [Zdigits2]; try lia.
  now apply digits_small.
Qed.

(** A non-negative mantissa worth at most one is packed into a float
    worth at most one. *)
Lemma pack_below_one (m e : Z) :
  e <= 0 -> 0 <= m <= 2 ^ (- e) ->
  exists w,
    SFval (let '(mrs, e') := shr_fexp prec emax m e loc_Exact in
           match shr_m mrs with
           | Z0 => S754_zero false
           | Zpos m' => if e' <=? emax - prec then S754_finite false m' e'
                        else S754_infinity false
           | Zneg _ => S754_nan
           end) = XFin w
    /\ 0 <= w <= 2 ^ 1074.
Proof.
  intros He (Hm0 & Hm).
  unfold shr_fexp.
  set (k := fexp prec emax (Zdigits2 m + e) - e).
  destruct (shr_general m loc_Exact e k Hm0) as (Hsnd & Hfst & _).
  destruct (shr (shr_record_of_loc m loc_Exact) e k) as (mrs, e'); cbn [fst snd] in Hsnd, Hfst.
  set (K := Z.max k 0) in *.
  assert (HK : 0 <= K) by (unfold K; lia).
  assert (HpK : 0 < 2 ^ K) by (apply Z.pow_pos_nonneg; lia).
  rewrite Hfst.
  assert (Hq0 : 0 <= m / 2 ^ K) by (apply Z.div_pos; lia).
  destruct (m / 2 ^ K) as [|m3|m3] eqn:Em3; try lia.
  - exists 0; split; [reflexivity|]. split; [lia|]. apply Z.pow_nonneg; lia.
  - assert (He' : e' <= 0).
    { destruct (Z.le_gt_cases e' 0) as [|Hgt]; [assumption|exfalso].
      assert (2 ^ (- e) < 2 ^ K) by (apply Z.pow_lt_mono_r; lia).
      rewrite Z.div_small in Em3 by lia. discriminate. }
    assert (Hm3 : Zpos m3 <= 2 ^ (- e')).
    { rewrite <- Em3. apply Z.div_le_upper_bound; [assumption|].
      rewrite <- Z.pow_add_r by lia. now replace (K + - e') with (- e) by lia. }
    change (emax - prec) with 971.
    destruct (Z.leb_spec e' 971); [|lia].
    eexists; split; [reflexivity|]. cbn [cond_Zopp].
    assert (0 <= 2 ^ (e' + 1074)) by (apply Z.pow_nonneg; lia).
    split; [lia|].
    destruct (Z.le_gt_cases 0 (e' + 1074)) as [Hge|Hlt].
    + replace 1074 with (- e' + (e' + 1074)) at 2 by lia.
      rewrite (Z.pow_add_r 2 (- e')) by lia. nia.
    + rewrite (Z.pow_neg_r 2 (e' + 1074)) by lia. rewrite Z.mul_0_r. apply Z.pow_nonneg; lia.
Qed.

(** The rounding procedure on a quotient [q] at exponent [e0], worth at
    most one. *)
Lemma round_aux_below_one (q e0 : Z) (l : location) :
  e0 <= 0 -> 0 <= q ->
  q < 2 ^ (- e0) \/ (q = 2 ^ (- e0) /\ l = loc_Exact) ->
  exists w,
    SFval (binary_round_aux prec emax false q e0 l) = XFin w /\ 0 <= w <= 2 ^ 1074.
Proof.
  intros He0 Hq0 Hq.
  unfold binary_round_aux, shr_fexp at 1.
  set (k := fexp prec emax (Zdigits2 q + e0) - e0).
  destruct (shr_general q l e0 k Hq0) as (Hsnd & Hfst & Hexact).
  destruct (shr (shr_record_of_loc q l) e0 k) as (mrs, e'); cbn [fst snd] in Hsnd, Hfst, Hexact.
  set (K := Z.max k 0) in *.
  assert (HK0 : 0 <= K) by (unfold K; lia).
  assert (HK : K <= - e0).
  { unfold K, k. rewrite fexp64.
    destruct Hq as [Hlt|(-> & _)].
    - pose proof (Zdigits2_small q (- e0) (conj Hq0 Hlt)). lia.
    - assert (Zdigits2 (2 ^ (- e0)) <= - e0 + 1).
      { apply Zdigits2_small; [|lia]. split; [apply Z.pow_nonneg; lia|].
        apply Z.pow_lt_mono_r; lia. }
      lia. }
  assert (HpK : 0 < 2 ^ K) by (apply Z.pow_pos_nonneg; lia).
  assert (Hsplit : 2 ^ (- e0) = 2 ^ (- e') * 2 ^ K).
  { rewrite <- Z.pow_add_r by lia. f_equal; lia. }
  destruct (round_nearest_even_bounds (shr_m mrs) (loc_of_shr_record mrs)) as (Hb & Hex).
  apply pack_below_one; [lia|]. rewrite Hfst in *.
  assert (0 <= q / 2 ^ K) by (apply Z.div_pos; lia).
  split; [lia|].
  destruct Hq as [Hlt|(Hqe & Hl)].
  - assert (q / 2 ^ K < 2 ^ (- e')).
    { apply Z.div_lt_upper_bound; [assumption|]. rewrite Z.mul_comm, <- Hsplit. exact Hlt. }
    lia.
  - rewrite Hex.
    + rewrite Hqe, Hsplit, Z.div_mul by lia. lia.
    + apply Hexact; [assumption|]. rewrite Hqe, Hsplit. apply Z.mod_mul. lia.
Qed.

End Division.

(** The division of the mantissas, then the rounding procedure. *)

Section DivisionCore.

Local Open Scope Z_scope.

Lemma new_location_exact (steps : Z) : new_location steps 0 = loc_Exact.
Proof.
  unfold new_location, new_location_even, new_location_odd.
  destruct (Z.even steps); reflexivity.
Qed.

Lemma SFdiv_below_one (x y : spec_float) (a b : Z) :
  valid_binary x = true -> valid_binary y = true ->
  SFval x = XFin a -> SFval y = XFin b ->
  0 <= a <= b -> 0 < b ->
  exists w, SFval (SFdiv prec emax x y) = XFin w /\ 0 <= w <= 2 ^ 1074.
Proof.
  intros Hx Hy Ha Hb (Ha0 & Hab) Hb0.
  assert (H1074 : 0 <= 2 ^ 1074) by (apply Z.pow_nonneg; lia).
  destruct x as [sx|sx| |sx mx ex], y as [sy|sy| |sy my ey]; cbn [SFval] in Ha, Hb;
    try discriminate; try (destruct sx; discriminate); try (destruct sy; discriminate);
    apply XFin_inj in Ha, Hb; subst a b; cbn [valid_binary] in Hx, Hy; try lia.
  - exists 0. split; [reflexivity|lia].
  - pose proof (proj1 (proj1 (bounded_canonical _ _ Hx))) as Hex.
    pose proof (proj1 (proj1 (bounded_canonical _ _ Hy))) as Hey.
    pose proof (finite_value_positive mx ex Hex) as Hpx.
    pose proof (finite_value_positive my ey Hey) as Hpy.
    destruct sx; cbn [cond_Zopp] in Ha0, Hab; [lia|].
    destruct sy; cbn [cond_Zopp] in Hb0, Hab; [lia|].
    cbn [SFdiv xorb]. unfold SFdiv_core_binary. cbn [Zdigits2].
    set (d1 := Zpos (digits2_pos mx)). set (d2 := Zpos (digits2_pos my)).
    set (e0 := Z.min (fexp prec emax (d1 + ex - (d2 + ey))) (ex - ey)).
    set (s := ex - ey - e0).
    pose proof (digits2_pos_bounds mx) as (Hmx1 & _). fold d1 in Hmx1.
    pose proof (digits2_pos_bounds my) as (_ & Hmy2). fold d2 in Hmy2.
    (* the quotient is below one, so its exponent is far below zero *)
    assert (Hmag : d1 + ex - (d2 + ey) <= 0).
    { destruct (Z.le_gt_cases (d1 + ex - (d2 + ey)) 0) as [|Hgt]; [assumption|exfalso].
      assert (Hp1 : 0 < 2 ^ (ex + 1074)) by (apply Z.pow_pos_nonneg; lia).
      assert (Hp2 : 0 < 2 ^ (ey + 1074)) by (apply Z.pow_pos_nonneg; lia).
      assert (H1 : 2 ^ (d1 - 1 + (ex + 1074)) <= Zpos mx * 2 ^ (ex + 1074)).
      { rewrite (Z.pow_add_r 2 (d1 - 1)) by (unfold d1; lia).
        apply Z.mul_le_mono_nonneg_r; [lia|assumption]. }
      assert (H2 : Zpos my * 2 ^ (ey + 1074) < 2 ^ (d2 + (ey + 1074))).
      { rewrite (Z.pow_add_r 2 d2) by (unfold d2; lia).
        apply Z.mul_lt_mono_pos_r; assumption. }
      assert (H3 : 2 ^ (d2 + (ey + 1074)) <= 2 ^ (d1 - 1 + (ex + 1074)))
        by (apply Z.pow_le_mono_r; lia).
      lia. }
    assert (He0 : e0 <= -53) by (unfold e0; rewrite fexp64; lia).
    assert (Hs : 0 <= s) by (unfold s, e0; lia).
    set (m' := match s with Zpos _ => Z.shiftl (Zpos mx) s | Z0 => Zpos mx | Zneg _ => 0 end).
    assert (Hm' : m' = Zpos mx * 2 ^ s).
    { unfold m'. destruct s as [|p|p] eqn:Es; [rewrite Z.pow_0_r; lia| |lia].
      now rewrite Z.shiftl_mul_pow2. }
    (* the scaled dividend is at most [2^-e0] times the divisor *)
    assert (Hle : m' <= 2 ^ (- e0) * Zpos my).
    { assert (Hp2 : 0 < 2 ^ (ey + 1074)) by (apply Z.pow_pos_nonneg; lia).
      apply (Z.mul_le_mono_pos_r _ _ (2 ^ (ey + 1074)) Hp2).
      rewrite Hm', <- !Z.mul_assoc, <- Z.pow_add_r by lia.
      replace (s + (ey + 1074)) with (- e0 + (ex + 1074)) by (unfold s; lia).
      rewrite Z.pow_add_r by lia.
      assert (0 < 2 ^ (- e0)) by (apply Z.pow_pos_nonneg; lia).
      nia. }
    assert (Hm0 : 0 <= m') by (rewrite Hm'; apply Z.mul_nonneg_nonneg; [lia|apply Z.pow_nonneg; lia]).
    pose proof (Z.div_mod m' (Zpos my) ltac:(lia)) as Hdm.
    pose proof (Z.mod_pos_bound m' (Zpos my) ltac:(lia)) as Hr.
    assert (Hq0 : 0 <= m' / Zpos my) by (apply Z.div_pos; lia).
    unfold Z.div, Z.modulo in Hdm, Hr, Hq0.
    destruct (Z.div_eucl m' (Zpos my)) as (q, r); cbn [fst snd] in Hdm, Hr, Hq0.
    apply round_aux_below_one; [lia|assumption|].
    destruct (Z.lt_ge_cases q (2 ^ (- e0))) as [|Hge]; [now left|right].
    assert (q = 2 ^ (- e0) /\ r = 0) as (-> & ->) by nia.
    split; [reflexivity|apply new_location_exact].
Qed.

End DivisionCore.

(** ** Subtraction and division of primitive floats *)

Section PrimitiveArithmetic.

Local Open Scope float_scope.

Lemma fval_zero : fval 0 = XFin 0.
Proof. reflexivity. Qed.

Lemma fval_one : fval 1 = XFin (2 ^ 1074).
Proof. vm_compute. reflexivity. Qed.

Lemma fval_infinity : fval infinity = XPInf.
Proof. reflexivity. Qed.

Lemma sub_value (x y : float) (a b : Z) :
  fval x = XFin a -> fval y = XFin b -> (b <= a)%Z -> fval (x - y) = rnd (a - b).
Proof.
  intros Ha Hb Hab; unfold fval. rewrite sub_spec.
  apply SFsub_value; auto using Prim2SF_valid.
Qed.

Lemma div_below_one (x y : float) (a b : Z) :
  fval x = XFin a -> fval y = XFin b -> (0 <= a <= b)%Z -> (0 < b)%Z ->
  exists w, fval (x / y) = XFin w /\ (0 <= w <= 2 ^ 1074)%Z.
Proof.
  intros Ha Hb Hab Hb0; unfold fval. rewrite div_spec.
  apply (SFdiv_below_one _ _ a b); auto using Prim2SF_valid.
Qed.

(** [is_finite] holds of the floats with an integer value. *)
Lemma is_finite_value (x : float) : is_finite x = true <-> exists z, fval x = XFin z.
Proof.
  unfold is_finite, is_infinity.
  rewrite negb_true_iff, orb_false_iff.
  split.
  - intros (Hnan & Hinf).
    apply is_nan_false_value in Hnan.
    apply not_true_iff_false in Hinf. rewrite eqb_value, fval_infinity in Hinf.
    unfold fval in *. rewrite abs_spec in Hinf.
    destruct (Prim2SF x) as [s|s| |s m e]; cbn [SFval SFabs] in *.
    + now exists 0%Z.
    + elim Hinf. reflexivity.
    + congruence.
    + eexists; reflexivity.
  - intros (z & Hz). split.
    + apply is_nan_false_value. congruence.
    + apply not_true_iff_false. rewrite eqb_value, fval_infinity.
      unfold fval in *. rewrite abs_spec.
      destruct (Prim2SF x) as [s|s| |s m e]; cbn [SFval SFabs] in *; try discriminate;
        try (destruct s; discriminate); cbn; tauto.
Qed.

(** A finite difference has finite operands. *)
Lemma sub_finite_inv (x y : float) :
  is_finite (x - y) = true -> exists a b, fval x = XFin a /\ fval y = XFin b.
Proof.
  intros H. apply is_finite_value in H as (z & Hz).
  unfold fval in *. rewrite sub_spec in Hz.
  destruct (Prim2SF x) as [sx|sx| |sx mx ex], (Prim2SF y) as [sy|sy| |sy my ey];
    cbn [SFsub SF64sub SFval] in *;
    try discriminate; try (destruct sx; discriminate); try (destruct sy; discriminate);
    try (destruct sx, sy; discriminate);
    eexists; eexists; split; reflexivity.
Qed.

(** The quotient the normaliser computes lies in the unit interval. *)
Lemma scaled_in_unit_interval (lo hi v : float) :
  is_finite (hi - lo) = true ->
  xle (fval lo) (fval v) -> xle (fval v) (fval hi) ->
  let range := hi - lo in
  let scaled := if range =? 0 then 0 else (v - lo) / range in
  (0 <=? scaled) = true /\ (scaled <=? 1) = true
  /\ ((lo =? hi) = true -> scaled = 0).
Proof.
  intros Hfin Hlo Hhi range scaled.
  destruct (sub_finite_inv hi lo Hfin) as (b & a & Hb & Ha).
  rewrite Ha, Hb in *.
  assert (Hv : exists c, fval v = XFin c /\ (a <= c <= b)%Z).
  { destruct (fval v) as [| |c|]; unfold xle in *; cbn [xlt xeq] in *; try tauto.
    exists c; split; [reflexivity|lia]. }
  destruct Hv as (c & Hc & Hac & Hcb).
  assert (Hrange : fval range = rnd (b - a)) by (apply sub_value; auto; lia).
  apply is_finite_value in Hfin as (w & Hw). fold range in Hw.
  assert (Hnum : fval (v - lo) = rnd (c - a)) by (apply sub_value; auto).
  pose proof (rnd_mono (c - a) (b - a) ltac:(lia)) as Hmono.
  pose proof (rnd_nonneg (c - a) ltac:(lia)) as Hnn.
  rewrite <- Hrange, Hw in Hmono. rewrite <- Hnum in Hmono, Hnn.
  assert (Hu : exists u, fval (v - lo) = XFin u /\ (0 <= u <= w)%Z).
  { destruct (fval (v - lo)) as [| |u|]; unfold xle in *; cbn [xlt xeq] in *; try tauto.
    exists u; split; [reflexivity|lia]. }
  destruct Hu as (u & Hu & Hu0 & Huw).
  subst scaled.
  destruct (range =? 0) eqn:Hz.
  - repeat split; reflexivity.
  - apply not_true_iff_false in Hz. rewrite eqb_value, Hw, fval_zero in Hz. cbn [xeq] in Hz.
    destruct (div_below_one (v - lo) range u w Hu Hw) as (q & Hq & Hq0 & Hq1); [lia|lia|].
    split; [|split].
    + apply leb_value. rewrite fval_zero, Hq. unfold xle; cbn [xlt xeq]. lia.
    + apply leb_value. rewrite fval_one, Hq. unfold xle; cbn [xlt xeq]. lia.
    + intros Heq. exfalso. apply eqb_value in Heq. rewrite Ha, Hb in Heq. cbn [xeq] in Heq.
      subst b. rewrite Z.sub_diag, rnd_zero in Hrange. rewrite Hw in Hrange.
      apply XFin_inj in Hrange. lia.
Qed.

End PrimitiveArithmetic.

(** ** Minimum and maximum of a column *)

(** Reads every comparison of the goal on values and decides it. *)
Ltac by_values :=
  float_values;
  repeat match goal with
    | H : context [fval _] |- _ => revert H
    end;
  repeat match goal with
    | |- context [fval ?x] => generalize (fval x); intro
    end;
  intros; xorder.

Section MinMax.

Local Open Scope float_scope.

Lemma xle_trans (a b c : xval) : xle a b -> xle b c -> xle a c.
Proof. intros; xorder. Qed.

(** A coerced cell is never NaN. *)
Lemma or_zero_not_nan (x : float) : is_nan (JS.or_zero x) = false.
Proof.
  unfold JS.or_zero.
  destruct (is_nan x) eqn:Hn; cbn [orb]; [reflexivity|].
  destruct (x =? 0); [reflexivity|assumption].
Qed.

(** [Math.min] and [Math.max] of two numbers, neither of them NaN. *)
Lemma min2_spec (a b : float) :
  is_nan a = false -> is_nan b = false ->
  is_nan (JS.min2 a b) = false
  /\ xle (fval (JS.min2 a b)) (fval a) /\ xle (fval (JS.min2 a b)) (fval b).
Proof.
  intros Ha Hb; unfold JS.min2. rewrite Ha, Hb; cbn [orb].
  destruct (a <? b) eqn:Hab; [|destruct (b <? a) eqn:Hba; [|destruct (JS.is_neg_zero a)]];
    (split; [assumption|]); split; by_values.
Qed.

Lemma max2_spec (a b : float) :
  is_nan a = false -> is_nan b = false ->
  is_nan (JS.max2 a b) = false
  /\ xle (fval a) (fval (JS.max2 a b)) /\ xle (fval b) (fval (JS.max2 a b)).
Proof.
  intros Ha Hb; unfold JS.max2. rewrite Ha, Hb; cbn [orb].
  destruct (b <? a) eqn:Hba; [|destruct (a <? b) eqn:Hab; [|destruct (JS.is_neg_zero a)]];
    (split; [assumption|]); split; by_values.
Qed.

(** The minimum of a column without NaN is below each of its elements,
    the maximum above. *)
Lemma Math_min_lower (xs : list float) :
  (forall x, In x xs -> is_nan x = false) ->
  forall x, In x xs -> xle (fval (JS.Math_min xs)) (fval x).
Proof.
  unfold JS.Math_min.
  assert (H : forall xs acc,
             is_nan acc = false -> (forall x, In x xs -> is_nan x = false) ->
             is_nan (fold_left JS.min2 xs acc) = false
             /\ xle (fval (fold_left JS.min2 xs acc)) (fval acc)
             /\ forall x, In x xs -> xle (fval (fold_left JS.min2 xs acc)) (fval x)).
  { clear; induction xs as [|y xs IH]; intros acc Hacc Hxs; cbn [fold_left].
    - repeat split; [assumption|by_values|intros x []].
    - destruct (min2_spec acc y Hacc (Hxs y (or_introl eq_refl))) as (Hn & H1 & H2).
      destruct (IH (JS.min2 acc y) Hn (fun x Hx => Hxs x (or_intror Hx))) as (Hn' & H3 & H4).
      split; [assumption|]; split; [eapply xle_trans; eassumption|].
      intros x [<-|Hx]; [eapply xle_trans; eassumption|now apply H4]. }
  intros Hxs. now apply H.
Qed.

Lemma Math_max_upper (xs : list float) :
  (forall x, In x xs -> is_nan x = false) ->
  forall x, In x xs -> xle (fval x) (fval (JS.Math_max xs)).
Proof.
  unfold JS.Math_max.
  assert (H : forall xs acc,
             is_nan acc = false -> (forall x, In x xs -> is_nan x = false) ->
             is_nan (fold_left JS.max2 xs acc) = false
             /\ xle (fval acc) (fval (fold_left JS.max2 xs acc))
             /\ forall x, In x xs -> xle (fval x) (fval (fold_left JS.max2 xs acc))).
  { clear; induction xs as [|y xs IH]; intros acc Hacc Hxs; cbn [fold_left].
    - repeat split; [assumption|by_values|intros x []].
    - destruct (max2_spec acc y Hacc (Hxs y (or_introl eq_refl))) as (Hn & H1 & H2).
      destruct (IH (JS.max2 acc y) Hn (fun x Hx => Hxs x (or_intror Hx))) as (Hn' & H3 & H4).
      split; [assumption|]; split; [eapply xle_trans; eassumption|].
      intros x [<-|Hx]; [eapply xle_trans; eassumption|now apply H4]. }
  intros Hxs. now apply H.
Qed.

End MinMax.

(** ** Exact results: opposite differences, [x - x], [0 / y], [x / x] *)

Section ExactResults.

Local Open Scope float_scope.

(** The sign given to the rounding procedure only signs its result. *)
Lemma round_aux_negative (m e : Z) (l : location) :
  binary_round_aux prec emax true m e l = SFopp (binary_round_aux prec emax false m e l).
Proof.
  unfold binary_round_aux.
  destruct (shr_fexp prec emax m e l) as (mrs', e').
  destruct (shr_fexp prec emax _ e' loc_Exact) as (mrs'', e'').
  destruct (shr_m mrs'') as [|p|p]; try reflexivity.
  destruct (e'' <=? emax - prec)%Z; reflexivity.
Qed.

Lemma binary_round_negative (m : positive) (e : Z) :
  binary_round prec emax true m e = SFopp (binary_round prec emax false m e).
Proof.
  unfold binary_round.
  destruct (shl_align m e _) as (mz, ez). apply round_aux_negative.
Qed.

Lemma SFopp_involutive (x : spec_float) : SFopp (SFopp x) = x.
Proof. destruct x as [s|s| |s m e]; cbn [SFopp]; now rewrite ?negb_involutive. Qed.

Lemma binary_normalize_opp (M e : Z) :
  M <> 0%Z ->
  binary_normalize prec emax (- M) e false = SFopp (binary_normalize prec emax M e false).
Proof.
  intros HM. destruct M as [|m|m]; [congruence| |]; cbn [Z.opp binary_normalize].
  - apply binary_round_negative.
  - now rewrite binary_round_negative, SFopp_involutive.
Qed.

(** Swapping the operands of a subtraction gives the opposite result,
    or a zero in place of a zero. *)
Lemma SFsub_swap (x y : spec_float) :
  SFsub prec emax y x = SFopp (SFsub prec emax x y)
  \/ exists s s', SFsub prec emax x y = S754_zero s /\ SFsub prec emax y x = S754_zero s'.
Proof.
  destruct x as [sx|sx| |sx mx ex], y as [sy|sy| |sy my ey]; cbn [SFsub SFopp];
    try (left; reflexivity);
    try (destruct sx, sy; (left; reflexivity) || (right; eexists; eexists; split; reflexivity)).
  rewrite (Z.min_comm ey ex).
  set (ez := Z.min ex ey).
  set (a := cond_Zopp sx (Zpos (fst (shl_align mx ex ez)))).
  set (b := cond_Zopp sy (Zpos (fst (shl_align my ey ez)))).
  destruct (Z.eq_dec (a - b) 0) as [H0|H0].
  - right. exists false, false.
    replace (b - a)%Z with 0%Z by lia. rewrite H0. split; reflexivity.
  - left. replace (b - a)%Z with (- (a - b))%Z by lia.
    now apply binary_normalize_opp.
Qed.

Lemma SFmul_square_opp (x : spec_float) :
  SFmul prec emax (SFopp x) (SFopp x) = SFmul prec emax x x.
Proof. destruct x as [[]|[]| |[] m e]; reflexivity. Qed.

(** The square of a difference does not depend on the order of the
    operands. *)
Lemma sub_square_comm (x y : float) : (x - y) * (x - y) = (y - x) * (y - x).
Proof.
  apply Prim2SF_inj. rewrite !mul_spec, !sub_spec. unfold SF64mul, SF64sub.
  destruct (SFsub_swap (Prim2SF x) (Prim2SF y)) as [->|(s & s' & -> & ->)].
  - now rewrite SFmul_square_opp.
  - destruct s, s'; reflexivity.
Qed.

(** A finite float is a zero or a signed mantissa. *)
Lemma finite_cases (x : float) :
  is_finite x = true ->
  (exists s, Prim2SF x = S754_zero s) \/ (exists s m e, Prim2SF x = S754_finite s m e).
Proof.
  intros H. apply is_finite_value in H as (z & Hz). unfold fval in Hz.
  destruct (Prim2SF x) as [s|s| |s m e]; cbn [SFval] in Hz.
  - left; now exists s.
  - destruct s; discriminate.
  - discriminate.
  - right; now exists s, m, e.
Qed.

Lemma sub_self (x : float) : is_finite x = true -> x - x = 0.
Proof.
  intros H. apply Prim2SF_inj. rewrite sub_spec. unfold SF64sub.
  change (Prim2SF 0) with (S754_zero false).
  destruct (finite_cases x H) as [(s & ->)|(s & m & e & ->)]; cbn [SFsub].
  - destruct s; reflexivity.
  - now rewrite Z.sub_diag.
Qed.

(** A float of positive value is a positive mantissa. *)
Lemma positive_cases (y : float) (w : Z) :
  fval y = XFin w -> (0 < w)%Z -> exists m e, Prim2SF y = S754_finite false m e.
Proof.
  unfold fval; intros Hy Hw.
  destruct (Prim2SF y) as [s|s| |s m e]; cbn [SFval] in Hy.
  - apply XFin_inj in Hy. lia.
  - destruct s; discriminate.
  - discriminate.
  - apply XFin_inj in Hy. subst w.
    assert (0 <= Zpos m * 2 ^ (e + 1074))%Z
      by (apply Z.mul_nonneg_nonneg; [lia|apply Z.pow_nonneg; lia]).
    destruct s; cbn [cond_Zopp] in Hw; [lia|]. now exists m, e.
Qed.

Lemma zero_div (y : float) (w : Z) : fval y = XFin w -> (0 < w)%Z -> 0 / y = 0.
Proof.
  intros Hy Hw. apply Prim2SF_inj. rewrite div_spec. unfold SF64div.
  change (Prim2SF 0) with (S754_zero false).
  destruct (positive_cases y w Hy Hw) as (m & e & ->). reflexivity.
Qed.

(** The division of a mantissa by itself: quotient [2^53] at exponent
    [-53], nothing left. *)
Lemma SFdiv_core_self (m : positive) (e : Z) :
  SFdiv_core_binary prec emax (Zpos m) e (Zpos m) e = ((2 ^ 53)%Z, (-53)%Z, loc_Exact).
Proof.
  unfold SFdiv_core_binary. cbn [Zdigits2].
  replace (Zpos (digits2_pos m) + e - (Zpos (digits2_pos m) + e))%Z with 0%Z by lia.
  rewrite Z.sub_diag.
  change (Z.min (fexp prec emax 0) 0) with (-53)%Z.
  change (0 - -53)%Z with 53%Z. cbv iota.
  rewrite Z.shiftl_mul_pow2 by lia.
  assert (Hq : (Zpos m * 2 ^ 53 / Zpos m = 2 ^ 53)%Z)
    by (rewrite Z.mul_comm; apply Z.div_mul; lia).
  assert (Hr : ((Zpos m * 2 ^ 53) mod Zpos m = 0)%Z)
    by (rewrite Z.mul_comm; apply Z.mod_mul; lia).
  unfold Z.div, Z.modulo in Hq, Hr.
  destruct (Z.div_eucl (Zpos m * 2 ^ 53) (Zpos m)) as (q, r); cbn [fst snd] in Hq, Hr.
  subst q r.
  now rewrite new_location_exact.
Qed.

Lemma div_self (x : float) : is_finite x = true -> (x =? 0) = false -> x / x = 1.
Proof.
  intros Hfin Hnz. apply Prim2SF_inj. rewrite div_spec. unfold SF64div.
  destruct (finite_cases x Hfin) as [(s & Hx)|(s & m & e & Hx)].
  - exfalso. apply not_true_iff_false in Hnz. apply Hnz.
    apply eqb_value. unfold fval. rewrite Hx. reflexivity.
  - rewrite Hx. cbn [SFdiv]. rewrite SFdiv_core_self.
    destruct s; vm_compute; reflexivity.
Qed.

(** The length of an array, as a number. *)
Lemma of_length_value (n : nat) :
  (0 < n)%nat -> (Z.of_nat n < 2 ^ 32)%Z ->
  exists w, fval (JS.of_length n) = XFin w /\ (0 < w)%Z.
Proof.
  intros Hn Hlt. unfold JS.of_length, fval.
  rewrite of_uint63_spec, Uint63.of_Z_spec.
  rewrite Z.mod_small by (change Uint63Axioms.wB with (2 ^ 63)%Z; lia).
  rewrite binary_normalize_value by lia.
  change (0 + 1074)%Z with 1074%Z.
  pose proof (rnd_mono (2 ^ 1074) (Z.of_nat n * 2 ^ 1074) ltac:(nia)) as Hlow.
  pose proof (rnd_mono (Z.of_nat n * 2 ^ 1074) (2 ^ 32 * 2 ^ 1074) ltac:(nia)) as Hup.
  assert (H1 : rnd (2 ^ 1074) = XFin (2 ^ 1074)).
  { change (2 ^ 1074)%Z with (Zpos (2 ^ 52) * 2 ^ (-52 + 1074))%Z.
    now apply rnd_representable. }
  assert (H2 : rnd (2 ^ 32 * 2 ^ 1074) = XFin (2 ^ 32 * 2 ^ 1074)).
  { change (2 ^ 32 * 2 ^ 1074)%Z with (Zpos (2 ^ 52) * 2 ^ (-20 + 1074))%Z.
    now apply rnd_representable. }
  rewrite H1 in Hlow. rewrite H2 in Hup.
  destruct (rnd (Z.of_nat n * 2 ^ 1074)) as [| |w|]; unfold xle in *; cbn [xlt xeq] in *;
    try tauto.
  exists w; split; [reflexivity|]. assert (0 < 2 ^ 1074)%Z by (apply Z.pow_pos_nonneg; lia). lia.
Qed.

End ExactResults.

(** ** The minimum and the maximum are attained *)

Section Attained.

Local Open Scope float_scope.

Lemma neg_infinity_unique (y : float) : fval y = XNInf -> y = neg_infinity.
Proof.
  unfold fval; intros H. apply Prim2SF_inj.
  change (Prim2SF neg_infinity) with (S754_infinity true).
  destruct (Prim2SF y) as [s|s| |s m e]; cbn [SFval] in H; try discriminate.
  destruct s; [reflexivity|discriminate].
Qed.

Lemma min2_infinity (y : float) : is_nan y = false -> JS.min2 infinity y = y.
Proof.
  intros Hy. unfold JS.min2. change (is_nan infinity) with false. rewrite Hy; cbn [orb].
  destruct (infinity <? y) eqn:H1.
  - exfalso. apply ltb_value in H1. rewrite fval_infinity in H1.
    destruct (fval y); exact H1.
  - destruct (y <? infinity); reflexivity.
Qed.

Lemma max2_neg_infinity (y : float) : is_nan y = false -> JS.max2 neg_infinity y = y.
Proof.
  intros Hy. unfold JS.max2. change (is_nan neg_infinity) with false. rewrite Hy; cbn [orb].
  destruct (y <? neg_infinity) eqn:H1.
  - exfalso. apply ltb_value in H1. change (fval neg_infinity) with XNInf in H1.
    destruct (fval y); exact H1.
  - destruct (neg_infinity <? y) eqn:H2; [reflexivity|].
    change (JS.is_neg_zero neg_infinity) with false. cbv iota.
    symmetry. apply neg_infinity_unique.
    apply not_true_iff_false in H2. rewrite ltb_value in H2.
    change (fval neg_infinity) with XNInf in H2.
    apply is_nan_false_value in Hy.
    destruct (fval y); cbn [xlt] in H2; tauto.
Qed.

Lemma min2_choice (a b : float) : JS.min2 a b = nan \/ JS.min2 a b = a \/ JS.min2 a b = b.
Proof.
  unfold JS.min2.
  destruct (is_nan a || is_nan b); [now left|right].
  destruct (a <? b); [now left|]. destruct (b <? a); [now right|].
  destruct (JS.is_neg_zero a); [now left|now right].
Qed.

Lemma max2_choice (a b : float) : JS.max2 a b = nan \/ JS.max2 a b = a \/ JS.max2 a b = b.
Proof.
  unfold JS.max2.
  destruct (is_nan a || is_nan b); [now left|right].
  destruct (b <? a); [now left|]. destruct (a <? b); [now right|].
  destruct (JS.is_neg_zero a); [now right|now left].
Qed.

Lemma fold_choice (op : float -> float -> float) (xs : list float) (acc : float) :
  (forall a b, op a b = nan \/ op a b = a \/ op a b = b) ->
  (forall a b, is_nan a = false -> is_nan b = false -> is_nan (op a b) = false) ->
  is_nan acc = false -> (forall x, In x xs -> is_nan x = false) ->
  In (fold_left op xs acc) (acc :: xs).
Proof.
  intros Hchoice Hnan; revert acc; induction xs as [|y xs IH]; intros acc Hacc Hxs;
    cbn [fold_left]; [now left|].
  assert (Hy : is_nan y = false) by (apply Hxs; now left).
  pose proof (Hnan acc y Hacc Hy) as Hstep.
  destruct (IH (op acc y) Hstep (fun x Hx => Hxs x (or_intror Hx))) as [Heq|Hin].
  - rewrite <- Heq.
    destruct (Hchoice acc y) as [H|[H|H]]; rewrite H in *; [discriminate|now left|right; now left].
  - right; now right.
Qed.

(** The minimum and the maximum of a non-empty column without NaN are
    elements of the column. *)
Lemma Math_min_attained (xs : list float) :
  xs <> [] -> (forall x, In x xs -> is_nan x = false) -> In (JS.Math_min xs) xs.
Proof.
  destruct xs as [|y xs]; [congruence|]; intros _ Hxs.
  unfold JS.Math_min; cbn [fold_left].
  rewrite min2_infinity by (apply Hxs; now left).
  apply (fold_choice JS.min2).
  - apply min2_choice.
  - intros a b Ha Hb. now apply min2_spec.
  - apply Hxs; now left.
  - intros x Hx. apply Hxs; now right.
Qed.

Lemma Math_max_attained (xs : list float) :
  xs <> [] -> (forall x, In x xs -> is_nan x = false) -> In (JS.Math_max xs) xs.
Proof.
  destruct xs as [|y xs]; [congruence|]; intros _ Hxs.
  unfold JS.Math_max; cbn [fold_left].
  rewrite max2_neg_infinity by (apply Hxs; now left).
  apply (fold_choice JS.max2).
  - apply max2_choice.
  - intros a b Ha Hb. now apply max2_spec.
  - apply Hxs; now left.
  - intros x Hx. apply Hxs; now right.
Qed.

End Attained.

(** * Properties of the pipeline *)

(** ** Feature selection and the shape of the matrix *)

Section NormalizeShape.

Context {host : Host}.

Lemma mapi_from_length (A B : Type) (f : A -> nat -> B) (l : list A) (i : nat) :
  List.length (JS.mapi_from f i l) = List.length l.
Proof.
  revert i; induction l as [|x l IH]; intros i; simpl; [reflexivity|].
  now rewrite IH.
Qed.

Lemma mapi_length (A B : Type) (f : A -> nat -> B) (l : list A) :
  List.length (JS.mapi f l) = List.length l.
Proof. apply mapi_from_length. Qed.

Lemma mapiM_from_Ok (A B : Type) (f : A -> nat -> result B) (g : A -> nat -> B)
      (l : list A) (i : nat) :
  (forall x j, f x j = Ok (g x j)) -> mapiM_from f i l = Ok (JS.mapi_from g i l).
Proof.
  intros Hf; revert i; induction l as [|x l IH]; intros i; cbn [mapiM_from JS.mapi_from];
    [reflexivity|].
  now rewrite Hf, IH.
Qed.

Lemma mapiM_from_Throw (A B : Type) (f : A -> nat -> result B) (e : exn)
      (l : list A) (i : nat) :
  l <> [] -> (forall x j, f x j = Throw e) -> mapiM_from f i l = Throw e.
Proof.
  intros Hl Hf. destruct l as [|x l]; [congruence|].
  cbn [mapiM_from]. now rewrite Hf.
Qed.

Lemma column_length (values : list (list float)) (i : nat) :
  List.length (column values i) = List.length values.
Proof. apply length_map. Qed.

(** The outcome of [normalizeData] on a non-empty dataset: the scaled
    raw values when the spreads go through, a RangeError otherwise. *)
Lemma normalizeData_outcome (first : CustomerRecord) (rest : list CustomerRecord)
      (excludeColumns : list string) :
  let feats := select_features first excludeColumns in
  let values := raw_values (first :: rest) feats in
  let mins := JS.mapi (fun _ i => JS.Math_min (column values i)) feats in
  let maxs := JS.mapi (fun _ i => JS.Math_max (column values i)) feats in
  normalizeData (first :: rest) excludeColumns
  = if within_call_limit (first :: rest) excludeColumns
    then Ok {| normalized := map (fun row => JS.mapi (scale mins maxs) row) values;
               features := feats |}
    else Throw RangeError.
Proof.
  cbv zeta. unfold normalizeData, within_call_limit, mapiM.
  set (feats := select_features first excludeColumns).
  set (values := raw_values (first :: rest) feats).
  assert (Hcall : forall (pick : list float -> float) (j : nat),
             JS.spread max_arguments pick (column values j)
             = if (max_arguments <? Z.of_nat (List.length (first :: rest)))%Z
               then Throw RangeError else Ok (pick (column values j))).
  { intros pick j. unfold JS.spread. rewrite column_length.
    unfold values, raw_values. now rewrite length_map. }
  clearbody values. clearbody feats.
  destruct feats as [|f feats]; [reflexivity|].
  destruct (Z.leb_spec (Z.of_nat (List.length (first :: rest))) max_arguments) as [Hfits|Hover].
  - apply Z.ltb_ge in Hfits. rewrite Hfits in Hcall.
    rewrite (mapiM_from_Ok _ _ _ (fun _ i => JS.Math_min (column values i)))
      by (intros; apply Hcall).
    rewrite (mapiM_from_Ok _ _ _ (fun _ i => JS.Math_max (column values i)))
      by (intros; apply Hcall).
    reflexivity.
  - apply Z.ltb_lt in Hover. rewrite Hover in Hcall.
    rewrite (mapiM_from_Throw _ _ _ RangeError); [reflexivity|discriminate|].
    intros; apply Hcall.
Qed.

(** What [normalizeData] returns, when it returns. *)
Lemma normalizeData_Ok_inv (first : CustomerRecord) (rest : list CustomerRecord)
      (excludeColumns : list string) (nf : Normalized) :
  normalizeData (first :: rest) excludeColumns = Ok nf ->
  let feats := select_features first excludeColumns in
  let values := raw_values (first :: rest) feats in
  let mins := JS.mapi (fun _ i => JS.Math_min (column values i)) feats in
  let maxs := JS.mapi (fun _ i => JS.Math_max (column values i)) feats in
  nf = {| normalized := map (fun row => JS.mapi (scale mins maxs) row) values;
          features := feats |}.
Proof.
  pose proof (normalizeData_outcome first rest excludeColumns) as Hout. cbv zeta in Hout.
  intros Hnf. rewrite Hnf in Hout.
  destruct (within_call_limit (first :: rest) excludeColumns); [|discriminate].
  cbv zeta. congruence.
Qed.

(** The shape of what [normalizeData] returns. *)
Lemma normalizeData_Ok_shape (first : CustomerRecord) (rest : list CustomerRecord)
      (excludeColumns : list string) (nf : Normalized) :
  normalizeData (first :: rest) excludeColumns = Ok nf ->
  within_call_limit (first :: rest) excludeColumns = true
  /\ features nf = select_features first excludeColumns
  /\ List.length (normalized nf) = S (List.length rest)
  /\ Forall (fun row => List.length row = List.length (features nf)) (normalized nf).
Proof.
  pose proof (normalizeData_outcome first rest excludeColumns) as Hout. cbv zeta in Hout.
  intros Hnf. rewrite Hnf in Hout.
  destruct (within_call_limit (first :: rest) excludeColumns); [|discriminate].
  match type of Hout with Ok _ = Ok ?b => assert (Hnf' : nf = b) by congruence end.
  rewrite Hnf'; cbn [features normalized].
  split; [reflexivity|]; split; [reflexivity|]; split.
  - unfold raw_values. now rewrite !length_map.
  - apply Forall_forall; intros row Hrow.
    apply in_map_iff in Hrow as (raw & <- & Hraw).
    rewrite mapi_length.
    unfold raw_values in Hraw.
    apply in_map_iff in Hraw as (record & <- & _).
    now rewrite length_map.
Qed.

Lemma normalizeData_cons (first : CustomerRecord) (rest : list CustomerRecord)
      (excludeColumns : list string) :
  within_call_limit (first :: rest) excludeColumns = true ->
  exists nf,
    normalizeData (first :: rest) excludeColumns = Ok nf
    /\ features nf = select_features first excludeColumns
    /\ List.length (normalized nf) = S (List.length rest)
    /\ Forall (fun row => List.length row = List.length (features nf)) (normalized nf).
Proof.
  intros Hfit.
  pose proof (normalizeData_outcome first rest excludeColumns) as Hout. cbv zeta in Hout.
  rewrite Hfit in Hout.
  eexists; split; [exact Hout|].
  now apply (normalizeData_Ok_shape first rest excludeColumns).
Qed.

Lemma normalizeData_overflow (first : CustomerRecord) (rest : list CustomerRecord)
      (excludeColumns : list string) :
  within_call_limit (first :: rest) excludeColumns = false ->
  normalizeData (first :: rest) excludeColumns = Throw RangeError.
Proof. intros Hfit. rewrite normalizeData_outcome. now rewrite Hfit. Qed.

(** When the spreads go through. *)
Lemma within_call_limit_spec (first : CustomerRecord) (rest : list CustomerRecord)
      (excludeColumns : list string) :
  within_call_limit (first :: rest) excludeColumns = true
  <-> select_features first excludeColumns = []
      \/ (Z.of_nat (List.length (first :: rest)) <= max_arguments)%Z.
Proof.
  unfold within_call_limit.
  destruct (select_features first excludeColumns) as [|f feats].
  - split; auto.
  - rewrite Z.leb_le. split; [now right|]. intros [H|H]; [discriminate|assumption].
Qed.

Lemma normalizeData_empty (excludeColumns : list string) :
  normalizeData [] excludeColumns = Throw TypeError.
Proof. reflexivity. Qed.

End NormalizeShape.

(** C3 (claim as stated fails): a dataset with one eligible numeric
    feature is normalised like any other; nothing is signalled. *)
Lemma normalizeData_one_feature_returns :
  exists nf,
    normalizeData (host := Samples.table_host []) Samples.one_feature ["id"%string] = Ok nf
    /\ features nf = ["spend"%string]
    /\ (List.length (features nf) < 2)%nat.
Proof.
  eexists; split; [reflexivity|]; cbn; split; [reflexivity|lia].
Qed.

(** C3 (amended): the number of eligible features never makes
    [normalizeData] throw.  On a non-empty dataset it returns whenever
    the first record has no eligible feature or the dataset holds no more
    records than the engine accepts arguments in one call: the feature
    list is then exactly the eligible fields of the first record, however
    few they are, and the matrix has one row per record and one column
    per feature.  Otherwise, with at least one feature and a longer
    dataset, the spread of a column into [Math.min] throws a RangeError;
    the function throws nothing else. *)
Theorem normalizeData_never_signals_shortage
        (host : Host) (first : CustomerRecord) (rest : list CustomerRecord)
        (excludeColumns : list string) :
  let eligible :=
    filter (fun key => negb (includes excludeColumns key) && is_number (get first key))
           (Object_keys first) in
  let n := List.length (first :: rest) in
  (eligible = [] \/ (Z.of_nat n <= max_arguments)%Z ->
   exists nf,
     normalizeData (first :: rest) excludeColumns = Ok nf
     /\ features nf = eligible
     /\ List.length (normalized nf) = n
     /\ Forall (fun row => List.length row = List.length (features nf)) (normalized nf))
  /\ (eligible <> [] -> (max_arguments < Z.of_nat n)%Z ->
      normalizeData (first :: rest) excludeColumns = Throw RangeError)
  /\ (forall e, normalizeData (first :: rest) excludeColumns = Throw e ->
        e = RangeError /\ eligible <> [] /\ (max_arguments < Z.of_nat n)%Z).
Proof.
  intros eligible n.
  pose proof (within_call_limit_spec first rest excludeColumns) as Hspec.
  change (select_features first excludeColumns) with eligible in Hspec. fold n in Hspec.
  split; [|split].
  - intros Hfit. apply Hspec in Hfit.
    destruct (normalizeData_cons first rest excludeColumns Hfit) as (nf & H1 & H2 & H3 & H4).
    exists nf; repeat split; assumption.
  - intros Hne Hover. apply normalizeData_overflow.
    destruct (within_call_limit (first :: rest) excludeColumns); [|reflexivity].
    destruct (proj1 Hspec eq_refl); [congruence|lia].
  - intros e He.
    destruct (within_call_limit (first :: rest) excludeColumns) eqn:Hfit.
    + destruct (normalizeData_cons first rest excludeColumns Hfit) as (nf & H1 & _).
      congruence.
    + rewrite (normalizeData_overflow first rest excludeColumns Hfit) in He.
      injection He as <-. split; [reflexivity|].
      split.
      * intros Hnil. assert (false = true) by (apply Hspec; now left).
        discriminate.
      * destruct (Z.lt_ge_cases max_arguments (Z.of_nat n)) as [|Hge]; [assumption|].
        assert (false = true) by (apply Hspec; right; lia).
        discriminate.
Qed.

Lemma normalizeData_never_signals_shortage_witness :
  (exists nf,
     normalizeData (host := Samples.table_host []) Samples.one_feature ["id"%string] = Ok nf
     /\ features nf = ["spend"%string])
  /\ normalizeData (host := Samples.table_host [])
                   (hd [] Samples.one_feature
                    :: repeat (hd [] Samples.one_feature) (Z.to_nat 100000))
                   ["id"%string]
     = Throw RangeError.
Proof.
  split.
  - destruct (normalizeData_never_signals_shortage
                (Samples.table_host []) (hd [] Samples.one_feature) (tl Samples.one_feature)
                ["id"%string]) as (Hfit & _).
    destruct Hfit as (nf & Hnf & Hfeats & _).
    + right. vm_compute. discriminate.
    + exists nf; split; [exact Hnf|exact Hfeats].
  - apply (normalizeData_never_signals_shortage
             (Samples.table_host []) (hd [] Samples.one_feature)
             (repeat (hd [] Samples.one_feature) (Z.to_nat 100000)) ["id"%string]).
    + vm_compute. discriminate.
    + cbn [List.length]. rewrite repeat_length, Nat2Z.inj_succ, Z2Nat.id by lia.
      cbn. lia.
Defined.

(** ** The normalised matrix *)

Section NormalizedEntries.

Context {host : Host}.

Local Open Scope float_scope.

Lemma mapi_from_nth (A B : Type) (f : A -> nat -> B) (l : list A) (start i : nat)
      (d : A) (d' : B) :
  (i < List.length l)%nat ->
  nth i (JS.mapi_from f start l) d' = f (nth i l d) (start + i)%nat.
Proof.
  revert start i; induction l as [|x l IH]; intros start i Hi; cbn in Hi; [lia|].
  destruct i as [|i]; cbn [JS.mapi_from nth].
  - now rewrite Nat.add_0_r.
  - rewrite IH by lia. f_equal; lia.
Qed.

Lemma mapi_nth (A B : Type) (f : A -> nat -> B) (l : list A) (i : nat) (d : A) (d' : B) :
  (i < List.length l)%nat -> nth i (JS.mapi f l) d' = f (nth i l d) i.
Proof. intros Hi. unfold JS.mapi. now rewrite (mapi_from_nth A B f l 0 i d d'). Qed.

Lemma idx_mapi (A : Type) (f : A -> nat -> float) (l : list A) (i : nat) (d : A) :
  (i < List.length l)%nat -> JS.idx (JS.mapi f l) i = f (nth i l d) i.
Proof. intros Hi. unfold JS.idx. now apply mapi_nth. Qed.

Lemma raw_values_entry (data : list CustomerRecord) (feats : list string)
      (row : list float) (i : nat) :
  In row (raw_values data feats) -> (i < List.length feats)%nat ->
  List.length row = List.length feats
  /\ is_nan (JS.idx row i) = false
  /\ In (JS.idx row i) (column (raw_values data feats) i).
Proof.
  intros Hrow Hi.
  split; [|split].
  - unfold raw_values in Hrow. apply in_map_iff in Hrow as (record & <- & _).
    apply length_map.
  - unfold raw_values in Hrow. apply in_map_iff in Hrow as (record & <- & _).
    unfold JS.idx. rewrite (nth_indep _ nan (coerce record ""%string)) by now rewrite length_map.
    rewrite (map_nth (coerce record)). apply or_zero_not_nan.
  - unfold column. now apply (in_map (fun r => JS.idx r i)).
Qed.

Lemma column_not_nan (data : list CustomerRecord) (feats : list string) (i : nat) :
  (i < List.length feats)%nat ->
  forall x, In x (column (raw_values data feats) i) -> is_nan x = false.
Proof.
  intros Hi x Hx. unfold column in Hx. apply in_map_iff in Hx as (row & <- & Hrow).
  now apply (raw_values_entry data feats row i).
Qed.

(** Every entry of the matrix is the scaled raw value of its cell. *)
Lemma normalized_entry (first : CustomerRecord) (rest : list CustomerRecord)
      (excludeColumns : list string) (nf : Normalized) (row : list float) (i : nat) :
  normalizeData (first :: rest) excludeColumns = Ok nf ->
  In row (normalized nf) -> (i < List.length (features nf))%nat ->
  let values := raw_values (first :: rest) (features nf) in
  exists raw,
    In raw values
    /\ JS.idx row i
       = (let range := JS.Math_max (column values i) - JS.Math_min (column values i) in
          if range =? 0 then 0
          else (JS.idx raw i - JS.Math_min (column values i)) / range).
Proof.
  set (feats := select_features first excludeColumns).
  set (values := raw_values (first :: rest) feats).
  set (mins := JS.mapi (fun _ i => JS.Math_min (column values i)) feats).
  set (maxs := JS.mapi (fun _ i => JS.Math_max (column values i)) feats).
  intros Hnf.
  assert (Hnf' : nf = {| normalized := map (fun row => JS.mapi (scale mins maxs) row) values;
                         features := feats |}).
  { exact (normalizeData_Ok_inv first rest excludeColumns nf Hnf). }
  subst nf. cbn [normalized features].
  intros Hrow Hi. fold feats values.
  apply in_map_iff in Hrow as (raw & <- & Hraw).
  exists raw; split; [assumption|].
  destruct (raw_values_entry _ _ raw i Hraw Hi) as (Hlen & _).
  rewrite (idx_mapi _ (scale mins maxs) raw i nan) by lia.
  unfold scale, mins, maxs.
  rewrite !(idx_mapi _ _ feats i ""%string) by assumption.
  reflexivity.
Qed.

End NormalizedEntries.

(** C7 (claim as stated fails): two records whose balances are the
    largest power of two and its opposite.  Both are finite, their
    difference is not, and the first entry of the matrix is
    [Infinity / Infinity], that is NaN, which is not in [0, 1]. *)
Lemma normalizeData_overflowing_range :
  exists nf,
    normalizeData (host := Samples.table_host []) Samples.far_apart ["id"%string] = Ok nf
    /\ normalized nf = [[nan; 0]; [0; 1]]%float
    /\ (0 <=? JS.idx (nth 0 (normalized nf) []) 0)%float = false
    /\ (JS.idx (nth 0 (normalized nf) []) 0 <=? 1)%float = false.
Proof.
  eexists; split; [reflexivity|]. cbn [normalized].
  repeat split.
Qed.

(** The same happens to a constant column of [Infinity]: its minimum
    equals its maximum, and its entries are NaN, not 0. *)
Lemma normalizeData_infinite_constant_column :
  exists nf,
    normalizeData (host := Samples.table_host []) Samples.unbounded ["id"%string] = Ok nf
    /\ (let balances :=
          column (raw_values (host := Samples.table_host []) Samples.unbounded (features nf)) 0
        in (JS.Math_min balances =? JS.Math_max balances)%float = true)
    /\ normalized nf = [[nan; 0]; [nan; 1]]%float.
Proof.
  eexists; split; [reflexivity|]. split; reflexivity.
Qed.

(** C7 (amended): for a non-empty dataset and a feature whose range
    [max - min], as the code computes it, is a finite number, every entry
    of that feature's column of the matrix lies in [0, 1], and it is
    exactly 0 in every row when the minimum equals the maximum. *)
Theorem normalizeData_entries_in_unit_interval
        (host : Host) (first : CustomerRecord) (rest : list CustomerRecord)
        (excludeColumns : list string) (nf : Normalized) (i : nat) (row : list float) :
  normalizeData (first :: rest) excludeColumns = Ok nf ->
  (i < List.length (features nf))%nat ->
  In row (normalized nf) ->
  let column_i := column (raw_values (first :: rest) (features nf)) i in
  is_finite (JS.Math_max column_i - JS.Math_min column_i)%float = true ->
  (0 <=? JS.idx row i)%float = true
  /\ (JS.idx row i <=? 1)%float = true
  /\ ((JS.Math_min column_i =? JS.Math_max column_i)%float = true -> JS.idx row i = 0%float).
Proof.
  intros Hnf Hi Hrow column_i Hfin.
  destruct (normalized_entry first rest excludeColumns nf row i Hnf Hrow Hi)
    as (raw & Hraw & ->).
  fold column_i.
  destruct (raw_values_entry _ _ raw i Hraw Hi) as (_ & _ & Hin).
  fold column_i in Hin.
  pose proof (column_not_nan (first :: rest) (features nf) i Hi) as Hnan.
  fold column_i in Hnan.
  apply scaled_in_unit_interval.
  - assumption.
  - now apply Math_min_lower.
  - now apply Math_max_upper.
Qed.

Lemma normalizeData_entries_in_unit_interval_witness :
  exists nf row,
    normalizeData (host := Samples.three_customers_host) Samples.three_customers ["id"%string]
    = Ok nf
    /\ nth_error (normalized nf) 1 = Some row
    /\ (0 <=? JS.idx row 0)%float = true
    /\ (JS.idx row 0 <=? 1)%float = true.
Proof.
  exists {| normalized := [[0; 0]; [0x1.c71c71c71c71cp-4; 0x1.c71c71c71c71cp-4]; [1; 1]]%float;
            features := ["spend"; "visits"]%string |}.
  exists [0x1.c71c71c71c71cp-4; 0x1.c71c71c71c71cp-4]%float.
  split; [reflexivity|]; split; [reflexivity|].
  destruct (normalizeData_entries_in_unit_interval
              Samples.three_customers_host
              (hd [] Samples.three_customers) (tl Samples.three_customers)
              ["id"%string]
              {| normalized := [[0; 0]; [0x1.c71c71c71c71cp-4; 0x1.c71c71c71c71cp-4]; [1; 1]]%float;
                 features := ["spend"; "visits"]%string |}
              0 [0x1.c71c71c71c71cp-4; 0x1.c71c71c71c71cp-4]%float) as (H0 & H1 & _).
  - reflexivity.
  - cbn. lia.
  - right; left; reflexivity.
  - vm_compute. reflexivity.
  - split; [exact H0|exact H1].
Defined.

(** ** The silhouette score never throws on a rectangular matrix *)

Section SilhouetteTotal.

Lemma filteri_from_Forall (A : Type) (P : A -> Prop) (p : A -> nat -> bool)
      (l : list A) (i : nat) :
  Forall P l -> Forall P (JS.filteri_from p i l).
Proof.
  intros H; revert i; induction H as [|x l Hx Hl IH]; intros i; simpl.
  - constructor.
  - destruct (p x i); [constructor; [assumption|]|]; apply IH.
Qed.

Lemma euclidean_returns (a b : list float) :
  List.length b = List.length a -> exists d, euclidean a b = Ok d.
Proof.
  intros H; unfold euclidean.
  rewrite H, Nat.eqb_refl; simpl.
  eexists; reflexivity.
Qed.

Lemma sum_distances_returns (p : list float) (points : list (list float)) :
  Forall (fun q => List.length q = List.length p) points ->
  exists total, sum_distances p points = Ok total.
Proof.
  unfold sum_distances; generalize 0%float as acc.
  intros acc H; revert acc; induction H as [|q points Hq _ IH]; intros acc; simpl.
  - eexists; reflexivity.
  - destruct (euclidean_returns p q Hq) as (d & ->); simpl. apply IH.
Qed.

Variable width : nat.
Variable matrix : list (list float).
Hypothesis rectangular : Forall (fun row => List.length row = width) matrix.

Lemma row_width (i : nat) :
  (i < List.length matrix)%nat -> List.length (nth i matrix []) = width.
Proof.
  intros Hi.
  apply (proj1 (Forall_forall _ matrix) rectangular).
  now apply nth_In.
Qed.

Lemma selection_width (p : list float -> nat -> bool) (i : nat) :
  (i < List.length matrix)%nat ->
  Forall (fun q => List.length q = List.length (nth i matrix [])) (JS.filteri p matrix).
Proof.
  intros Hi; rewrite (row_width i Hi).
  now apply filteri_from_Forall.
Qed.

Lemma silhouette_returns (labels : list Z) (i : nat) :
  (i < List.length matrix)%nat -> exists s, silhouette matrix labels i = Ok s.
Proof.
  intros Hi; unfold silhouette.
  assert (Ha : exists aI, intra_distance matrix labels i = Ok aI).
  { unfold intra_distance.
    match goal with |- context [JS.filteri ?p matrix] => set (same := JS.filteri p matrix);
      pose proof (selection_width p i Hi) as Hsame; fold same in Hsame end.
    destruct (0 <? List.length same)%nat; [|eexists; reflexivity].
    destruct (sum_distances_returns _ _ Hsame) as (t & ->); simpl.
    eexists; reflexivity. }
  assert (Hb : exists bI, nearest_distance matrix labels i = Ok bI).
  { unfold nearest_distance.
    generalize infinity as acc.
    match goal with |- context [foldM _ ?cs] => generalize cs as others end.
    induction others as [|c others IH]; intros acc; simpl; [eexists; reflexivity|].
    match goal with |- context [JS.filteri ?p matrix] => set (other := JS.filteri p matrix);
      pose proof (selection_width p i Hi) as Hother; fold other in Hother end.
    destruct (0 <? List.length other)%nat; simpl; [|apply IH].
    destruct (sum_distances_returns _ _ Hother) as (t & ->); simpl. apply IH. }
  destruct Ha as (aI & ->), Hb as (bI & ->); simpl.
  eexists; reflexivity.
Qed.

Lemma calculateSilhouetteScore_returns (labels : list Z) :
  exists score, calculateSilhouetteScore matrix labels = Ok score.
Proof.
  unfold calculateSilhouetteScore.
  assert (H : forall (ixs : list nat) acc,
             Forall (fun i => (i < List.length matrix)%nat) ixs ->
             exists total,
               foldM (fun totalScore i =>
                        s <- silhouette matrix labels i ;; Ok (totalScore + s)%float)
                     ixs acc = Ok total).
  { induction ixs as [|i ixs IH]; intros acc Hixs; simpl; [eexists; reflexivity|].
    inversion Hixs as [|? ? Hi Hixs']; subst.
    destruct (silhouette_returns labels i Hi) as (s & ->); simpl. now apply IH. }
  destruct (H (seq 0 (List.length matrix)) 0%float) as (total & ->).
  - apply Forall_forall; intros i Hi. apply in_seq in Hi. lia.
  - simpl; eexists; reflexivity.
Qed.

End SilhouetteTotal.

(** C4 (the code departs from the claim): two coincident points in two
    clusters.  For each point [a(i) = 0] and [b(i) = 0], the quotient is
    [0 / 0], and the score is NaN. *)
Theorem silhouette_of_coincident_points_is_nan :
  silhouette [[0; 0]; [0; 0]]%float [0; 1]%Z 0 = Ok nan
  /\ intra_distance [[0; 0]; [0; 0]]%float [0; 1]%Z 0 = Ok 0%float
  /\ nearest_distance [[0; 0]; [0; 0]]%float [0; 1]%Z 0 = Ok 0%float
  /\ calculateSilhouetteScore [[0; 0]; [0; 0]]%float [0; 1]%Z = Ok nan.
Proof.
  repeat split; vm_compute; reflexivity.
Qed.

(** ** One clustering run *)

Section Pipeline.

Context {host : Host}.

Lemma performClustering_empty (k : Z) :
  performClustering [] k = Throw TypeError.
Proof. reflexivity. Qed.

(** Normalisation comes first: what it throws, the run throws. *)
Lemma performClustering_normalize_throws (data : list CustomerRecord) (k : Z) (e : exn) :
  normalizeData data ["id"%string] = Throw e -> performClustering data k = Throw e.
Proof. intros H; unfold performClustering. now rewrite H. Qed.

Lemma performClustering_guard (data : list CustomerRecord) (k : Z) (nf : Normalized) :
  normalizeData data ["id"%string] = Ok nf ->
  (Z.of_nat (List.length data) < k)%Z ->
  performClustering data k = Throw (NotEnoughDataPoints k).
Proof.
  intros Hnf Hk; unfold performClustering.
  destruct data as [|first rest]; [discriminate|].
  destruct (normalizeData_Ok_shape first rest _ nf Hnf) as (_ & _ & Hlen & _).
  rewrite Hnf; cbn [bind]. rewrite Hlen.
  cbn [List.length] in Hk.
  now apply Z.ltb_lt in Hk as ->.
Qed.

(** With fewer records than clusters a run throws, one way or another. *)
Lemma performClustering_throws_above (data : list CustomerRecord) (k : Z) :
  (Z.of_nat (List.length data) < k)%Z -> exists e, performClustering data k = Throw e.
Proof.
  intros Hk.
  destruct (normalizeData data ["id"%string]) as [nf|e] eqn:Hnf.
  - eexists. now apply (performClustering_guard data k nf).
  - exists e. now apply performClustering_normalize_throws.
Qed.

(** Everything a successful run is made of. *)
Lemma performClustering_Ok_inv (data : list CustomerRecord) (k : Z) (a : ClusterAnalysis) :
  performClustering data k = Ok a ->
  exists nf res,
    normalizeData data ["id"%string] = Ok nf
    /\ (k <= Z.of_nat (List.length data))%Z
    /\ kmeans (normalized nf) k 100 = Ok res
    /\ clusters a = label_records res data
    /\ centroids a = km_centroids res
    /\ calculateSilhouetteScore (normalized nf) (km_clusters res) = Ok (silhouetteScore a)
    /\ clusterSummaries a = map (summarize (label_records res data) (features nf)) (upto k).
Proof.
  destruct data as [|first rest]; [discriminate|].
  unfold performClustering.
  destruct (normalizeData (first :: rest) ["id"%string]) as [nf|e] eqn:Hnf; [|discriminate].
  destruct (normalizeData_Ok_shape first rest _ nf Hnf) as (_ & _ & Hlen & _).
  cbn [bind]. rewrite Hlen.
  destruct (Z.ltb_spec (Z.of_nat (S (List.length rest))) k) as [|Hk]; [discriminate|].
  destruct (kmeans (normalized nf) k 100) as [res|e] eqn:Hkm; [|discriminate].
  cbn [bind].
  destruct (calculateSilhouetteScore (normalized nf) (km_clusters res)) as [score|e] eqn:Hs;
    [|discriminate].
  cbn [bind]. intros [= <-].
  exists nf, res; cbn; repeat split; auto.
Qed.

(** A run returns as soon as the guard passes and [kmeans] returns, and
    throws what [kmeans] throws. *)
Lemma performClustering_returns (data : list CustomerRecord) (k : Z)
      (nf : Normalized) (res : KMeansResult) :
  normalizeData data ["id"%string] = Ok nf ->
  (k <= Z.of_nat (List.length data))%Z ->
  kmeans (normalized nf) k 100 = Ok res ->
  exists a, performClustering data k = Ok a.
Proof.
  intros Hnf Hk Hkm.
  destruct data as [|first rest]; [discriminate|].
  unfold performClustering.
  destruct (normalizeData_Ok_shape first rest _ nf Hnf) as (_ & _ & Hlen & Hrect).
  rewrite Hnf; cbn [bind]. rewrite Hlen.
  destruct (Z.ltb_spec (Z.of_nat (S (List.length rest))) k) as [Hlt|_];
    [cbn [List.length] in Hk; lia|].
  rewrite Hkm; cbn [bind].
  destruct (calculateSilhouetteScore_returns _ _ Hrect (km_clusters res)) as (score & ->).
  cbn [bind]. eexists; reflexivity.
Qed.

Lemma performClustering_library_throws (data : list CustomerRecord) (k : Z)
      (nf : Normalized) (e : exn) :
  normalizeData data ["id"%string] = Ok nf ->
  (k <= Z.of_nat (List.length data))%Z ->
  kmeans (normalized nf) k 100 = Throw e ->
  performClustering data k = Throw e.
Proof.
  intros Hnf Hk Hkm.
  destruct data as [|first rest]; [discriminate|].
  unfold performClustering.
  destruct (normalizeData_Ok_shape first rest _ nf Hnf) as (_ & _ & Hlen & _).
  rewrite Hnf; cbn [bind]. rewrite Hlen.
  destruct (Z.ltb_spec (Z.of_nat (S (List.length rest))) k) as [Hlt|_];
    [cbn [List.length] in Hk; lia|].
  now rewrite Hkm.
Qed.

End Pipeline.

(** C1 (claim as stated fails): three records and [k = 3].  The guard
    compares with [<], the run goes on to [kmeans] and returns an
    analysis with three singleton clusters. *)
Lemma performClustering_three_of_three_returns :
  List.length Samples.three_customers = 3%nat
  /\ exists analysis,
       performClustering (host := Samples.three_customers_host) Samples.three_customers 3
       = Ok analysis
       /\ map count (clusterSummaries analysis) = [1; 1; 1]%nat.
Proof.
  split; [reflexivity|].
  eexists; split; [vm_compute; reflexivity|reflexivity].
Qed.

(** C1 (amended): a run on a non-empty dataset of [n] records normalises
    first.  Normalisation returns when the first record has no numeric
    feature besides [id] or [n] is within the number of arguments the
    engine accepts; otherwise it throws a RangeError, and so does the
    run, whatever [k] is.  Once normalisation has returned, the run
    signals the not-enough-data error whenever [k > n], whatever [kmeans]
    would do, since the guard comes before the call; with [k <= n] (so
    also [k = n]) the guard passes and the outcome is that of [kmeans]:
    the run returns if [kmeans] returns and throws what [kmeans]
    throws. *)
Theorem performClustering_rejects_k_above_n
        (host : Host) (first : CustomerRecord) (rest : list CustomerRecord) (k : Z) :
  let data := first :: rest in
  let n := Z.of_nat (List.length data) in
  (select_features first ["id"%string] = [] \/ (n <= max_arguments)%Z ->
   exists nf,
     normalizeData data ["id"%string] = Ok nf
     /\ ((n < k)%Z -> performClustering data k = Throw (NotEnoughDataPoints k))
     /\ ((k <= n)%Z ->
         match kmeans (normalized nf) k 100 with
         | Ok _ => exists a, performClustering data k = Ok a
         | Throw e => performClustering data k = Throw e
         end))
  /\ (select_features first ["id"%string] <> [] -> (max_arguments < n)%Z ->
      normalizeData data ["id"%string] = Throw RangeError
      /\ performClustering data k = Throw RangeError).
Proof.
  intros data n; split.
  - intros Hfit. apply within_call_limit_spec in Hfit.
    destruct (normalizeData_cons first rest ["id"%string] Hfit) as (nf & Hnf & _).
    exists nf; split; [assumption|]; split.
    + now apply (performClustering_guard data k nf).
    + intros Hk.
      destruct (kmeans (normalized nf) k 100) as [res|e] eqn:Hkm.
      * now apply (performClustering_returns data k nf res).
      * now apply (performClustering_library_throws data k nf e).
  - intros Hne Hover.
    assert (Hthrow : normalizeData data ["id"%string] = Throw RangeError).
    { apply normalizeData_overflow.
      destruct (within_call_limit (first :: rest) ["id"%string]) eqn:Hfit; [|reflexivity].
      apply within_call_limit_spec in Hfit as [Hnil|Hle]; [congruence|].
      fold data n in Hle. lia. }
    split; [assumption|]. now apply performClustering_normalize_throws.
Qed.

Lemma performClustering_rejects_k_above_n_witness :
  performClustering (host := Samples.three_customers_host) Samples.three_customers 4
  = Throw (NotEnoughDataPoints 4).
Proof.
  destruct (performClustering_rejects_k_above_n
              Samples.three_customers_host
              (hd [] Samples.three_customers) (tl Samples.three_customers) 4)
    as (Hfit & _).
  destruct Hfit as (nf & _ & Hguard & _).
  - right. vm_compute. discriminate.
  - apply Hguard. vm_compute. reflexivity.
Defined.

(** ** The scan over candidate cluster counts *)

Section Scan.

Context {host : Host}.

Lemma candidates_range (maxK : Z) (n : nat) (k : Z) :
  In k (candidates maxK n) <-> (2 <= k <= Z.min maxK (Z.of_nat n))%Z.
Proof.
  unfold candidates; rewrite in_map_iff; split.
  - intros (i & <- & Hi). apply in_seq in Hi. lia.
  - intros Hk. exists (Z.to_nat (k - 2)); split; [lia|].
    apply in_seq. lia.
Qed.

Lemma candidates_ascending (maxK : Z) (n : nat) :
  forall i, (S i < List.length (candidates maxK n))%nat ->
            nth (S i) (candidates maxK n) 0%Z = (nth i (candidates maxK n) 0%Z + 1)%Z.
Proof.
  unfold candidates; intros i Hi.
  rewrite length_map, length_seq in Hi.
  set (f := fun i : nat => (2 + Z.of_nat i)%Z).
  rewrite (nth_indep _ 0%Z (f 0%nat)), (nth_indep _ 0%Z (f 0%nat) (n := i))
    by (rewrite length_map, length_seq; lia).
  rewrite !map_nth, !seq_nth by lia.
  unfold f; lia.
Qed.

Lemma candidates_first (maxK : Z) (n : nat) :
  candidates maxK n <> [] -> hd 0%Z (candidates maxK n) = 2%Z.
Proof.
  unfold candidates.
  destruct (Z.to_nat (Z.min maxK (Z.of_nat n) - 1)); [intros H; now elim H|reflexivity].
Qed.

(** What the loop leaves in [scores]: the entries it started with, then
    one recorded score per candidate, in order, up to the first candidate
    that throws. *)
Lemma scan_spec (data : list CustomerRecord) (ks : list Z) (scores : list ScoreEntry) :
  exists pushed untried,
    scan data ks scores = Ok (scores ++ pushed)
    /\ ks = map sc_k pushed ++ untried
    /\ Forall (recorded data) pushed
    /\ stopped_by_throw data untried.
Proof.
  revert scores; induction ks as [|k ks IH]; intros scores.
  - exists [], []; cbn. rewrite app_nil_r. repeat split; constructor.
  - cbn [scan].
    destruct (performClustering data k) as [a|e] eqn:Hrun; cbn [bind try_catch].
    + destruct (IH (scores ++ [{| sc_k := k; sc_score := silhouetteScore a |}]))
        as (pushed & untried & Hscan & Hks & Hrec & Hstop).
      exists ({| sc_k := k; sc_score := silhouetteScore a |} :: pushed), untried.
      rewrite Hscan, <- app_assoc; cbn.
      repeat split; try assumption.
      * now rewrite Hks.
      * constructor; [|assumption]. exists a; cbn; auto.
    + exists [], (k :: ks); cbn. rewrite app_nil_r.
      repeat split; [constructor|]. now exists e.
Qed.

Lemma best_of_In (first : ScoreEntry) (rest : list ScoreEntry) :
  In (best_of first rest) (first :: rest).
Proof.
  unfold best_of; revert first; induction rest as [|c rest IH]; intros first; cbn.
  - now left.
  - destruct (IH (if (sc_score first <? sc_score c)%float then c else first)) as [H|H].
    + destruct (sc_score first <? sc_score c)%float; rewrite <- H; auto.
    + auto.
Qed.

(** The function returns, and returns the outcome of the scan. *)
Lemma findOptimalClusters_spec (data : list CustomerRecord) (maxK : Z) :
  exists r untried,
    findOptimalClusters data maxK = Ok r
    /\ candidates maxK (List.length data) = map sc_k (opt_scores r) ++ untried
    /\ Forall (recorded data) (opt_scores r)
    /\ stopped_by_throw data untried
    /\ match opt_scores r with
       | [] => opt_k r = 2%Z
       | first :: rest => opt_k r = sc_k (best_of first rest)
       end.
Proof.
  unfold findOptimalClusters.
  destruct (scan_spec data (candidates maxK (List.length data)) [])
    as (pushed & untried & -> & Hks & Hrec & Hstop).
  cbn [app bind].
  destruct pushed as [|first rest]; eexists; exists untried;
    (split; [reflexivity|]); cbn [opt_scores opt_k]; auto.
Qed.

(** Two ways of cutting the candidates at the first throw agree. *)
Lemma first_throw_unique (data : list CustomerRecord)
      (tried : list ScoreEntry) (untried pre post : list Z) (j : Z) (e : exn) :
  map sc_k tried ++ untried = pre ++ j :: post ->
  Forall (recorded data) tried ->
  stopped_by_throw data untried ->
  (forall k, In k pre -> exists a, performClustering data k = Ok a) ->
  performClustering data j = Throw e ->
  map sc_k tried = pre.
Proof.
  revert pre; induction tried as [|s tried IH]; intros pre Heq Hrec Hstop Hpre Hj.
  - destruct pre as [|p pre]; [reflexivity|exfalso].
    cbn in Heq; subst untried.
    destruct Hstop as (e' & He'), (Hpre p (or_introl eq_refl)) as (a & Ha). congruence.
  - inversion Hrec as [|? ? (a & Ha & _) Hrec']; subst.
    destruct pre as [|p pre]; cbn in Heq.
    + injection Heq as Hs _. rewrite Hs in Ha. congruence.
    + injection Heq as Hs Heq. cbn; f_equal; [assumption|].
      apply IH; auto. intros k Hk; apply Hpre; now right.
Qed.

(** When the run for the first candidate returns, its score is the first
    one recorded. *)
Lemma first_candidate_scored (data : list CustomerRecord) (maxK : Z)
      (scores : list ScoreEntry) (untried : list Z) (a : ClusterAnalysis) :
  candidates maxK (List.length data) = map sc_k scores ++ untried ->
  Forall (recorded data) scores ->
  stopped_by_throw data untried ->
  In 2%Z (candidates maxK (List.length data)) ->
  performClustering data 2 = Ok a ->
  exists first rest,
    scores = first :: rest /\ sc_k first = 2%Z /\ sc_score first = silhouetteScore a.
Proof.
  intros Hks Hrec Hstop Hin Hrun.
  assert (Hhd : hd 0%Z (candidates maxK (List.length data)) = 2%Z).
  { apply candidates_first. intros Hnil. now rewrite Hnil in Hin. }
  destruct scores as [|first rest].
  - exfalso. cbn [map app] in Hks. rewrite Hks in Hhd.
    destruct untried as [|j untried]; [now rewrite Hks in Hin|].
    cbn [hd] in Hhd. subst j. destruct Hstop as (e & He). congruence.
  - exists first, rest. split; [reflexivity|].
    rewrite Hks in Hhd. cbn [map app hd] in Hhd.
    split; [assumption|].
    inversion Hrec as [|? ? (a' & Ha' & Hscore) _]; subst.
    rewrite Hhd, Hrun in Ha'. congruence.
Qed.

(** When the run returns for every candidate, none is left untried. *)
Lemma all_candidates_scored (data : list CustomerRecord) (maxK : Z)
      (scores : list ScoreEntry) (untried : list Z) :
  candidates maxK (List.length data) = map sc_k scores ++ untried ->
  stopped_by_throw data untried ->
  (forall k, In k (candidates maxK (List.length data)) ->
             exists a, performClustering data k = Ok a) ->
  untried = [].
Proof.
  intros Hks Hstop Hall.
  destruct untried as [|j rest]; [reflexivity|exfalso].
  destruct Hstop as (e & He).
  destruct (Hall j) as (a & Ha); [rewrite Hks; apply in_or_app; right; now left|].
  congruence.
Qed.

End Scan.

(** C10: [findOptimalClusters] returns normally for every dataset and
    every [maxK].  Whatever a run throws at some candidate, after runs
    that returned for all candidates before it, the scan stops there:
    the scores are those of the earlier candidates, each the score of its
    run, and with no earlier candidate the answer is [k = 2] with no
    scores. *)
Theorem findOptimalClusters_never_throws
        (host : Host) (data : list CustomerRecord) (maxK : Z) :
  exists r,
    findOptimalClusters data maxK = Ok r
    /\ Forall (recorded data) (opt_scores r)
    /\ forall (pre post : list Z) (j : Z) (e : exn),
         candidates maxK (List.length data) = pre ++ j :: post ->
         (forall k, In k pre -> exists a, performClustering data k = Ok a) ->
         performClustering data j = Throw e ->
         map sc_k (opt_scores r) = pre
         /\ (pre = [] -> opt_k r = 2%Z /\ opt_scores r = []).
Proof.
  destruct (findOptimalClusters_spec data maxK) as (r & untried & Hr & Hks & Hrec & Hstop & Hk).
  exists r; split; [assumption|]; split; [assumption|].
  intros pre post j e Hcut Hpre Hj.
  rewrite Hks in Hcut.
  pose proof (first_throw_unique data _ _ _ _ _ _ Hcut Hrec Hstop Hpre Hj) as Htried.
  split; [assumption|].
  intros ->. destruct (opt_scores r); [auto|discriminate].
Qed.

(** C2 (claim as stated fails): three records and [maxK = 8].  The loop
    bound is [min(maxK, n)], so [k = 3 = n] is tried; its three singleton
    clusters score 1 and win, and the answer is above [min(maxK, n - 1) = 2]. *)
Lemma findOptimalClusters_returns_k_equal_n :
  exists r,
    findOptimalClusters (host := Samples.three_customers_host) Samples.three_customers 8 = Ok r
    /\ opt_scores r <> []
    /\ map sc_k (opt_scores r) = [2; 3]%Z
    /\ opt_k r = 3%Z
    /\ ~ (2 <= opt_k r <= Z.min 8 (Z.of_nat (List.length Samples.three_customers) - 1))%Z.
Proof.
  eexists; split; [vm_compute; reflexivity|]; cbn.
  repeat split; [discriminate|lia].
Qed.

(** C2 (amended): the candidates are the integers from 2 up to
    [min(maxK, n)] inclusive, in ascending order.  The function tries
    them in that order and stops at the first whose run throws: the
    recorded scores are those of the candidates before it, each the
    score of its run, and all of them when every run returns.  When the
    run for the first candidate [k = 2] returns, at least one score is
    recorded, and the returned [k] is one of the recorded candidates and
    lies in [[2, min(maxK, n)]]. *)
Theorem findOptimalClusters_k_in_range
        (host : Host) (data : list CustomerRecord) (maxK : Z) :
  let n := List.length data in
  (forall k, In k (candidates maxK n) <-> (2 <= k <= Z.min maxK (Z.of_nat n))%Z)
  /\ (forall i, (S i < List.length (candidates maxK n))%nat ->
                nth (S i) (candidates maxK n) 0%Z = (nth i (candidates maxK n) 0%Z + 1)%Z)
  /\ exists r untried,
       findOptimalClusters data maxK = Ok r
       /\ candidates maxK n = map sc_k (opt_scores r) ++ untried
       /\ Forall (recorded data) (opt_scores r)
       /\ stopped_by_throw data untried
       /\ ((forall k, In k (candidates maxK n) -> exists a, performClustering data k = Ok a) ->
           map sc_k (opt_scores r) = candidates maxK n)
       /\ (forall a, (2 <= Z.min maxK (Z.of_nat n))%Z -> performClustering data 2 = Ok a ->
             opt_scores r <> []
             /\ In (opt_k r) (map sc_k (opt_scores r))
             /\ (2 <= opt_k r <= Z.min maxK (Z.of_nat n))%Z)
       /\ (opt_scores r <> [] ->
           In (opt_k r) (map sc_k (opt_scores r))
           /\ (2 <= opt_k r <= Z.min maxK (Z.of_nat n))%Z).
Proof.
  intros n; split; [apply candidates_range|]; split; [apply candidates_ascending|].
  destruct (findOptimalClusters_spec data maxK)
    as (r & untried & Hr & Hks & Hrec & Hstop & Hk).
  fold n in Hks.
  assert (Hrange : opt_scores r <> [] ->
                   In (opt_k r) (map sc_k (opt_scores r))
                   /\ (2 <= opt_k r <= Z.min maxK (Z.of_nat n))%Z).
  { intros Hne.
    destruct (opt_scores r) as [|first rest] eqn:Hscores; [congruence|].
    assert (Hin : In (opt_k r) (map sc_k (first :: rest))).
    { rewrite Hk. apply in_map, best_of_In. }
    split; [assumption|].
    apply (candidates_range maxK n). rewrite Hks.
    apply in_or_app; now left. }
  exists r, untried; split; [assumption|]; split; [assumption|]; split; [assumption|].
  split; [assumption|]; split; [|split; [|assumption]].
  - intros Hall.
    rewrite (all_candidates_scored data maxK _ _ Hks Hstop Hall) in Hks.
    now rewrite app_nil_r in Hks.
  - intros a Hmin Hrun.
    assert (Hin : In 2%Z (candidates maxK n)) by (apply candidates_range; lia).
    destruct (first_candidate_scored data maxK _ _ a Hks Hrec Hstop Hin Hrun)
      as (first & rest & Hscores & _).
    assert (Hne : opt_scores r <> []) by (rewrite Hscores; discriminate).
    split; [assumption|]. now apply Hrange.
Qed.

(** ** The choice of the best score *)

Section BestScore.

Local Open Scope float_scope.

Lemma first_maximum_step (pre post : list ScoreEntry) (best current : ScoreEntry) :
  first_maximum pre best post ->
  if sc_score best <? sc_score current
  then first_maximum (pre ++ best :: post) current []
  else first_maximum pre best (post ++ [current]).
Proof.
  intros (Hmax & Hfirst).
  destruct (sc_score best <? sc_score current) eqn:Hlt; split.
  - intros e He. apply in_app_or in He as [He|[<-|[]]]; [|apply ltb_irrefl].
    specialize (Hmax e He).
    destruct (sc_score current <? sc_score e) eqn:Hce; [|reflexivity].
    now rewrite (ltb_trans _ _ _ Hlt Hce) in Hmax.
  - intros e He. specialize (Hmax e He).
    destruct (sc_score e =? sc_score current) eqn:Heq; [|reflexivity].
    now rewrite (ltb_eqb_r _ _ _ Hlt Heq) in Hmax.
  - intros e He.
    change (pre ++ best :: post ++ [current]) with (pre ++ (best :: post) ++ [current]) in He.
    rewrite app_assoc in He.
    apply in_app_or in He as [He|[<-|[]]]; [now apply Hmax|assumption].
  - assumption.
Qed.

Lemma best_of_first_maximum (first : ScoreEntry) (rest : list ScoreEntry) :
  exists pre post,
    first :: rest = pre ++ best_of first rest :: post
    /\ first_maximum pre (best_of first rest) post.
Proof.
  unfold best_of.
  assert (H : forall rest pre best post,
             first_maximum pre best post ->
             let b := fold_left (fun best current =>
                                   if sc_score best <? sc_score current then current else best)
                                rest best in
             exists pre' post',
               (pre ++ best :: post) ++ rest = pre' ++ b :: post'
               /\ first_maximum pre' b post').
  { clear; induction rest as [|c rest IH]; intros pre best post Hinv; cbn.
    - exists pre, post. now rewrite app_nil_r.
    - pose proof (first_maximum_step pre post best c Hinv) as Hstep.
      destruct (sc_score best <? sc_score c).
      + destruct (IH _ _ _ Hstep) as (pre' & post' & Heq & Hinv').
        exists pre', post'; split; [|assumption].
        rewrite <- Heq. now rewrite <- !app_assoc.
      + destruct (IH _ _ _ Hstep) as (pre' & post' & Heq & Hinv').
        exists pre', post'; split; [|assumption].
        rewrite <- Heq. rewrite <- !app_assoc. cbn. now rewrite <- app_assoc. }
  apply (H rest [] first []).
  split; [|intros e []].
  intros e [<-|[]]. apply ltb_irrefl.
Qed.

(** The recorded candidates increase along the score list. *)
Lemma candidates_cut (maxK : Z) (n : nat) (l1 l2 : list Z) (x : Z) :
  candidates maxK n = l1 ++ x :: l2 ->
  (forall y, In y l1 -> (y < x)%Z) /\ (forall y, In y l2 -> (x < y)%Z).
Proof.
  unfold candidates.
  generalize (Z.to_nat (Z.min maxK (Z.of_nat n) - 1)) as len.
  generalize 0%nat as start.
  set (f := fun i : nat => (2 + Z.of_nat i)%Z).
  assert (Hf : forall i j, (i < j)%nat -> (f i < f j)%Z) by (unfold f; intros; lia).
  clearbody f.
  intros start len; revert start len; induction l1 as [|z l1 IH]; intros start len Heq.
  - destruct len as [|len]; [discriminate|]. cbn [seq map app] in Heq. injection Heq as <- <-.
    split; [intros y []|].
    intros y Hy. apply in_map_iff in Hy as (i & <- & Hi). apply in_seq in Hi.
    apply Hf; lia.
  - destruct len as [|len]; [discriminate|]. cbn [seq map app] in Heq. injection Heq as <- Heq.
    destruct (IH _ _ Heq) as (H1 & H2). split; [|assumption].
    intros y [<-|Hy]; [|now apply H1].
    assert (Hx : In x (map f (seq (S start) len)))
      by (rewrite Heq; apply in_or_app; right; now left).
    apply in_map_iff in Hx as (i & <- & Hi). apply in_seq in Hi.
    apply Hf; lia.
Qed.

(** A NaN first score is never replaced; a first score that is a number
    is only replaced by numbers, and the outcome is then at least every
    number among the scores. *)
Lemma best_of_nan_first (first : ScoreEntry) (rest : list ScoreEntry) :
  is_nan (sc_score first) = true -> best_of first rest = first.
Proof.
  intros Hnan; unfold best_of.
  induction rest as [|c rest IH]; cbn [fold_left]; [reflexivity|].
  destruct (sc_score first <? sc_score c) eqn:Hlt; [exfalso|assumption].
  by_values.
Qed.

Lemma best_of_number (first : ScoreEntry) (rest : list ScoreEntry) :
  is_nan (sc_score first) = false ->
  is_nan (sc_score (best_of first rest)) = false
  /\ forall e, In e (first :: rest) -> is_nan (sc_score e) = false ->
                (sc_score e <=? sc_score (best_of first rest)) = true.
Proof.
  intros Hfirst.
  assert (Hbest : is_nan (sc_score (best_of first rest)) = false).
  { unfold best_of. revert first Hfirst.
    induction rest as [|c rest IH]; intros first Hfirst; cbn [fold_left]; [assumption|].
    apply IH.
    destruct (sc_score first <? sc_score c) eqn:Hlt; [|assumption].
    destruct (is_nan (sc_score c)) eqn:Hc; [exfalso|reflexivity].
    by_values. }
  split; [assumption|].
  intros e He Hnum.
  destruct (best_of_first_maximum first rest) as (pre & post & Hcut & Hmax & _).
  apply not_ltb_leb; [|assumption|assumption].
  apply Hmax. now rewrite <- Hcut.
Qed.

End BestScore.

(** C8: the function scores the candidates in ascending order up to the
    first whose run throws, each with the silhouette score of its run.
    When the run for the first candidate returns, so that at least one
    candidate succeeds, the returned [k] is that of a recorded candidate
    whose score no recorded score exceeds, and it is the smallest [k]
    among the candidates with that score.  Scores are compared as the
    code compares them, with [>] on binary64 numbers: if the first score
    is a number, the returned score is a number and is the greatest of
    the recorded numbers, a NaN score being passed over; a NaN in first
    place is kept.  When no candidate succeeds, there being none or the
    first run throwing, the answer is [k = 2] with an empty score
    list. *)
Theorem findOptimalClusters_picks_first_maximum
        (host : Host) (data : list CustomerRecord) (maxK : Z) :
  exists r untried,
    findOptimalClusters data maxK = Ok r
    /\ candidates maxK (List.length data) = map sc_k (opt_scores r) ++ untried
    /\ Forall (recorded data) (opt_scores r)
    /\ stopped_by_throw data untried
    /\ ((forall k a, In k (candidates maxK (List.length data)) ->
                     performClustering data k <> Ok a) ->
        opt_k r = 2%Z /\ opt_scores r = [])
    /\ (candidates maxK (List.length data) = [] \/ (exists e, performClustering data 2 = Throw e) ->
        opt_k r = 2%Z /\ opt_scores r = [])
    /\ (forall a, In 2%Z (candidates maxK (List.length data)) ->
                  performClustering data 2 = Ok a ->
        exists first rest best,
          opt_scores r = first :: rest
          /\ sc_k first = 2%Z /\ sc_score first = silhouetteScore a
          /\ In best (opt_scores r)
          /\ opt_k r = sc_k best
          /\ (forall e, In e (opt_scores r) -> (sc_score best <? sc_score e)%float = false)
          /\ (forall e, In e (opt_scores r) ->
                        (sc_score e =? sc_score best)%float = true ->
                        (sc_k best <= sc_k e)%Z)
          /\ (is_nan (sc_score first) = false ->
              is_nan (sc_score best) = false
              /\ forall e, In e (opt_scores r) -> is_nan (sc_score e) = false ->
                           (sc_score e <=? sc_score best)%float = true)
          /\ (is_nan (sc_score first) = true -> best = first)
          /\ ((forall e, In e (opt_scores r) -> is_nan (sc_score e) = false) ->
              forall e, In e (opt_scores r) -> (sc_score e <=? sc_score best)%float = true)).
Proof.
  destruct (findOptimalClusters_spec data maxK)
    as (r & untried & Hr & Hks & Hrec & Hstop & Hk).
  exists r, untried.
  split; [assumption|]; split; [assumption|]; split; [assumption|]; split; [assumption|].
  assert (Hempty : opt_scores r = [] -> opt_k r = 2%Z /\ opt_scores r = []).
  { intros Hnil. rewrite Hnil in Hk. auto. }
  split; [|split].
  - intros Hnone. apply Hempty.
    destruct (opt_scores r) as [|first rest]; [reflexivity|exfalso].
    inversion Hrec as [|? ? (a & Ha & _) _]; subst.
    apply (Hnone (sc_k first) a); [|assumption].
    rewrite Hks. now left.
  - intros Hnone. apply Hempty.
    destruct (opt_scores r) as [|first rest]; [reflexivity|exfalso].
    destruct Hnone as [Hnil|(e & He)].
    + rewrite Hnil in Hks. discriminate.
    + assert (Hhd : hd 0%Z (candidates maxK (List.length data)) = 2%Z)
        by (apply candidates_first; rewrite Hks; discriminate).
      rewrite Hks in Hhd. cbn [map app hd] in Hhd.
      inversion Hrec as [|? ? (a & Ha & _) _]; subst.
      rewrite Hhd in Ha. congruence.
  - intros a Hin Hrun.
    destruct (first_candidate_scored data maxK _ _ a Hks Hrec Hstop Hin Hrun)
      as (first & rest & Hscores & Hk2 & Hscore).
    rewrite Hscores in *.
    destruct (best_of_first_maximum first rest) as (pre & post & Hcut & Hmax & Hfirst).
    exists first, rest, (best_of first rest).
    split; [reflexivity|]; split; [assumption|]; split; [assumption|].
    split; [apply best_of_In|]; split; [assumption|]; split; [|split; [|split; [|split]]].
    + intros e He. apply Hmax. now rewrite <- Hcut.
    + intros e He Heq.
      rewrite Hcut, map_app in Hks. cbn [map] in Hks. rewrite <- app_assoc in Hks.
      cbn [app] in Hks.
      destruct (candidates_cut _ _ _ _ _ Hks) as (_ & Hafter).
      rewrite Hcut in He. apply in_app_or in He as [He|[<-|He]].
      * rewrite (Hfirst e He) in Heq. discriminate.
      * lia.
      * apply Z.lt_le_incl, Hafter, in_or_app. left. now apply in_map.
    + apply best_of_number.
    + apply best_of_nan_first.
    + intros Hnan e He.
      apply not_ltb_leb; [|apply Hnan; apply best_of_In|now apply Hnan].
      apply Hmax. now rewrite <- Hcut.
Qed.

Lemma findOptimalClusters_picks_first_maximum_witness :
  exists r first rest best,
    findOptimalClusters (host := Samples.three_customers_host) Samples.three_customers 8 = Ok r
    /\ opt_scores r = first :: rest
    /\ sc_k first = 2%Z
    /\ In best (opt_scores r)
    /\ opt_k r = sc_k best
    /\ (forall e, In e (opt_scores r) -> (sc_score best <? sc_score e)%float = false).
Proof.
  destruct (findOptimalClusters_picks_first_maximum
              Samples.three_customers_host Samples.three_customers 8)
    as (r & untried & Hr & _ & _ & _ & _ & _ & Hbest).
  assert (Hrun : exists a,
             performClustering (host := Samples.three_customers_host)
                               Samples.three_customers 2 = Ok a)
    by (eexists; vm_compute; reflexivity).
  destruct Hrun as (a & Ha).
  destruct (Hbest a) as (first & rest & best & H1 & H2 & _ & H3 & H4 & H5 & _).
  - vm_compute. left; reflexivity.
  - exact Ha.
  - exists r, first, rest, best. repeat split; assumption.
Defined.

(** ** Cluster summaries *)

Section Summaries.

Context {host : Host}.

Lemma upto_range (k i : Z) : In i (upto k) <-> (0 <= i < k)%Z.
Proof.
  unfold upto; rewrite in_map_iff; split.
  - intros (j & <- & Hj). apply in_seq in Hj. lia.
  - intros Hi. exists (Z.to_nat i); split; [lia|]. apply in_seq. lia.
Qed.

Lemma upto_nth (k : Z) (j : nat) :
  (j < List.length (upto k))%nat -> nth j (upto k) 0%Z = Z.of_nat j.
Proof.
  unfold upto; rewrite length_map, length_seq; intros Hj.
  change 0%Z with (Z.of_nat 0). now rewrite map_nth, seq_nth.
Qed.

Lemma upto_length (k : Z) : List.length (upto k) = Z.to_nat k.
Proof. unfold upto. now rewrite length_map, length_seq. Qed.


Lemma upto_at (k c : Z) : (0 <= c < k)%Z -> nth_error (upto k) (Z.to_nat c) = Some c.
Proof.
  intros Hc. unfold upto. rewrite nth_error_map.
  assert (Hlt : (Z.to_nat c < List.length (seq 0 (Z.to_nat k)))%nat)
    by (rewrite length_seq; lia).
  apply nth_error_Some in Hlt.
  destruct (nth_error (seq 0 (Z.to_nat k)) (Z.to_nat c)) as [j|] eqn:Hj; [|congruence].
  apply nth_error_nth with (d := 0%nat) in Hj.
  rewrite seq_nth in Hj by lia. cbn [option_map]. f_equal. lia.
Qed.

Lemma upto_NoDup (k : Z) : NoDup (upto k).
Proof.
  unfold upto. apply Injective_map_NoDup; [|apply seq_NoDup].
  intros x y. apply Nat2Z.inj.
Qed.

Lemma summaries_ids (data : list CustomerRecord) (k : Z) (a : ClusterAnalysis) :
  performClustering data k = Ok a -> map clusterId (clusterSummaries a) = upto k.
Proof.
  intros Hrun.
  destruct (performClustering_Ok_inv data k a Hrun) as (nf & res & _ & _ & _ & _ & _ & _ & ->).
  rewrite map_map; cbn. apply map_id.
Qed.

(** Each record is counted by the one summary that carries its label. *)
Lemma one_match (ids : list Z) (c : Z) :
  NoDup ids -> In c ids ->
  list_sum (map (fun i => if JS.strict_eq (Some c) (Some i) then 1%nat else 0%nat) ids) = 1%nat.
Proof.
  cbn [JS.strict_eq].
  induction 1 as [|i ids Hi Hnd IH]; intros Hc; [contradiction|]; cbn [map list_sum].
  destruct (Z.eqb_spec c i) as [->|Hne].
  - assert (H0 : list_sum (map (fun j => if (i =? j)%Z then 1%nat else 0%nat) ids) = 0%nat).
    { clear IH Hnd Hc. induction ids as [|j ids IH]; [reflexivity|]; cbn [map list_sum].
      destruct (Z.eqb_spec i j) as [->|_]; [elim Hi; now left|].
      apply IH. intros H; apply Hi; now right. }
    unfold list_sum in *; cbn [fold_right]. now rewrite H0.
  - destruct Hc as [->|Hc]; [congruence|].
    unfold list_sum in *; cbn [fold_right]. now rewrite IH.
Qed.

Lemma list_sum_map_add (A : Type) (f g : A -> nat) (l : list A) :
  list_sum (map (fun x => (f x + g x)%nat) l) = (list_sum (map f l) + list_sum (map g l))%nat.
Proof.
  unfold list_sum; induction l as [|x l IH]; cbn [map fold_right]; [reflexivity|].
  rewrite IH; lia.
Qed.

Lemma counts_sum (labelled : list ClusterResult) (feats : list string) (ids : list Z) :
  NoDup ids ->
  Forall (fun r => exists c, cluster r = Some c /\ In c ids) labelled ->
  list_sum (map (fun i => count (summarize labelled feats i)) ids) = List.length labelled.
Proof.
  intros Hnd Hall; cbn [summarize count].
  induction Hall as [|r labelled (c & Hc & Hin) _ IH].
  - cbn [filter List.length]. clear Hnd.
    unfold list_sum; induction ids as [|i ids IHi]; cbn [map fold_right]; auto.
  - cbn [List.length].
    change (S (List.length labelled)) with (1 + List.length labelled)%nat.
    rewrite <- IH, <- (one_match ids c Hnd Hin), <- list_sum_map_add.
    f_equal; apply map_ext; intros i.
    cbn [filter]. rewrite Hc.
    destruct (JS.strict_eq (Some c) (Some i)); reflexivity.
Qed.

(** The counts of a run add up to the number of records whenever [kmeans]
    labels every record with a cluster id in [0, k). *)
Lemma summaries_counts (data : list CustomerRecord) (k : Z) (a : ClusterAnalysis) :
  performClustering data k = Ok a ->
  Forall (fun r => exists c, cluster r = Some c /\ (0 <= c < k)%Z) (clusters a) ->
  list_sum (map count (clusterSummaries a)) = List.length data.
Proof.
  intros Hrun Hlab.
  destruct (performClustering_Ok_inv data k a Hrun)
    as (nf & res & _ & _ & _ & Hcl & _ & _ & Hsum).
  rewrite Hsum, map_map, <- Hcl.
  rewrite (counts_sum (clusters a) (features nf) (upto k)).
  - rewrite Hcl. apply mapi_length.
  - apply upto_NoDup.
  - eapply Forall_impl; [|exact Hlab].
    intros r (c & Hc & Hr). exists c; split; [assumption|]. now apply upto_range.
Qed.

Lemma summaries_catalogs (data : list CustomerRecord) (k : Z) (a : ClusterAnalysis)
      (s : ClusterSummary) :
  performClustering data k = Ok a ->
  In s (clusterSummaries a) ->
  (0 <= clusterId s < k)%Z
  /\ color s = catalog_at CLUSTER_COLORS (clusterId s)
  /\ name s = catalog_at CLUSTER_NAMES (clusterId s).
Proof.
  intros Hrun Hs.
  destruct (performClustering_Ok_inv data k a Hrun) as (nf & res & _ & _ & _ & _ & _ & _ & Hsum).
  rewrite Hsum in Hs. apply in_map_iff in Hs as (i & <- & Hi).
  apply upto_range in Hi. cbn. auto.
Qed.

(** A run for [k] clusters returns [k] summaries, and the one at index
    [i] is that of cluster [i]. *)
Lemma summary_of_cluster (data : list CustomerRecord) (k : Z) (a : ClusterAnalysis) (i : Z) :
  performClustering data k = Ok a ->
  List.length (clusterSummaries a) = Z.to_nat k
  /\ ((0 <= i < k)%Z ->
      exists s, nth_error (clusterSummaries a) (Z.to_nat i) = Some s
                /\ In s (clusterSummaries a) /\ clusterId s = i).
Proof.
  intros Hrun.
  destruct (performClustering_Ok_inv data k a Hrun) as (nf & res & _ & _ & _ & _ & _ & _ & Hsum).
  split; [rewrite Hsum, length_map; apply upto_length|].
  intros Hi.
  assert (Hs : nth_error (clusterSummaries a) (Z.to_nat i)
               = Some (summarize (label_records res data) (features nf) i)).
  { rewrite Hsum, nth_error_map, upto_at by lia. reflexivity. }
  eexists; split; [exact Hs|]. split; [|reflexivity].
  eapply nth_error_In; exact Hs.
Qed.

End Summaries.

Lemma catalog_at_mod (catalog : list string) (i : Z) :
  catalog <> [] -> (0 <= i)%Z ->
  catalog_at catalog i
  = nth_error catalog (Z.to_nat (i mod Z.of_nat (List.length catalog)))
  /\ catalog_at catalog i <> None.
Proof.
  intros Hne Hi; unfold catalog_at.
  assert (Hlen : (0 < Z.of_nat (List.length catalog))%Z)
    by (destruct catalog; [congruence|cbn; lia]).
  rewrite Z.rem_mod_nonneg by lia.
  pose proof (Z.mod_pos_bound i _ Hlen) as Hb.
  destruct (Z.ltb_spec (i mod Z.of_nat (List.length catalog)) 0) as [|_]; [lia|].
  split; [reflexivity|]. apply nth_error_Some. lia.
Qed.

(** C9: a run for [k] clusters returns [k] summaries; for every cluster
    id [i] from 0 to [k - 1] the summary at index [i] carries that id,
    and its color and name are the entries of [CLUSTER_COLORS] and
    [CLUSTER_NAMES] at index [i mod catalogLength]; both catalogs hold 8
    entries, so the entry always exists.  Every summary of the run is
    one of these, and two summaries with the same cluster id, from
    whatever runs, carry the same name and color. *)
Theorem summary_name_and_color_from_catalogs
        (host host' : Host) (data data' : list CustomerRecord) (k k' : Z)
        (a a' : ClusterAnalysis) :
  performClustering (host := host) data k = Ok a ->
  performClustering (host := host') data' k' = Ok a' ->
  (8 <= List.length CLUSTER_COLORS)%nat
  /\ (8 <= List.length CLUSTER_NAMES)%nat
  /\ List.length (clusterSummaries a) = Z.to_nat k
  /\ (forall i, (0 <= i < k)%Z ->
        exists s,
          nth_error (clusterSummaries a) (Z.to_nat i) = Some s
          /\ clusterId s = i
          /\ color s = nth_error CLUSTER_COLORS
                         (Z.to_nat (i mod Z.of_nat (List.length CLUSTER_COLORS)))
          /\ name s = nth_error CLUSTER_NAMES
                        (Z.to_nat (i mod Z.of_nat (List.length CLUSTER_NAMES)))
          /\ color s <> None /\ name s <> None)
  /\ (forall s, In s (clusterSummaries a) ->
        (0 <= clusterId s < k)%Z
        /\ color s = nth_error CLUSTER_COLORS
                       (Z.to_nat (clusterId s mod Z.of_nat (List.length CLUSTER_COLORS)))
        /\ name s = nth_error CLUSTER_NAMES
                      (Z.to_nat (clusterId s mod Z.of_nat (List.length CLUSTER_NAMES)))
        /\ color s <> None /\ name s <> None)
  /\ (forall s s', In s (clusterSummaries a) -> In s' (clusterSummaries a') ->
        clusterId s = clusterId s' -> color s = color s' /\ name s = name s')
  /\ (forall i, (0 <= i < k)%Z -> (0 <= i < k')%Z ->
        exists s s',
          nth_error (clusterSummaries a) (Z.to_nat i) = Some s
          /\ nth_error (clusterSummaries a') (Z.to_nat i) = Some s'
          /\ color s = color s' /\ name s = name s').
Proof.
  intros Hrun Hrun'.
  assert (Hentry : forall s, In s (clusterSummaries a) ->
            (0 <= clusterId s < k)%Z
            /\ color s = nth_error CLUSTER_COLORS
                           (Z.to_nat (clusterId s mod Z.of_nat (List.length CLUSTER_COLORS)))
            /\ name s = nth_error CLUSTER_NAMES
                          (Z.to_nat (clusterId s mod Z.of_nat (List.length CLUSTER_NAMES)))
            /\ color s <> None /\ name s <> None).
  { intros s Hs.
    destruct (summaries_catalogs data k a s Hrun Hs) as (Hid & -> & ->).
    destruct (catalog_at_mod CLUSTER_COLORS (clusterId s)) as (Hc & Hc'); [discriminate|lia|].
    destruct (catalog_at_mod CLUSTER_NAMES (clusterId s)) as (Hn & Hn'); [discriminate|lia|].
    auto. }
  assert (Hsame : forall s s', In s (clusterSummaries a) -> In s' (clusterSummaries a') ->
            clusterId s = clusterId s' -> color s = color s' /\ name s = name s').
  { intros s s' Hs Hs' Hid.
    destruct (summaries_catalogs data k a s Hrun Hs) as (_ & -> & ->).
    destruct (summaries_catalogs data' k' a' s' Hrun' Hs') as (_ & -> & ->).
    now rewrite Hid. }
  split; [cbn; lia|]; split; [cbn; lia|].
  split; [apply (summary_of_cluster data k a 0 Hrun)|].
  split; [|split; [assumption|split; [assumption|]]].
  - intros i Hi.
    destruct (summary_of_cluster data k a i Hrun) as (_ & Hat).
    destruct (Hat Hi) as (s & Hnth & Hs & Hid).
    destruct (Hentry s Hs) as (_ & Hc & Hn & Hc' & Hn').
    exists s. rewrite <- Hid at 3 4. auto 7.
  - intros i Hi Hi'.
    destruct (summary_of_cluster data k a i Hrun) as (_ & Hat).
    destruct (summary_of_cluster data' k' a' i Hrun') as (_ & Hat').
    destruct (Hat Hi) as (s & Hnth & Hs & Hid).
    destruct (Hat' Hi') as (s' & Hnth' & Hs' & Hid').
    exists s, s'; split; [assumption|]; split; [assumption|].
    apply Hsame; congruence.
Qed.

Lemma summary_name_and_color_from_catalogs_witness :
  exists a a',
    performClustering (host := Samples.three_customers_host) Samples.three_customers 3 = Ok a
    /\ performClustering (host := Samples.three_twins_host) Samples.three_twins 2 = Ok a'
    /\ (forall i, (0 <= i < 2)%Z ->
          exists s s',
            nth_error (clusterSummaries a) (Z.to_nat i) = Some s
            /\ nth_error (clusterSummaries a') (Z.to_nat i) = Some s'
            /\ color s = color s' /\ name s = name s').
Proof.
  eexists; eexists; split; [vm_compute; reflexivity|]; split; [vm_compute; reflexivity|].
  intros i Hi.
  eapply (summary_name_and_color_from_catalogs
            Samples.three_customers_host Samples.three_twins_host
            Samples.three_customers Samples.three_twins 3 2);
    [vm_compute; reflexivity|vm_compute; reflexivity|lia|lia].
Defined.

(** A summary that counts no member has NaN for every mean: the sum of
    no values is divided by their number, [0 / 0]. *)
Lemma empty_cluster_means (host : Host) (data : list CustomerRecord) (k : Z)
      (a : ClusterAnalysis) (s : ClusterSummary) (feature : string) (mean : float) :
  performClustering data k = Ok a ->
  In s (clusterSummaries a) -> count s = 0%nat ->
  In (feature, mean) (characteristics s) -> mean = nan.
Proof.
  intros Hrun Hs Hcount Hmean.
  destruct (performClustering_Ok_inv data k a Hrun) as (nf & res & _ & _ & _ & _ & _ & _ & Hsum).
  rewrite Hsum in Hs. apply in_map_iff in Hs as (i & <- & _).
  cbn [summarize count characteristics] in Hcount, Hmean.
  apply length_zero_iff_nil in Hcount. rewrite Hcount in Hmean.
  apply in_map_iff in Hmean as (f & [= _ <-] & _).
  reflexivity.
Qed.

(** C5 (the code departs from the claim): three records with the same
    figures and [k = 2].  Both summaries are there, in ascending order,
    and their counts add up to 3, but the empty cluster's means are
    [0 / 0], that is NaN, not 0. *)
Theorem empty_cluster_mean_is_nan :
  exists a,
    performClustering (host := Samples.three_twins_host) Samples.three_twins 2 = Ok a
    /\ map clusterId (clusterSummaries a) = [0; 1]%Z
    /\ map count (clusterSummaries a) = [3; 0]%nat
    /\ map characteristics (clusterSummaries a)
       = [ [("spend", 5); ("visits", 3)]; [("spend", nan); ("visits", nan)] ]%string%float.
Proof.
  eexists; split; [vm_compute; reflexivity|].
  repeat split.
Qed.

(** ** The shape of an analysis *)

Section AnalysisShape.

Context {host : Host}.

Lemma mapi_from_map (A B C : Type) (f : A -> nat -> B) (g : B -> C) (h : A -> C)
      (l : list A) (i : nat) :
  (forall x j, g (f x j) = h x) -> map g (JS.mapi_from f i l) = map h l.
Proof.
  intros Hgf; revert i; induction l as [|x l IH]; intros i; cbn [JS.mapi_from map];
    [reflexivity|].
  now rewrite Hgf, IH.
Qed.

Lemma mapi_from_nth_error (A B : Type) (f : A -> nat -> B) (l : list A) (start i : nat) :
  nth_error (JS.mapi_from f start l) i
  = option_map (fun x => f x (start + i)%nat) (nth_error l i).
Proof.
  revert start i; induction l as [|x l IH]; intros start i.
  - destruct i; reflexivity.
  - destruct i as [|i]; cbn [JS.mapi_from nth_error option_map].
    + now rewrite Nat.add_0_r.
    + rewrite IH. now replace (S start + i)%nat with (start + S i)%nat by lia.
Qed.

Lemma label_records_data (res : KMeansResult) (records : list CustomerRecord) :
  map data (label_records res records) = records.
Proof.
  unfold label_records, JS.mapi.
  rewrite (mapi_from_map _ _ _ _ data (fun r => r)); [apply map_id|reflexivity].
Qed.

Lemma label_records_nth (res : KMeansResult) (records : list CustomerRecord)
      (i : nat) (r : ClusterResult) :
  nth_error (label_records res records) i = Some r ->
  cluster r = nth_error (km_clusters res) i
  /\ centroid r = centroid_of (km_centroids res) (cluster r).
Proof.
  unfold label_records, JS.mapi. rewrite mapi_from_nth_error.
  destruct (nth_error records i) as [record|]; [|discriminate].
  cbn [option_map Nat.add]. intros [= <-]. split; reflexivity.
Qed.

End AnalysisShape.

(** X1: the results of a run are in the order of the input, one per
    record; each carries the label [kmeans] gave to its position and the
    centroid found at that label, none when the label is missing,
    negative or beyond the centroids. *)
Theorem performClustering_results_follow_input
        (host : Host) (records : list CustomerRecord) (k : Z) (a : ClusterAnalysis) :
  performClustering records k = Ok a ->
  map data (clusters a) = records
  /\ exists nf res,
       normalizeData records ["id"%string] = Ok nf
       /\ kmeans (normalized nf) k 100 = Ok res
       /\ centroids a = km_centroids res
       /\ forall i r, nth_error (clusters a) i = Some r ->
            cluster r = nth_error (km_clusters res) i
            /\ centroid r = centroid_of (centroids a) (cluster r).
Proof.
  intros Hrun.
  destruct (performClustering_Ok_inv records k a Hrun)
    as (nf & res & Hnf & _ & Hkm & Hcl & Hcen & _ & _).
  split; [rewrite Hcl; apply label_records_data|].
  exists nf, res; split; [assumption|]; split; [assumption|]; split; [assumption|].
  intros i r Hr. rewrite Hcl in Hr. rewrite Hcen.
  now apply label_records_nth in Hr.
Qed.

Lemma performClustering_results_follow_input_witness :
  exists a,
    performClustering (host := Samples.three_customers_host) Samples.three_customers 2 = Ok a
    /\ map data (clusters a) = Samples.three_customers.
Proof.
  eexists; split; [vm_compute; reflexivity|].
  eapply (performClustering_results_follow_input
            Samples.three_customers_host Samples.three_customers 2).
  vm_compute; reflexivity.
Defined.



(** ** What a run can throw *)

(** X3: a run throws in four ways only: the runtime's type error on an
    empty dataset; the runtime's RangeError when the dataset has a
    numeric feature and more records than the engine accepts arguments,
    thrown by normalisation before the guard; the not-enough-data error
    when [k] exceeds the number of records; and, once the guard has
    passed, whatever [kmeans] throws on the normalised matrix.  The
    silhouette computation inside a run never throws. *)
Theorem performClustering_throws_only
        (host : Host) (records : list CustomerRecord) (k : Z) (e : exn) :
  performClustering records k = Throw e ->
  (records = [] /\ e = TypeError)
  \/ (e = RangeError
      /\ normalizeData records ["id"%string] = Throw RangeError
      /\ (max_arguments < Z.of_nat (List.length records))%Z
      /\ exists first rest, records = first :: rest /\ select_features first ["id"%string] <> [])
  \/ (exists nf,
        normalizeData records ["id"%string] = Ok nf
        /\ (Z.of_nat (List.length records) < k)%Z /\ e = NotEnoughDataPoints k)
  \/ (exists nf,
        normalizeData records ["id"%string] = Ok nf
        /\ (k <= Z.of_nat (List.length records))%Z
        /\ kmeans (normalized nf) k 100 = Throw e).
Proof.
  intros Hrun.
  destruct records as [|first rest]; [left; split; [reflexivity|]; cbn in Hrun; congruence|].
  right.
  destruct (within_call_limit (first :: rest) ["id"%string]) eqn:Hfit.
  - right.
    destruct (normalizeData_cons first rest ["id"%string] Hfit) as (nf & Hnf & _).
    destruct (Z.lt_ge_cases (Z.of_nat (List.length (first :: rest))) k) as [Hlt|Hge].
    + left. exists nf. rewrite (performClustering_guard _ k nf Hnf Hlt) in Hrun.
      split; [assumption|]; split; [assumption|congruence].
    + right. exists nf; split; [assumption|]; split; [assumption|].
      destruct (kmeans (normalized nf) k 100) as [res|e'] eqn:Hkm.
      * destruct (performClustering_returns (first :: rest) k nf res Hnf Hge Hkm) as (a & Ha).
        congruence.
      * rewrite (performClustering_library_throws (first :: rest) k nf e' Hnf Hge Hkm) in Hrun.
        congruence.
  - left.
    pose proof (normalizeData_overflow first rest ["id"%string] Hfit) as Hthrow.
    rewrite (performClustering_normalize_throws _ k _ Hthrow) in Hrun.
    split; [congruence|]; split; [assumption|].
    pose proof (within_call_limit_spec first rest ["id"%string]) as Hspec.
    rewrite Hfit in Hspec.
    split.
    + destruct (Z.lt_ge_cases max_arguments (Z.of_nat (List.length (first :: rest))))
        as [|Hge]; [assumption|].
      assert (false = true) by (apply Hspec; right; lia). discriminate.
    + exists first, rest; split; [reflexivity|].
      intros Hnil. assert (false = true) by (apply Hspec; now left). discriminate.
Qed.

Lemma performClustering_throws_only_witness :
  exists nf,
    normalizeData (host := Samples.three_customers_host) Samples.three_customers ["id"%string]
    = Ok nf
    /\ kmeans (Host := Samples.three_customers_host) (normalized nf) 0 100
       = Throw (LibraryError "K should be a positive integer smaller than the number of points").
Proof.
  destruct (performClustering_throws_only
              Samples.three_customers_host Samples.three_customers 0
              (LibraryError "K should be a positive integer smaller than the number of points"))
    as [(H & _)|[(H & _)|[(nf & _ & H & _)|(nf & Hnf & _ & Hkm)]]].
  - vm_compute; reflexivity.
  - discriminate H.
  - discriminate H.
  - exfalso. revert H. vm_compute. discriminate.
  - exists nf; split; [exact Hnf|exact Hkm].
Defined.

(** ** The scan at its ends *)

(** X4: with fewer than two records, or with [maxK] below 2, there is no
    candidate: the function returns [k = 2] with no scores without
    running anything, also on the empty dataset, where a run would
    throw. *)
Theorem findOptimalClusters_without_candidates
        (host : Host) (data : list CustomerRecord) (maxK : Z) :
  (Z.min maxK (Z.of_nat (List.length data)) < 2)%Z ->
  candidates maxK (List.length data) = []
  /\ findOptimalClusters data maxK = Ok {| opt_k := 2; opt_scores := [] |}.
Proof.
  intros Hfew.
  assert (Hnone : candidates maxK (List.length data) = []).
  { unfold candidates.
    replace (Z.to_nat (Z.min maxK (Z.of_nat (List.length data)) - 1)) with 0%nat by lia.
    reflexivity. }
  split; [assumption|].
  unfold findOptimalClusters. rewrite Hnone. reflexivity.
Qed.

Lemma findOptimalClusters_without_candidates_witness :
  findOptimalClusters (host := Samples.three_customers_host) [] 8
  = Ok {| opt_k := 2; opt_scores := [] |}.
Proof.
  apply (findOptimalClusters_without_candidates Samples.three_customers_host [] 8).
  vm_compute; reflexivity.
Defined.

(** X5: when the run returns for every candidate, every candidate is
    scored: the scores list the cluster counts from 2 to [min(maxK, n)]
    in ascending order, one score each. *)
Theorem findOptimalClusters_scores_every_candidate
        (host : Host) (data : list CustomerRecord) (maxK : Z) :
  (forall k, In k (candidates maxK (List.length data)) ->
             exists a, performClustering data k = Ok a) ->
  exists r,
    findOptimalClusters data maxK = Ok r
    /\ map sc_k (opt_scores r) = candidates maxK (List.length data)
    /\ List.length (opt_scores r)
       = Z.to_nat (Z.min maxK (Z.of_nat (List.length data)) - 1).
Proof.
  intros Hall.
  destruct (findOptimalClusters_spec data maxK) as (r & untried & Hr & Hks & _ & Hstop & _).
  exists r; split; [assumption|].
  assert (Hnil : untried = []).
  { destruct untried as [|j rest]; [reflexivity|exfalso].
    destruct Hstop as (e & He).
    destruct (Hall j) as (a & Ha); [rewrite Hks; apply in_or_app; right; now left|].
    congruence. }
  subst untried. rewrite app_nil_r in Hks.
  split; [now symmetry|].
  rewrite <- (length_map sc_k), <- Hks. unfold candidates.
  now rewrite length_map, length_seq.
Qed.

Lemma findOptimalClusters_scores_every_candidate_witness :
  exists r,
    findOptimalClusters (host := Samples.three_customers_host) Samples.three_customers 8 = Ok r
    /\ map sc_k (opt_scores r) = [2; 3]%Z.
Proof.
  destruct (findOptimalClusters_scores_every_candidate
              Samples.three_customers_host Samples.three_customers 8) as (r & Hr & Hks & _).
  - intros k Hk. vm_compute in Hk.
    destruct Hk as [<-|[<-|[]]]; eexists; vm_compute; reflexivity.
  - exists r; split; [exact Hr|exact Hks].
Defined.

(** ** Counts *)

Section Counts.

Context {host : Host}.

Lemma no_match (ids : list Z) (c : option Z) :
  match c with Some c => existsb (Z.eqb c) ids | None => false end = false ->
  list_sum (map (fun i => if JS.strict_eq c (Some i) then 1%nat else 0%nat) ids) = 0%nat.
Proof.
  intros Hc; induction ids as [|i ids IH]; [reflexivity|].
  cbn [map]. unfold list_sum in *; cbn [fold_right].
  destruct c as [c|]; cbn [JS.strict_eq existsb] in *.
  - apply orb_false_iff in Hc as (-> & Hc). now rewrite IH.
  - now rewrite IH.
Qed.

Lemma existsb_In (ids : list Z) (c : Z) : existsb (Z.eqb c) ids = true <-> In c ids.
Proof.
  rewrite existsb_exists; split.
  - intros (i & Hi & Heq). apply Z.eqb_eq in Heq. now subst.
  - intros Hc. exists c; split; [assumption|apply Z.eqb_refl].
Qed.

(** Each result is counted once if its label is one of the ids, and not
    at all otherwise. *)
Lemma counts_sum_labelled (labelled : list ClusterResult) (feats : list string) (ids : list Z) :
  NoDup ids ->
  list_sum (map (fun i => count (summarize labelled feats i)) ids)
  = List.length (filter (fun r => match cluster r with
                                  | Some c => existsb (Z.eqb c) ids
                                  | None => false
                                  end) labelled).
Proof.
  intros Hnd; cbn [summarize count].
  induction labelled as [|r labelled IH].
  - cbn [filter List.length]. clear Hnd.
    unfold list_sum; induction ids as [|i ids IHi]; cbn [map fold_right]; auto.
  - assert (Hstep : forall w : nat,
               list_sum (map (fun i => if JS.strict_eq (cluster r) (Some i) then 1%nat
                                       else 0%nat) ids) = w ->
               list_sum (map (fun i => List.length
                                         (filter (fun r0 => JS.strict_eq (cluster r0) (Some i))
                                                 (r :: labelled))) ids)
               = (w + list_sum (map (fun i => List.length
                                         (filter (fun r0 => JS.strict_eq (cluster r0) (Some i))
                                                 labelled)) ids))%nat).
    { intros w <-. rewrite <- list_sum_map_add.
      f_equal; apply map_ext; intros i. cbn [filter].
      destruct (JS.strict_eq (cluster r) (Some i)); reflexivity. }
    destruct (cluster r) as [c|] eqn:Hc.
    + destruct (existsb (Z.eqb c) ids) eqn:Hr.
      * rewrite (Hstep 1%nat)
          by (apply one_match; [assumption|now apply existsb_In]).
        cbn [filter]. rewrite Hc, Hr. cbn [List.length]. now rewrite IH.
      * rewrite (Hstep 0%nat) by (now apply (no_match ids (Some c))).
        cbn [filter]. rewrite Hc, Hr. now rewrite IH.
    + rewrite (Hstep 0%nat) by (now apply (no_match ids None)).
      cbn [filter]. rewrite Hc. now rewrite IH.
Qed.

Lemma existsb_upto (k c : Z) : existsb (Z.eqb c) (upto k) = ((0 <=? c) && (c <? k))%Z.
Proof.
  apply eq_true_iff_eq. rewrite existsb_In, upto_range, andb_true_iff.
  rewrite Z.leb_le, Z.ltb_lt. reflexivity.
Qed.

End Counts.

(** X6: the counts of the summaries add up to the number of results
    whose label lies in [[0, k)]; a record that [kmeans] left without
    such a label is counted by no summary.  So the counts never exceed
    the number of records, and reach it when every label is in range. *)
Theorem summary_counts_cover_labelled_records
        (host : Host) (records : list CustomerRecord) (k : Z) (a : ClusterAnalysis) :
  performClustering records k = Ok a ->
  let labelled r := match cluster r with
                    | Some c => ((0 <=? c) && (c <? k))%Z
                    | None => false
                    end in
  list_sum (map count (clusterSummaries a)) = List.length (filter labelled (clusters a))
  /\ (list_sum (map count (clusterSummaries a)) <= List.length records)%nat
  /\ (forallb labelled (clusters a) = true ->
      list_sum (map count (clusterSummaries a)) = List.length records).
Proof.
  intros Hrun labelled.
  destruct (performClustering_Ok_inv records k a Hrun)
    as (nf & res & _ & _ & _ & Hcl & _ & _ & Hsum).
  assert (Hlen : List.length (clusters a) = List.length records)
    by (rewrite Hcl; apply mapi_length).
  assert (Hcount : list_sum (map count (clusterSummaries a))
                   = List.length (filter labelled (clusters a))).
  { rewrite Hsum, map_map, <- Hcl.
    rewrite (counts_sum_labelled (clusters a) (features nf) (upto k) (upto_NoDup k)).
    f_equal. apply filter_ext. intros r. unfold labelled.
    destruct (cluster r) as [c|]; [apply existsb_upto|reflexivity]. }
  split; [assumption|]; split.
  - rewrite Hcount, <- Hlen. apply filter_length_le.
  - intros Hall. rewrite Hcount, <- Hlen.
    f_equal. apply forallb_filter_id. assumption.
Qed.

Lemma summary_counts_cover_labelled_records_witness :
  exists a,
    performClustering (host := Samples.three_twins_host) Samples.three_twins 2 = Ok a
    /\ list_sum (map count (clusterSummaries a)) = 3%nat.
Proof.
  eexists; split; [vm_compute; reflexivity|].
  eapply (summary_counts_cover_labelled_records
            Samples.three_twins_host Samples.three_twins 2).
  - vm_compute; reflexivity.
  - reflexivity.
Defined.

(** ** Distances *)

Section Distances.

Local Open Scope float_scope.

Lemma fold_left_ext_in (A B : Type) (f g : B -> A -> B) (l : list A) (acc : B) :
  (forall b x, In x l -> f b x = g b x) -> fold_left f l acc = fold_left g l acc.
Proof.
  revert acc; induction l as [|x l IH]; intros acc H; cbn [fold_left]; [reflexivity|].
  rewrite (H acc x (or_introl eq_refl)). apply IH. intros b y Hy. apply H. now right.
Qed.

Lemma fold_left_fixed (A B : Type) (f : B -> A -> B) (l : list A) (b : B) :
  (forall x, In x l -> f b x = b) -> fold_left f l b = b.
Proof.
  induction l as [|x l IH]; intros H; cbn [fold_left]; [reflexivity|].
  rewrite (H x (or_introl eq_refl)). apply IH. intros y Hy. apply H. now right.
Qed.

Lemma idx_finite (a : list float) (i : nat) :
  Forall (fun x => is_finite x = true) a -> (i < List.length a)%nat ->
  is_finite (JS.idx a i) = true.
Proof.
  intros Ha Hi. unfold JS.idx.
  apply (proj1 (Forall_forall _ a) Ha). now apply nth_In.
Qed.

End Distances.

(** X7: the distance does not depend on the order of its arguments:
    [euclidean a b] and [euclidean b a] return the same number, bit for
    bit, or throw the same error. *)
Theorem euclidean_symmetric (a b : list float) :
  euclidean a b = euclidean b a.
Proof.
  unfold euclidean. rewrite (Nat.eqb_sym (List.length b) (List.length a)).
  destruct (Nat.eqb_spec (List.length a) (List.length b)) as [Hlen|_]; cbn [negb];
    [|reflexivity].
  rewrite Hlen. do 2 f_equal.
  apply fold_left_ext_in. intros sum i _. cbv zeta. now rewrite sub_square_comm.
Qed.

(** X8: a vector of finite numbers is at distance 0 from itself. *)
Theorem euclidean_self_distance (a : list float) :
  Forall (fun x => is_finite x = true) a -> euclidean a a = Ok 0%float.
Proof.
  intros Ha. unfold euclidean. rewrite Nat.eqb_refl; cbn [negb].
  rewrite fold_left_fixed; [reflexivity|].
  intros i Hi. apply in_seq in Hi. cbv zeta.
  now rewrite sub_self by (apply idx_finite; [assumption|lia]).
Qed.

Lemma euclidean_self_distance_witness :
  euclidean [1; 0x1.8p+1; -2]%float [1; 0x1.8p+1; -2]%float = Ok 0%float.
Proof.
  apply (euclidean_self_distance [1; 0x1.8p+1; -2]%float).
  repeat constructor.
Defined.

(** ** A partition into a single cluster *)

Section SingleCluster.

Local Open Scope float_scope.

Lemma foldM_fixed (A B : Type) (f : B -> A -> result B) (l : list A) (b : B) :
  (forall x, In x l -> f b x = Ok b) -> foldM f l b = Ok b.
Proof.
  induction l as [|x l IH]; intros H; cbn [foldM]; [reflexivity|].
  rewrite (H x (or_introl eq_refl)); cbn [bind]. apply IH. intros y Hy. apply H. now right.
Qed.

Lemma set_of_In (seen xs : list Z) (x : Z) : In x (JS.set_of seen xs) -> In x xs.
Proof.
  revert seen; induction xs as [|y xs IH]; intros seen; cbn [JS.set_of]; [tauto|].
  destruct (existsb (Z.eqb y) seen).
  - intros H. right. now apply (IH seen).
  - intros [->|H]; [now left|right; now apply (IH (y :: seen))].
Qed.

Lemma filter_none (A : Type) (p : A -> bool) (l : list A) :
  (forall x, In x l -> p x = false) -> filter p l = [].
Proof.
  induction l as [|x l IH]; intros H; cbn [filter]; [reflexivity|].
  rewrite (H x (or_introl eq_refl)). apply IH. intros y Hy. apply H. now right.
Qed.

(** With one label throughout there is no other cluster, and [b(i)]
    stays [Infinity]. *)
Lemma nearest_distance_single (matrix : list (list float)) (labels : list Z) (c : Z) (i : nat) :
  Forall (fun l => l = c) labels -> nth_error labels i = Some c ->
  nearest_distance matrix labels i = Ok infinity.
Proof.
  intros Hall Hi. unfold nearest_distance. rewrite Hi.
  rewrite filter_none; [reflexivity|].
  intros x Hx. apply set_of_In in Hx.
  rewrite (proj1 (Forall_forall _ labels) Hall x Hx).
  cbn [JS.strict_eq]. now rewrite Z.eqb_refl.
Qed.

Lemma intra_distance_returns (width : nat) (matrix : list (list float)) (labels : list Z)
      (i : nat) :
  Forall (fun row => List.length row = width) matrix -> (i < List.length matrix)%nat ->
  exists aI, intra_distance matrix labels i = Ok aI.
Proof.
  intros Hrect Hi. unfold intra_distance.
  match goal with |- context [JS.filteri ?p matrix] => set (same := JS.filteri p matrix);
    pose proof (selection_width width matrix Hrect p i Hi) as Hsame; fold same in Hsame end.
  destruct (0 <? List.length same)%nat; [|eexists; reflexivity].
  destruct (sum_distances_returns _ _ Hsame) as (t & ->); cbn [bind].
  eexists; reflexivity.
Qed.

End SingleCluster.

(** X9: when every point carries the same label, the silhouette score
    of a non-empty rectangular matrix is 0: no point has another cluster
    to be compared with. *)
Theorem silhouette_of_single_cluster
        (width : nat) (matrix : list (list float)) (labels : list Z) (c : Z) :
  Forall (fun row => List.length row = width) matrix ->
  Forall (fun l => l = c) labels ->
  (0 < List.length matrix <= List.length labels)%nat ->
  (Z.of_nat (List.length matrix) < 2 ^ 32)%Z ->
  calculateSilhouetteScore matrix labels = Ok 0%float.
Proof.
  intros Hrect Hall (Hpos & Hlen) Hsmall.
  unfold calculateSilhouetteScore.
  rewrite foldM_fixed.
  - cbn [bind].
    destruct (of_length_value (List.length matrix) Hpos Hsmall) as (w & Hw & Hw0).
    now rewrite (zero_div _ w Hw Hw0).
  - intros i Hi. apply in_seq in Hi.
    assert (Hc : nth_error labels i = Some c).
    { destruct (nth_error labels i) as [l|] eqn:Hl.
      - apply nth_error_In in Hl. now rewrite (proj1 (Forall_forall _ labels) Hall l Hl).
      - apply nth_error_None in Hl. lia. }
    unfold silhouette.
    destruct (intra_distance_returns width matrix labels i Hrect) as (aI & ->); [lia|].
    rewrite (nearest_distance_single matrix labels c i Hall Hc). reflexivity.
Qed.

Lemma silhouette_of_single_cluster_witness :
  calculateSilhouetteScore [[0; 0]; [1; 1]; [0x1p-1; 1]]%float [4; 4; 4]%Z = Ok 0%float.
Proof.
  apply (silhouette_of_single_cluster 2 [[0; 0]; [1; 1]; [0x1p-1; 1]]%float [4; 4; 4]%Z 4).
  - repeat constructor.
  - repeat constructor.
  - cbn; lia.
  - cbn; lia.
Defined.

(** ** The ends of the unit interval *)

Section Extremes.

Context {host : Host}.

Local Open Scope float_scope.

(** The row of the matrix that a row of raw values becomes. *)
Lemma normalized_of_raw (first : CustomerRecord) (rest : list CustomerRecord)
      (excludeColumns : list string) (nf : Normalized) (raw : list float) (i : nat) :
  normalizeData (first :: rest) excludeColumns = Ok nf ->
  let values := raw_values (first :: rest) (features nf) in
  In raw values -> (i < List.length (features nf))%nat ->
  exists row,
    In row (normalized nf)
    /\ JS.idx row i
       = (let range := JS.Math_max (column values i) - JS.Math_min (column values i) in
          if range =? 0 then 0
          else (JS.idx raw i - JS.Math_min (column values i)) / range).
Proof.
  set (feats := select_features first excludeColumns).
  set (values := raw_values (first :: rest) feats).
  set (mins := JS.mapi (fun _ i => JS.Math_min (column values i)) feats).
  set (maxs := JS.mapi (fun _ i => JS.Math_max (column values i)) feats).
  intros Hnf.
  assert (Hnf' : nf = {| normalized := map (fun row => JS.mapi (scale mins maxs) row) values;
                         features := feats |}).
  { exact (normalizeData_Ok_inv first rest excludeColumns nf Hnf). }
  subst nf. cbn [normalized features]. fold values.
  intros Hraw Hi.
  exists (JS.mapi (scale mins maxs) raw); split.
  - now apply (in_map (fun row => JS.mapi (scale mins maxs) row)).
  - destruct (raw_values_entry _ _ raw i Hraw Hi) as (Hlen & _).
    rewrite (idx_mapi _ (scale mins maxs) raw i nan) by lia.
    unfold scale, mins, maxs.
    rewrite !(idx_mapi _ _ feats i ""%string) by assumption.
    reflexivity.
Qed.

End Extremes.

(** X10: in a feature whose range, as the code computes it, is finite and
    not zero, both ends of the unit interval are reached: the matrix
    holds exactly 0 in that column for a record with the least raw
    value, and exactly 1 for a record with the greatest. *)
Theorem normalizeData_reaches_both_ends
        (host : Host) (first : CustomerRecord) (rest : list CustomerRecord)
        (excludeColumns : list string) (nf : Normalized) (i : nat) :
  normalizeData (first :: rest) excludeColumns = Ok nf ->
  (i < List.length (features nf))%nat ->
  let column_i := column (raw_values (first :: rest) (features nf)) i in
  is_finite (JS.Math_max column_i - JS.Math_min column_i)%float = true ->
  (JS.Math_max column_i - JS.Math_min column_i =? 0)%float = false ->
  (exists row, In row (normalized nf) /\ JS.idx row i = 0%float)
  /\ (exists row, In row (normalized nf) /\ JS.idx row i = 1%float).
Proof.
  intros Hnf Hi column_i Hfin Hnz.
  pose proof (column_not_nan (first :: rest) (features nf) i Hi) as Hnan.
  fold column_i in Hnan.
  assert (Hne : column_i <> []) by (unfold column_i, column, raw_values; discriminate).
  pose proof (Math_min_attained column_i Hne Hnan) as Hmin.
  pose proof (Math_max_attained column_i Hne Hnan) as Hmax.
  (* the range is positive and its ends are finite *)
  destruct (sub_finite_inv _ _ Hfin) as (b & a & Hb & Ha).
  assert (Hab : (a <= b)%Z).
  { pose proof (Math_max_upper column_i Hnan _ Hmin) as Hle.
    rewrite Ha, Hb in Hle. unfold xle in Hle; cbn [xlt xeq] in Hle. lia. }
  pose proof (sub_value _ _ b a Hb Ha Hab) as Hrange.
  pose proof (rnd_nonneg (b - a) ltac:(lia)) as Hnn. rewrite <- Hrange in Hnn.
  apply is_finite_value in Hfin as Hw. destruct Hw as (w & Hw).
  assert (Hw0 : (0 < w)%Z).
  { rewrite Hw in Hnn. unfold xle in Hnn; cbn [xlt xeq] in Hnn.
    apply not_true_iff_false in Hnz. rewrite eqb_value, Hw, fval_zero in Hnz.
    cbn [xeq] in Hnz. lia. }
  assert (Hminfin : is_finite (JS.Math_min column_i) = true)
    by (apply is_finite_value; now exists a).
  split.
  - assert (Hcell : exists raw, JS.idx raw i = JS.Math_min column_i
                                /\ In raw (raw_values (first :: rest) (features nf)))
      by (apply in_map_iff; exact Hmin).
    destruct Hcell as (raw & Hraw & Hin).
    destruct (normalized_of_raw first rest excludeColumns nf raw i Hnf Hin Hi)
      as (row & Hrow & Hval).
    exists row; split; [assumption|].
    rewrite Hval; cbv zeta. fold column_i. rewrite Hnz, Hraw.
    rewrite (sub_self _ Hminfin). now apply (zero_div _ w).
  - assert (Hcell : exists raw, JS.idx raw i = JS.Math_max column_i
                                /\ In raw (raw_values (first :: rest) (features nf)))
      by (apply in_map_iff; exact Hmax).
    destruct Hcell as (raw & Hraw & Hin).
    destruct (normalized_of_raw first rest excludeColumns nf raw i Hnf Hin Hi)
      as (row & Hrow & Hval).
    exists row; split; [assumption|].
    rewrite Hval; cbv zeta. fold column_i. rewrite Hnz, Hraw.
    apply div_self; [|assumption].
    apply is_finite_value. now exists w.
Qed.

Lemma normalizeData_reaches_both_ends_witness :
  exists nf,
    normalizeData (host := Samples.three_customers_host) Samples.three_customers ["id"%string]
    = Ok nf
    /\ (exists row, In row (normalized nf) /\ JS.idx row 1 = 0%float)
    /\ (exists row, In row (normalized nf) /\ JS.idx row 1 = 1%float).
Proof.
  eexists; split; [reflexivity|].
  apply (normalizeData_reaches_both_ends
           Samples.three_customers_host
           (hd [] Samples.three_customers) (tl Samples.three_customers) ["id"%string] _ 1).
  - reflexivity.
  - cbn. lia.
  - vm_compute. reflexivity.
  - vm_compute. reflexivity.
Defined.

(** * Properties of the callers *)

(** ** The dashboard's controls *)

(** X11: whenever normalisation returns, the features the dashboard
    offers for the axes are the features the clustering is computed on.
    On an empty dataset both throw the type error.  On a non-empty one
    the dashboard's list is always there, the eligible fields of the
    first record; normalisation fails only with the RangeError of an
    oversized spread, and then the dashboard still lists at least one
    feature. *)
Theorem numericFeatures_are_clustering_features (host : Host) (data : list CustomerRecord) :
  (forall nf, normalizeData data ["id"%string] = Ok nf ->
              Dashboard.numericFeatures data = Ok (features nf))
  /\ (data = [] ->
      Dashboard.numericFeatures data = Throw TypeError
      /\ normalizeData data ["id"%string] = Throw TypeError)
  /\ (forall first rest, data = first :: rest ->
        Dashboard.numericFeatures data = Ok (select_features first ["id"%string]))
  /\ (forall e, data <> [] -> normalizeData data ["id"%string] = Throw e ->
        e = RangeError
        /\ exists fs, Dashboard.numericFeatures data = Ok fs /\ fs <> []).
Proof.
  assert (Hsame : forall first rest,
             Dashboard.numericFeatures (first :: rest) = Ok (select_features first ["id"%string])).
  { intros first rest. unfold Dashboard.numericFeatures, select_features. f_equal.
    apply filter_ext. intros key.
    unfold includes; cbn [existsb]. now rewrite orb_false_r. }
  split; [|split; [|split]].
  - intros nf Hnf. destruct data as [|first rest]; [discriminate|].
    destruct (normalizeData_Ok_shape first rest _ nf Hnf) as (_ & -> & _).
    apply Hsame.
  - intros ->. split; reflexivity.
  - intros first rest ->. apply Hsame.
  - intros e Hne He. destruct data as [|first rest]; [congruence|].
    destruct (within_call_limit (first :: rest) ["id"%string]) eqn:Hfit.
    + destruct (normalizeData_cons first rest ["id"%string] Hfit) as (nf & Hnf & _).
      congruence.
    + rewrite (normalizeData_overflow first rest _ Hfit) in He.
      split; [congruence|].
      exists (select_features first ["id"%string]); split; [apply Hsame|].
      intros Hnil.
      assert (within_call_limit (first :: rest) ["id"%string] = true)
        by (apply within_call_limit_spec; now left).
      congruence.
Qed.

Section Controls.

Context {host : Host}.

Lemma clusterOptions_range (data : list CustomerRecord) (k : Z) :
  In k (Dashboard.clusterOptions data)
  <-> (2 <= k <= Z.min 9 (Z.of_nat (List.length data)))%Z.
Proof.
  unfold Dashboard.clusterOptions; rewrite in_map_iff; split.
  - intros (i & <- & Hi). apply in_seq in Hi. lia.
  - intros Hk. exists (Z.to_nat (k - 2)); split; [lia|]. apply in_seq. lia.
Qed.

End Controls.

(** X12: the selector offers the cluster counts from 2 to [min(9, n)],
    each at most the number of records, so none of them is turned down
    by the guard of a run; they include every count the scan for the
    best one tries; and from nine records on they include 9, which the
    scan never tries. *)
Theorem clusterOptions_cover_the_scan (data : list CustomerRecord) :
  let n := Z.of_nat (List.length data) in
  (forall k, In k (Dashboard.clusterOptions data) <-> (2 <= k <= Z.min 9 n)%Z)
  /\ (forall k, In k (Dashboard.clusterOptions data) -> (k <= n)%Z)
  /\ (forall k, In k (candidates 8 (List.length data)) -> In k (Dashboard.clusterOptions data))
  /\ ((9 <= n)%Z ->
      In 9%Z (Dashboard.clusterOptions data) /\ ~ In 9%Z (candidates 8 (List.length data))).
Proof.
  intros n; split; [apply clusterOptions_range|]; split; [|split].
  - intros k Hk. apply clusterOptions_range in Hk. lia.
  - intros k Hk. apply clusterOptions_range. apply candidates_range in Hk. lia.
  - intros Hn; split.
    + apply clusterOptions_range. lia.
    + intros Hk. apply candidates_range in Hk. lia.
Qed.

(** X13: with fewer records than the cluster count, the dashboard has no
    analysis, and the selector does not offer that count.  The component
    starts with a count of 4, so this is its state on a dataset of two
    or three records. *)
Theorem analysis_missing_above_record_count
        (host : Host) (data : list CustomerRecord) (clusterCount : Z) :
  (Z.of_nat (List.length data) < clusterCount)%Z ->
  Dashboard.analysis data clusterCount = None
  /\ ~ In clusterCount (Dashboard.clusterOptions data).
Proof.
  intros Hlt; split.
  - unfold Dashboard.analysis.
    destruct (performClustering_throws_above data clusterCount Hlt) as (e & ->).
    reflexivity.
  - intros Hin. apply clusterOptions_range in Hin. lia.
Qed.

Lemma analysis_missing_above_record_count_witness :
  Dashboard.analysis (host := Samples.three_customers_host)
                     Samples.three_customers Dashboard.initialClusterCount = None
  /\ ~ In Dashboard.initialClusterCount (Dashboard.clusterOptions Samples.three_customers).
Proof.
  apply (analysis_missing_above_record_count
           Samples.three_customers_host Samples.three_customers Dashboard.initialClusterCount).
  vm_compute; reflexivity.
Defined.

(** X14: on a dataset of at least two records the scan for the best
    count returns, and the count it returns is one the selector
    offers. *)
Theorem optimal_count_is_offered (host : Host) (data : list CustomerRecord) :
  (2 <= List.length data)%nat ->
  exists r, Dashboard.optimalAnalysis data = Ok r /\ In (opt_k r) (Dashboard.clusterOptions data).
Proof.
  intros Hn. unfold Dashboard.optimalAnalysis.
  destruct (findOptimalClusters_spec data 8) as (r & untried & Hr & Hks & _ & _ & Hk).
  exists r; split; [assumption|].
  apply clusterOptions_range.
  destruct (opt_scores r) as [|first rest] eqn:Hscores.
  - rewrite Hk. lia.
  - assert (Hin : In (opt_k r) (candidates 8 (List.length data))).
    { rewrite Hks, Hk. apply in_or_app; left. apply in_map, best_of_In. }
    apply candidates_range in Hin. lia.
Qed.

Lemma optimal_count_is_offered_witness :
  exists r,
    Dashboard.optimalAnalysis (host := Samples.three_customers_host) Samples.three_customers
    = Ok r
    /\ In (opt_k r) (Dashboard.clusterOptions Samples.three_customers).
Proof.
  apply (optimal_count_is_offered Samples.three_customers_host Samples.three_customers).
  vm_compute. lia.
Defined.

(** ** Reading an analysis *)

Section ReadAnalysis.

Context {host : Host}.

(** [analysis.clusterSummaries[c]] after a run: the summary of cluster
    [c] when [c] is a label in [[0, k)], and [undefined] otherwise. *)
Lemma summary_at_run (records : list CustomerRecord) (k : Z) (a : ClusterAnalysis)
      (c : option Z) :
  performClustering records k = Ok a ->
  match c with
  | Some i =>
      if ((0 <=? i) && (i <? k))%Z
      then exists s, summary_at (clusterSummaries a) c = Some s
                     /\ In s (clusterSummaries a) /\ clusterId s = i
      else summary_at (clusterSummaries a) c = None
  | None => summary_at (clusterSummaries a) c = None
  end.
Proof.
  intros Hrun.
  destruct (performClustering_Ok_inv records k a Hrun) as (nf & res & _ & _ & _ & _ & _ & _ & Hsum).
  destruct c as [i|]; [|reflexivity].
  cbn [summary_at].
  destruct (Z.leb_spec 0 i) as [H0|H0]; cbn [andb].
  - destruct (Z.ltb_spec i 0) as [|_]; [lia|].
    destruct (Z.ltb_spec i k) as [Hk|Hk].
    + assert (Hs : nth_error (clusterSummaries a) (Z.to_nat i)
                   = Some (summarize (label_records res records) (features nf) i)).
      { rewrite Hsum, nth_error_map, upto_at by lia. reflexivity. }
      eexists; split; [exact Hs|]. split; [|reflexivity].
      eapply nth_error_In; exact Hs.
    + apply nth_error_None. rewrite Hsum, length_map, upto_length. lia.
  - destruct (Z.ltb_spec i 0) as [_|]; [reflexivity|lia].
Qed.

Lemma catalog_entry (catalog : list string) (i : Z) :
  (0 <= i)%Z -> Forall (fun s => String.eqb s "" = false) catalog -> catalog <> [] ->
  exists entry,
    catalog_at catalog i = Some entry
    /\ nth_error catalog (Z.to_nat (i mod Z.of_nat (List.length catalog))) = Some entry
    /\ forall fallback, or_else (Some entry) fallback = entry.
Proof.
  intros Hi Hall Hne.
  destruct (catalog_at_mod catalog i Hne Hi) as (Heq & Hsome).
  destruct (catalog_at catalog i) as [entry|] eqn:He; [|congruence].
  exists entry; split; [reflexivity|]; split; [now symmetry|].
  intros fallback. cbn [or_else].
  symmetry in Heq. apply nth_error_In in Heq.
  now rewrite (proj1 (Forall_forall _ _) Hall entry Heq).
Qed.

End ReadAnalysis.

(** X15: selecting a cluster in the filter leaves as many records as
    that cluster's summary counts, all of them records of the dataset;
    with no cluster selected, or without an analysis, the records are
    those of the dataset. *)
Theorem filteredData_matches_summary
        (host : Host) (records : list CustomerRecord) (k : Z) (a : ClusterAnalysis)
        (s : ClusterSummary) :
  performClustering records k = Ok a ->
  In s (clusterSummaries a) ->
  List.length (Dashboard.filteredData records (Some a) (Some (clusterId s))) = count s
  /\ incl (Dashboard.filteredData records (Some a) (Some (clusterId s))) records
  /\ Dashboard.filteredData records (Some a) None = records
  /\ (forall selected, Dashboard.filteredData records None selected = records).
Proof.
  intros Hrun Hs.
  destruct (performClustering_Ok_inv records k a Hrun)
    as (nf & res & _ & _ & _ & Hcl & _ & _ & Hsum).
  rewrite Hsum in Hs. apply in_map_iff in Hs as (i & <- & _).
  cbn [Dashboard.filteredData summarize clusterId count].
  split; [now rewrite length_map, Hcl|]; split; [|split; [reflexivity|]].
  - intros record Hrecord.
    apply in_map_iff in Hrecord as (r & <- & Hr). apply filter_In in Hr as (Hr & _).
    rewrite <- (label_records_data res records), <- Hcl. now apply in_map.
  - intros selected. destruct selected; reflexivity.
Qed.

Lemma filteredData_matches_summary_witness :
  exists a s,
    performClustering (host := Samples.three_customers_host) Samples.three_customers 2 = Ok a
    /\ nth_error (clusterSummaries a) 0 = Some s
    /\ List.length (Dashboard.filteredData Samples.three_customers (Some a)
                                           (Some (clusterId s))) = count s.
Proof.
  eexists; eexists; split; [vm_compute; reflexivity|]; split; [reflexivity|].
  eapply (filteredData_matches_summary
            Samples.three_customers_host Samples.three_customers 2).
  - vm_compute; reflexivity.
  - left; reflexivity.
Defined.

(** X16: the name written for a record whose label [c] lies in
    [[0, k)] is the entry [c mod 8] of [CLUSTER_NAMES]; for any other
    label, also a missing one, it is the text [Cluster] followed by the
    label as the runtime prints it. *)
Theorem clusterName_from_catalog
        (host : Host) (ToString : option Z -> string)
        (records : list CustomerRecord) (k : Z) (a : ClusterAnalysis) (c : option Z) :
  performClustering records k = Ok a ->
  match c with
  | Some i =>
      if ((0 <=? i) && (i <? k))%Z
      then nth_error CLUSTER_NAMES (Z.to_nat (i mod 8))
           = Some (Dashboard.clusterName ToString a c)
      else Dashboard.clusterName ToString a c = ("Cluster " ++ ToString c)%string
  | None => Dashboard.clusterName ToString a c = ("Cluster " ++ ToString c)%string
  end.
Proof.
  intros Hrun. pose proof (summary_at_run records k a c Hrun) as Hat.
  unfold Dashboard.clusterName.
  destruct c as [i|]; [|now rewrite Hat].
  destruct ((0 <=? i) && (i <? k))%Z eqn:Hi; [|now rewrite Hat].
  destruct Hat as (s & -> & Hs & Hid).
  destruct (summaries_catalogs records k a s Hrun Hs) as (Hrange & _ & ->).
  destruct (catalog_entry CLUSTER_NAMES (clusterId s)) as (entry & -> & Hnth & ->);
    [lia|repeat constructor|discriminate|].
  rewrite <- Hid. exact Hnth.
Qed.

Lemma clusterName_from_catalog_witness :
  exists a,
    performClustering (host := Samples.three_customers_host) Samples.three_customers 2 = Ok a
    /\ Dashboard.clusterName (fun _ => "?"%string) a (Some 1%Z) = "Budget-Conscious"%string
    /\ Dashboard.clusterName (fun _ => "?"%string) a (Some 2%Z) = "Cluster ?"%string.
Proof.
  eexists; split; [vm_compute; reflexivity|].
  split.
  - pose proof (clusterName_from_catalog
                  Samples.three_customers_host (fun _ => "?"%string)
                  Samples.three_customers 2 _ (Some 1%Z) eq_refl) as H.
    cbv beta iota in H. vm_compute in H. vm_compute. congruence.
  - exact (clusterName_from_catalog
             Samples.three_customers_host (fun _ => "?"%string)
             Samples.three_customers 2 _ (Some 2%Z) eq_refl).
Defined.

(** X17: the scatter plot has one point per record, in the order of the
    dataset, carrying the record's id and label; its coordinates are
    never NaN, a missing or non-numeric cell being drawn at 0; and its
    color is the entry [c mod 8] of [CLUSTER_COLORS] when the label [c]
    lies in [[0, k)] and the grey [#666] otherwise. *)
Theorem chart_points_follow_records
        (host : Host) (records : list CustomerRecord) (k : Z) (a : ClusterAnalysis)
        (xFeature yFeature : string) :
  performClustering records k = Ok a ->
  let points := ClusterVisualization.data a xFeature yFeature in
  map pt_id points = map (fun record => get record "id"%string) records
  /\ map pt_cluster points = map cluster (clusters a)
  /\ forall p, In p points ->
       is_nan (pt_x p) = false /\ is_nan (pt_y p) = false
       /\ match pt_cluster p with
          | Some i =>
              if ((0 <=? i) && (i <? k))%Z
              then nth_error CLUSTER_COLORS (Z.to_nat (i mod 8)) = Some (pt_color p)
              else pt_color p = "#666"%string
          | None => pt_color p = "#666"%string
          end.
Proof.
  intros Hrun points. subst points. unfold ClusterVisualization.data.
  destruct (performClustering_Ok_inv records k a Hrun)
    as (nf & res & _ & _ & _ & Hcl & _ & _ & _).
  split; [|split].
  - rewrite map_map; cbn [pt_id].
    transitivity (map (fun record => get record "id"%string) (map data (clusters a)));
      [now rewrite map_map|].
    now rewrite Hcl, label_records_data.
  - rewrite map_map; cbn [pt_cluster]. reflexivity.
  - intros p Hp. apply in_map_iff in Hp as (r & <- & _).
    cbn [pt_x pt_y pt_cluster pt_color].
    split; [apply or_zero_not_nan|]; split; [apply or_zero_not_nan|].
    pose proof (summary_at_run records k a (cluster r) Hrun) as Hat.
    destruct (cluster r) as [i|]; [|now rewrite Hat].
    destruct ((0 <=? i) && (i <? k))%Z eqn:Hi; [|now rewrite Hat].
    destruct Hat as (s & -> & Hs & Hid).
    destruct (summaries_catalogs records k a s Hrun Hs) as (Hrange & -> & _).
    destruct (catalog_entry CLUSTER_COLORS (clusterId s)) as (entry & -> & Hnth & ->);
      [lia|repeat constructor|discriminate|].
    rewrite <- Hid. exact Hnth.
Qed.

Lemma chart_points_follow_records_witness :
  exists a,
    performClustering (host := Samples.three_customers_host) Samples.three_customers 2 = Ok a
    /\ map pt_id (ClusterVisualization.data (host := Samples.three_customers_host)
                                             a "spend" "visits")
       = [Some (VString "a"); Some (VString "b"); Some (VString "c")].
Proof.
  eexists; split; [vm_compute; reflexivity|].
  eapply (chart_points_follow_records
            Samples.three_customers_host Samples.three_customers 2).
  vm_compute; reflexivity.
Defined.
